(** * BasicBlockTracer: a shallow embedding of the [bb-trace] module pass

    The development follows
    [perfvec/block_trace/tracer/passes/BasicBlockTracer.cpp].  The LLVM
    module the pass rewrites is a record of functions, blocks and
    instructions; the pass is a function from an environment and a module
    to the rewritten module together with the descriptor file it writes.

    Conventions.
    - [uint32_t] and [uint64_t] values are [Z]; a wrap-around is written
      where the source increments a counter or narrows a wider value.
    - Blocks, functions and loops are identified by a key, the counterpart
      of the object's address; [DenseMap]s keyed by pointers are [gmap]s
      keyed by these.
    - An operand the [IRBuilder] computes is the expression that stands
      for its value; where the builder creates an instruction for it (it
      neither returns its operand nor folds a constant), that instruction
      is inserted into the block like the hook it is made for.
    - LLVM's own services (the instruction printer, the JSON writer, the
      data layout, [std::filesystem] paths) are fields of an environment
      record or of the module. *)

From stdpp Require Import gmap strings list pretty.
From Stdlib Require Import ZArith Lia Ascii HexString.

Local Open Scope Z_scope.

(** ** Machine integers *)

Definition wrap32 (z : Z) : Z := z mod 2 ^ 32.

(** [std::numeric_limits<uint32_t>::max()] *)
Definition kInvalidLoopId : Z := 2 ^ 32 - 1.

(** ** Types and the data layout *)

Inductive FPKind : Type :=
| FPHalf | FPBFloat | FPFloat | FPDouble | FPX86FP80 | FPFP128 | FPPPCFP128.

(** The cases of [llvm::Type] the pass tells apart.  [OtherTy] stands for
    every type that is neither a pointer, an integer nor a floating-point
    scalar (vectors, aggregates, ...); its tag names the type. *)
Inductive Ty : Type :=
| PointerTy (addrSpace : N)
| IntegerTy (bits : Z)
| FloatingTy (k : FPKind)
| OtherTy (tag : N).

Global Instance FPKind_eq_dec : EqDecision FPKind.
Proof. solve_decision. Defined.
Global Instance Ty_eq_dec : EqDecision Ty.
Proof. solve_decision. Defined.

Definition isPointerTy (t : Ty) : bool :=
  match t with PointerTy _ => true | _ => false end.
Definition isIntegerTy (t : Ty) : bool :=
  match t with IntegerTy _ => true | _ => false end.
Definition isFloatingPointTy (t : Ty) : bool :=
  match t with FloatingTy _ => true | _ => false end.

(** [Type::getPointerAddressSpace] and [Type::getIntegerBitWidth], asked
    of pointer and integer types only. *)
Definition getPointerAddressSpace (t : Ty) : N :=
  match t with PointerTy a => a | _ => 0%N end.
Definition getIntegerBitWidth (t : Ty) : Z :=
  match t with IntegerTy b => b | _ => 0 end.

(** [Type::getScalarSizeInBits] on the floating-point types. *)
Definition fpSizeInBits (k : FPKind) : Z :=
  match k with
  | FPHalf | FPBFloat => 16
  | FPFloat => 32
  | FPDouble => 64
  | FPX86FP80 => 80
  | FPFP128 | FPPPCFP128 => 128
  end.

(** [Type::getScalarSizeInBits]: zero for types without a primitive size. *)
Definition getScalarSizeInBits (t : Ty) : Z :=
  match t with
  | IntegerTy b => b
  | FloatingTy k => fpSizeInBits k
  | _ => 0
  end.

(** The queries of [llvm::DataLayout] the pass makes.  [getPointerSizeInBits]
    returns [unsigned]; the two store-size queries return a 64-bit
    [TypeSize]; [getPointerSize] is the size in bytes of a pointer in
    address space 0. *)
Record DataLayout : Type := mkDataLayout {
  getPointerSizeInBits : N -> Z;
  getTypeStoreSizeInBits : Ty -> Z;
  getTypeStoreSize : Ty -> Z;
  getPointerSize : Z
}.

(** ** Values *)

(** Operands and the expressions the [IRBuilder] builds over them.
    [VLocal] is a value of the input program that is not a constant (an
    SSA register or an argument) with its type; the other leaves are
    constants: integer and floating-point literals, the null pointer,
    functions, block addresses and globals.  A cast of a constant is a
    constant expression.  [SExt] is part of the builder's repertoire and is
    listed so that its absence from the pass's output is a statement. *)
Inductive Value : Type :=
| VLocal (ty : Ty) (id : N)
| ConstInt (bits : Z) (v : Z)
| ConstFP (k : FPKind) (bits : Z)
| ConstNull
| FunctionPtr (fkey : N)
| BlockAddress (fkey : N) (bkey : N)
| GlobalPtr (name : string)
| PointerCast (v : Value)
| PtrToInt (v : Value) (bits : Z)
| ZExt (v : Value) (bits : Z)
| SExt (v : Value) (bits : Z)
| Trunc (v : Value) (bits : Z)
| BitCast (v : Value) (ty : Ty)
| Select (c t f : Value)
| ReturnAddress (depth : Value).

Global Instance Value_eq_dec : EqDecision Value.
Proof. solve_decision. Defined.

Fixpoint typeOf (v : Value) : Ty :=
  match v with
  | VLocal ty _ => ty
  | ConstInt b _ => IntegerTy b
  | ConstFP k _ => FloatingTy k
  | ConstNull | FunctionPtr _ | BlockAddress _ _ | GlobalPtr _
  | PointerCast _ | ReturnAddress _ => PointerTy 0
  | PtrToInt _ b | ZExt _ b | SExt _ b | Trunc _ b => IntegerTy b
  | BitCast _ ty => ty
  | Select _ t _ => typeOf t
  end.

Definition constI32 (v : Z) : Value := ConstInt 32 v.
Definition constI64 (v : Z) : Value := ConstInt 64 v.
Definition Int64Ty : Ty := IntegerTy 64.

(** Does the expression contain a sign extension? *)
Fixpoint usesSExt (v : Value) : bool :=
  match v with
  | SExt _ _ => true
  | PointerCast a | PtrToInt a _ | ZExt a _ | Trunc a _ | BitCast a _
  | ReturnAddress a => usesSExt a
  | Select c t f => usesSExt c || usesSExt t || usesSExt f
  | _ => false
  end.

(** Run-time meaning of an expression as an unsigned bit pattern.  The
    valuation gives the bit pattern of every input value and the addresses the
    linker assigns. *)
Record Valuation : Type := mkValuation {
  localBits : N -> Z;
  functionAddr : N -> Z;
  blockAddr : N -> N -> Z;
  globalAddr : string -> Z;
  returnAddr : Z
}.

Definition typeBits (DL : DataLayout) (t : Ty) : Z :=
  match t with
  | PointerTy a => getPointerSizeInBits DL a
  | IntegerTy b => b
  | FloatingTy k => fpSizeInBits k
  | OtherTy _ => getTypeStoreSizeInBits DL t
  end.

Definition signExtend (from : Z) (x : Z) (to : Z) : Z :=
  if Z.testbit x (from - 1) then (x + (2 ^ to - 2 ^ from)) mod 2 ^ to else x.

Fixpoint evalValue (DL : DataLayout) (st : Valuation) (v : Value) : Z :=
  match v with
  | VLocal _ id => localBits st id
  | ConstInt b x => x mod 2 ^ b
  | ConstFP k x => x mod 2 ^ fpSizeInBits k
  | ConstNull => 0
  | FunctionPtr f => functionAddr st f
  | BlockAddress f b => blockAddr st f b
  | GlobalPtr g => globalAddr st g
  | PointerCast a => evalValue DL st a
  | PtrToInt a b => evalValue DL st a mod 2 ^ b
  | ZExt a _ => evalValue DL st a
  | SExt a b => signExtend (typeBits DL (typeOf a)) (evalValue DL st a) b
  | Trunc a b => evalValue DL st a mod 2 ^ b
  | BitCast a _ => evalValue DL st a
  | Select c t f =>
      if Z.odd (evalValue DL st c) then evalValue DL st t else evalValue DL st f
  | ReturnAddress _ => returnAddr st
  end.

(** ** Call-argument marshalling *)

Inductive CallArgKind : Type :=
| Unknown | Integer | Pointer | Floating.

Global Instance CallArgKind_eq_dec : EqDecision CallArgKind.
Proof. solve_decision. Defined.

(** [static_cast<uint32_t>(Kind)] *)
Definition callArgKindCode (k : CallArgKind) : Z :=
  match k with Unknown => 0 | Integer => 1 | Pointer => 2 | Floating => 3 end.

(** [materializeCallArg]: the out-parameters [Kind] and [BitWidth] are
    returned with the value.  [BitWidth] is a [uint32_t]: the 64-bit store
    size is narrowed when it is assigned to it. *)
Definition materializeCallArg (DL : DataLayout) (Arg : Value)
  : CallArgKind * Z * Value :=
  let Ty := typeOf Arg in
  if isPointerTy Ty then
    let BitWidth := getPointerSizeInBits DL (getPointerAddressSpace Ty) in
    let BitWidth :=
      if BitWidth =? 0 then getPointerSizeInBits DL 0%N else BitWidth in
    let PtrInt := PtrToInt Arg (Z.max BitWidth 1) in
    let PtrInt :=
      if BitWidth <? 64 then ZExt PtrInt 64
      else if 64 <? BitWidth then Trunc PtrInt 64
      else PtrInt in
    (Pointer, BitWidth, PtrInt)
  else if isIntegerTy Ty then
    let BitWidth := getIntegerBitWidth Ty in
    let Val := Arg in
    let Val :=
      if BitWidth <? 64 then ZExt Val 64
      else if 64 <? BitWidth then Trunc Val 64
      else if negb (bool_decide (typeOf Val = IntegerTy 64))
           then BitCast Val Int64Ty
      else Val in
    (Integer, BitWidth, Val)
  else if isFloatingPointTy Ty then
    let BitWidth := getScalarSizeInBits Ty in
    let BitWidth :=
      if BitWidth =? 0 then wrap32 (getTypeStoreSizeInBits DL Ty)
      else BitWidth in
    let IntTy := IntegerTy (Z.max BitWidth 1) in
    let Bits := BitCast Arg IntTy in
    let Bits :=
      if BitWidth <? 64 then ZExt Bits 64
      else if 64 <? BitWidth then Trunc Bits 64
      else if negb (bool_decide (typeOf Bits = IntegerTy 64))
           then BitCast Bits Int64Ty
      else Bits in
    (Floating, BitWidth, Bits)
  else
    let BitWidth := wrap32 (getTypeStoreSizeInBits DL Ty) in
    let BitWidth := if BitWidth =? 0 then 1 else BitWidth in
    (Unknown, BitWidth, ConstInt 64 0).

(** ** Instructions, blocks, loops, functions *)

(** The operand a call goes through.  [CalleeFunction] and
    [CalleeIntrinsic] are direct calls, for which [getCalledFunction]
    returns the named function; a [CalleeIntrinsic] call is an
    [IntrinsicInst]. *)
Inductive Callee : Type :=
| CalleeFunction (name : string)
| CalleeIntrinsic (name : string)
| CalleeInlineAsm (asmText : string) (constraints : string) (sideEffects : bool)
| CalleeIndirect (v : Value).

(** [OpCall] is any [CallBase]; [OpOther] any instruction the pass has no
    case for.  [OpPHI] and [OpEHPad] are told apart from [OpOther] only
    where the first insertion point of a block is computed.  [OpBuilt v]
    is a cast or a select the [IRBuilder] created: the instruction whose
    result is the value [v]. *)
Inductive Opcode : Type :=
| OpPHI
| OpEHPad
| OpLoad (ty : Ty) (ptr : Value)
| OpStore (val : Value) (ptr : Value)
| OpBr (succ0 : N)
| OpCondBr (cond : Value) (succ0 succ1 : N)
| OpCall (callee : Callee) (args : list Value)
| OpOther
| OpBuilt (v : Value).

Inductive InstKind : Type :=
| Generic | Load | Store | Branch | Call.

Global Instance InstKind_eq_dec : EqDecision InstKind.
Proof. solve_decision. Defined.

(** The unnamed values the pass has put into a function so far, each
    tagged with the class and the [inst_id] of the instruction it was
    inserted in front of (which fixes the place in the function). *)
Definition Insertions : Type := list (InstKind * Z).

(** [printed h] is what [Instruction::print] writes for the instruction
    when the function holds, besides what it held on entry, the unnamed
    values [h].  LLVM numbers the unnamed values of a function in order
    ([%0], [%1], ...), so a value inserted in front of an unnamed value
    moves the number that value is printed with; nothing else of the text
    changes.  [printed []] is the text of the instruction in the input. *)
Record Instruction : Type := mkInst {
  opcode : Opcode;
  printed : Insertions -> string
}.

(** An instruction whose text names no unnamed value. *)
Definition fixedText (s : string) : Insertions -> string := fun _ => s.

Record BasicBlock : Type := mkBlock {
  bkey : N;
  bname : string;
  insts : list Instruction
}.

#[warnings="-register-all"]
Inductive Loop : Type :=
| mkLoop (lkey : N) (header : N) (subLoops : list Loop).

Definition loopKey (L : Loop) : N := match L with mkLoop k _ _ => k end.
Definition getHeader (L : Loop) : N := match L with mkLoop _ h _ => h end.
Definition getSubLoops (L : Loop) : list Loop :=
  match L with mkLoop _ _ s => s end.

(** The result of [LoopAnalysis] on a function. *)
Record LoopInfo : Type := mkLoopInfo {
  topLevelLoops : list Loop;
  getLoopFor : N -> option Loop
}.

(** A function without blocks is a declaration; the empty name is no
    name.  Signatures are not tracked. *)
Record Function : Type := mkFunction {
  fkey : N;
  fname : string;
  blocks : list BasicBlock;
  loopInfo : LoopInfo
}.

Definition isDeclaration (F : Function) : bool :=
  match blocks F with [] => true | _ => false end.

Definition hasName (s : string) : bool :=
  match s with EmptyString => false | _ => true end.

Definition runtimePrefix : string := "__bbtrace_".

Definition starts_with (s p : string) : bool := String.prefix p s.

(** ** Static description and PC map entries *)

Record InstructionStaticInfo : Type := mkInstInfo {
  Kind : InstKind;
  InstId : Z;
  BranchTargets : list Z;
  Buffer : string
}.

Record BlockStaticInfo : Type := mkBlockInfo {
  FuncId : Z;
  FuncName : string;
  BbId : Z;
  BbName : string;
  Header : string;
  Instructions : list InstructionStaticInfo
}.

Record BlockPcInfo : Type := mkPcInfo {
  pcFuncId : Z;
  pcBbId : Z;
  Address : Value
}.

(** ** Helpers of the pass *)

Definition isInlineAsmCall (c : Callee) : bool :=
  match c with CalleeInlineAsm _ _ _ => true | _ => false end.

Definition getCalledFunction (c : Callee) : option string :=
  match c with
  | CalleeFunction n | CalleeIntrinsic n => Some n
  | _ => None
  end.

Definition getCalledOperand (c : Callee) : Value :=
  match c with
  | CalleeFunction n | CalleeIntrinsic n => GlobalPtr n
  | CalleeInlineAsm t _ _ => GlobalPtr t
  | CalleeIndirect v => v
  end.

Definition isIntrinsicInst (c : Callee) : bool :=
  match c with CalleeIntrinsic _ => true | _ => false end.

Definition isBbtraceRuntimeCall (c : Callee) : bool :=
  match getCalledFunction c with
  | Some Name => starts_with Name runtimePrefix
  | None => false
  end.

Definition nl : string := String (Ascii.ascii_of_nat 10) EmptyString.
Definition dquote : string := String (Ascii.ascii_of_nat 34) EmptyString.

(** [std::to_string] and [raw_ostream <<] on an unsigned number. *)
Definition to_string (z : Z) : string := pretty z.

(** [printInstruction], called while the function holds the unnamed
    values [h] the pass has inserted so far. *)
Definition printInstruction (h : Insertions) (I : Instruction) : string :=
  "  " +:+ printed I h.

Definition blockDisplayName (BB : BasicBlock) (BbId : Z) : string :=
  if hasName (bname BB) then bname BB else "bb_" +:+ to_string BbId.

Definition makeBlockHeader (BB : BasicBlock) (BbId : Z) : string :=
  blockDisplayName BB BbId +:+ ":".

Definition instKindToString (k : InstKind) : string :=
  match k with
  | Load => "load"
  | Store => "store"
  | Branch => "branch"
  | Call => "call"
  | Generic => "generic"
  end.

(** The assembly text of [emitInstPcRecord]. *)
Definition instPcAsm (FuncId BbId InstId : Z) : string :=
  ".pushsection .bbtrace_inst," +:+ dquote +:+ "a" +:+ dquote
    +:+ ",@progbits" +:+ nl
  +:+ ".long " +:+ to_string FuncId +:+ nl
  +:+ ".long " +:+ to_string BbId +:+ nl
  +:+ ".long " +:+ to_string InstId +:+ nl
  +:+ ".long 0" +:+ nl
  +:+ ".quad 1f" +:+ nl
  +:+ ".popsection" +:+ nl
  +:+ "1:" +:+ nl.

(** [emitInstPcRecord]: the call of the inline assembly the builder
    inserts.  The insert block always belongs to a module here, so the
    early return is never taken. *)
Definition emitInstPcRecord (FuncId BbId InstId : Z) : Instruction :=
  mkInst (OpCall (CalleeInlineAsm (instPcAsm FuncId BbId InstId) "" true) [])
         (fixedText "").

(** A call of a runtime hook, as [Builder.CreateCall(Hook, Args)] makes
    it. *)
Definition hookCall (name : string) (args : list Value) : Instruction :=
  mkInst (OpCall (CalleeFunction name) args) (fixedText "").

Definition BBHook : string := "__bbtrace_on_basic_block".
Definition LoopHook : string := "__bbtrace_on_loop".
Definition MemHook : string := "__bbtrace_on_mem".
Definition BranchHook : string := "__bbtrace_on_branch".
Definition CallHook : string := "__bbtrace_on_call".
Definition ReturnAddrFn : string := "llvm.returnaddress".

(** ** What the IRBuilder inserts

    A [Create...] call of the [IRBuilder] (LLVM's [IRBuilder.h], with the
    default [ConstantFolder]) returns its operand when a cast is to the
    operand's own type, returns a constant when the folder has one for the
    operation, and otherwise creates an unnamed instruction and inserts it
    at the builder's position.  The folder has a constant for [ptrtoint],
    [trunc], [bitcast] and a pointer cast of every constant (a constant
    expression at least), for [zext] of what it reduces to an integer
    literal only, and for a [select] of constants whose condition is an
    integer literal or whose two values are the same. *)

Fixpoint isNullPointer (v : Value) : bool :=
  match v with
  | ConstNull => true
  | PointerCast a => isNullPointer a
  | _ => false
  end.

(** The folder reduces the constant to an integer literal. *)
Fixpoint foldsToLiteral (v : Value) : bool :=
  match v with
  | ConstInt _ _ => true
  | PtrToInt a _ => isNullPointer a
  | BitCast a ty =>
      isIntegerTy ty
      && (match a with ConstFP _ _ => true | _ => false end
          || foldsToLiteral a)
  | Trunc a _ | ZExt a _ | SExt a _ => foldsToLiteral a
  | _ => false
  end.

(** [isa<Constant>] *)
Fixpoint isConstantValue (v : Value) : bool :=
  match v with
  | VLocal _ _ | ReturnAddress _ => false
  | ConstInt _ _ | ConstFP _ _ | ConstNull | FunctionPtr _
  | BlockAddress _ _ | GlobalPtr _ => true
  | PointerCast a | PtrToInt a _ | Trunc a _ | BitCast a _ =>
      isConstantValue a
  | ZExt a _ | SExt a _ => foldsToLiteral a
  | Select c t f =>
      isConstantValue c && isConstantValue t && isConstantValue f
      && (foldsToLiteral c || bool_decide (t = f))
  end.

(** The instruction the builder creates for the value [v]. *)
Definition built (v : Value) : Instruction :=
  mkInst (OpBuilt v) (fixedText "").

(** The instruction [Create...] inserts, if any; the value it returns is
    the expression ([PointerCast V], [PtrToInt V b], ...) in every case. *)
Definition CreatePointerCast_inserts (V : Value) : list Instruction :=
  if bool_decide (typeOf V = PointerTy 0) then []
  else if isConstantValue V then []
  else [built (PointerCast V)].

Definition CreatePtrToInt_inserts (V : Value) (b : Z) : list Instruction :=
  if isConstantValue V then [] else [built (PtrToInt V b)].

Definition CreateZExt_inserts (V : Value) (b : Z) : list Instruction :=
  if bool_decide (typeOf V = IntegerTy b) then []
  else if foldsToLiteral V then []
  else [built (ZExt V b)].

Definition CreateTrunc_inserts (V : Value) (b : Z) : list Instruction :=
  if bool_decide (typeOf V = IntegerTy b) then []
  else if isConstantValue V then []
  else [built (Trunc V b)].

Definition CreateBitCast_inserts (V : Value) (ty : Ty) : list Instruction :=
  if bool_decide (typeOf V = ty) then []
  else if isConstantValue V then []
  else [built (BitCast V ty)].

Definition CreateSelect_inserts (C T F : Value) : list Instruction :=
  if isConstantValue (Select C T F) then [] else [built (Select C T F)].

(** [Builder.CreateCall(ReturnAddrFn, {constI32(Ctx, 0)})]: a call of the
    intrinsic, whose result is [ReturnAddress (constI32 0)]. *)
Definition returnAddressCall : Instruction :=
  mkInst (OpCall (CalleeIntrinsic ReturnAddrFn) [constI32 0]) (fixedText "").

(** The instructions the builder inserts while [materializeCallArg] runs,
    in order: the same tests, with the builder calls of each branch. *)
Definition materializeCallArg_inserts (DL : DataLayout) (Arg : Value)
  : list Instruction :=
  let Ty := typeOf Arg in
  if isPointerTy Ty then
    let BitWidth := getPointerSizeInBits DL (getPointerAddressSpace Ty) in
    let BitWidth :=
      if BitWidth =? 0 then getPointerSizeInBits DL 0%N else BitWidth in
    let PtrInt := PtrToInt Arg (Z.max BitWidth 1) in
    CreatePtrToInt_inserts Arg (Z.max BitWidth 1)
    ++ (if BitWidth <? 64 then CreateZExt_inserts PtrInt 64
        else if 64 <? BitWidth then CreateTrunc_inserts PtrInt 64
        else [])
  else if isIntegerTy Ty then
    let BitWidth := getIntegerBitWidth Ty in
    if BitWidth <? 64 then CreateZExt_inserts Arg 64
    else if 64 <? BitWidth then CreateTrunc_inserts Arg 64
    else if negb (bool_decide (typeOf Arg = IntegerTy 64))
         then CreateBitCast_inserts Arg Int64Ty
    else []
  else if isFloatingPointTy Ty then
    let BitWidth := getScalarSizeInBits Ty in
    let BitWidth :=
      if BitWidth =? 0 then wrap32 (getTypeStoreSizeInBits DL Ty)
      else BitWidth in
    let IntTy := IntegerTy (Z.max BitWidth 1) in
    let Bits := BitCast Arg IntTy in
    CreateBitCast_inserts Arg IntTy
    ++ (if BitWidth <? 64 then CreateZExt_inserts Bits 64
        else if 64 <? BitWidth then CreateTrunc_inserts Bits 64
        else if negb (bool_decide (typeOf Bits = IntegerTy 64))
             then CreateBitCast_inserts Bits Int64Ty
        else [])
  else [].

(** ** Per-function tables *)

Definition lookupId (m : gmap N Z) (k : N) : Z := default 0 (m !! k).

(** [for (BasicBlock &BB : F) BlockIds[&BB] = NextBlockId++;] *)
Fixpoint assignBlockIds (bbs : list BasicBlock) (NextBlockId : Z)
    (BlockIds : gmap N Z) : gmap N Z :=
  match bbs with
  | [] => BlockIds
  | BB :: rest =>
      assignBlockIds rest (wrap32 (NextBlockId + 1))
        (<[bkey BB := NextBlockId]> BlockIds)
  end.

Fixpoint loopCount (L : Loop) : nat :=
  match L with
  | mkLoop _ _ subs => S (list_sum (map loopCount subs))
  end.

(** The [while (!LoopQueue.empty())] loop; the queue's back is the end of
    the list.  [fuel] bounds the iterations. *)
Fixpoint numberLoops (fuel : nat) (LoopQueue : list Loop) (NextLoopId : Z)
    (LoopIds : gmap N Z) : gmap N Z :=
  match fuel with
  | O => LoopIds
  | S fuel' =>
      match last LoopQueue with
      | None => LoopIds
      | Some L =>
          numberLoops fuel' (removelast LoopQueue ++ getSubLoops L)
            (wrap32 (NextLoopId + 1)) (<[loopKey L := NextLoopId]> LoopIds)
      end
  end.

Definition assignLoopIds (LI : LoopInfo) : gmap N Z :=
  numberLoops (S (list_sum (map loopCount (topLevelLoops LI))))
    (topLevelLoops LI) 0 ∅.

(** ** Instrumenting one function *)

(** What the instruction loop carries from one instruction to the next:
    the three counters, and the unnamed values inserted into the function
    so far, which is the part of the function's state the instruction
    printer depends on. *)
Record IdCounters : Type := mkCounters {
  NextMemInstId : Z;
  NextBranchInstId : Z;
  NextCallInstId : Z;
  Inserted : Insertions
}.

(** The entries of [Inserted] for the instructions [l] the builder made in
    front of the instruction of class [k] and id [id]. *)
Definition tagged (k : InstKind) (id : Z) (l : list Instruction)
  : Insertions :=
  map (fun _ => (k, id)) l.

Definition isPHI (I : Instruction) : bool :=
  match opcode I with OpPHI => true | _ => false end.
Definition isEHPad (I : Instruction) : bool :=
  match opcode I with OpEHPad => true | _ => false end.

Fixpoint firstNonPHI (l : list Instruction) : nat :=
  match l with
  | Ins :: rest => if isPHI Ins then S (firstNonPHI rest) else O
  | [] => O
  end.

(** [BasicBlock::getFirstInsertionPt], as an index into the block. *)
Definition getFirstInsertionPt (l : list Instruction) : nat :=
  let n := firstNonPHI l in
  match l !! n with
  | Some Ins => if isEHPad Ins then S n else n
  | None => n
  end.

(** Insertion before the instruction at index [n]. *)
Definition insertBefore (n : nat) (I : Instruction) (l : list Instruction)
  : list Instruction :=
  take n l ++ I :: drop n l.

(** The operands after the six fixed ones of the call hook: a triple per
    argument of the call. *)
Fixpoint marshalArgs (DL : DataLayout) (args : list Value) : list Value :=
  match args with
  | [] => []
  | Arg :: rest =>
      let '(Kind, BitWidth, Materialized) := materializeCallArg DL Arg in
      constI32 (callArgKindCode Kind) :: constI32 BitWidth :: Materialized
        :: marshalArgs DL rest
  end.

(** What the builder inserts while the arguments are marshalled. *)
Definition marshalArgs_inserts (DL : DataLayout) (args : list Value)
  : list Instruction :=
  concat (map (materializeCallArg_inserts DL) args).

Section PerFunction.

Variable EnableInstrumentation : bool.
Variable DL : DataLayout.
Variable F : Function.
Variable FuncId : Z.
Variable BlockIds : gmap N Z.
Variable LoopIds : gmap N Z.

(** One turn of [for (Instruction &I : BB)]: the state after it, the
    instructions inserted in front of [I] in the order the builders insert
    them, and the entry pushed to [Info.Instructions] ([None] where the
    turn ends in [continue]).  The text of the entry is printed first,
    while the function holds what was inserted for the instructions
    before [I]. *)
Definition visitInstruction (BbId : Z) (st : IdCounters) (I : Instruction)
  : IdCounters * list Instruction * option InstructionStaticInfo :=
  let runtime :=
    match opcode I with
    | OpCall callee _ => isBbtraceRuntimeCall callee
    | _ => false
    end in
  if runtime then (st, [], None)
  else
    let Buffer := printInstruction (Inserted st) I in
    match opcode I with
    | OpLoad ty ptr =>
        let InstId := NextMemInstId st in
        let label := [emitInstPcRecord FuncId BbId InstId] in
        let made :=
          if EnableInstrumentation then CreatePointerCast_inserts ptr
          else [] in
        let hook :=
          if EnableInstrumentation then
            [hookCall MemHook
               [constI32 FuncId; constI32 BbId; constI32 InstId;
                PointerCast ptr; constI64 (getTypeStoreSize DL ty);
                ConstInt 1 0]]
          else [] in
        let st' := mkCounters (wrap32 (InstId + 1)) (NextBranchInstId st)
                              (NextCallInstId st)
                              (Inserted st ++ tagged Load InstId made) in
        (st', label ++ made ++ hook, Some (mkInstInfo Load InstId [] Buffer))
    | OpStore val ptr =>
        let InstId := NextMemInstId st in
        let label := [emitInstPcRecord FuncId BbId InstId] in
        let made :=
          if EnableInstrumentation then CreatePointerCast_inserts ptr
          else [] in
        let hook :=
          if EnableInstrumentation then
            [hookCall MemHook
               [constI32 FuncId; constI32 BbId; constI32 InstId;
                PointerCast ptr;
                constI64 (getTypeStoreSize DL (typeOf val));
                ConstInt 1 1]]
          else [] in
        let st' := mkCounters (wrap32 (InstId + 1)) (NextBranchInstId st)
                              (NextCallInstId st)
                              (Inserted st ++ tagged Store InstId made) in
        (st', label ++ made ++ hook, Some (mkInstInfo Store InstId [] Buffer))
    | OpBr Succ0 =>
        let InstId := NextBranchInstId st in
        let st' := mkCounters (NextMemInstId st) (wrap32 (InstId + 1))
                              (NextCallInstId st) (Inserted st) in
        let TargetId := lookupId BlockIds Succ0 in
        let hook :=
          if EnableInstrumentation then
            let Succ0Addr := PointerCast (BlockAddress (fkey F) Succ0) in
            [hookCall BranchHook
               [constI32 FuncId; constI32 BbId; constI32 InstId;
                constI32 TargetId; Succ0Addr]]
          else [] in
        (st', hook, Some (mkInstInfo Branch InstId [TargetId] Buffer))
    | OpCondBr Cond Succ0 Succ1 =>
        let InstId := NextBranchInstId st in
        let Succ0Addr := PointerCast (BlockAddress (fkey F) Succ0) in
        let TrueId := constI32 (lookupId BlockIds Succ0) in
        let FalseId := constI32 (lookupId BlockIds Succ1) in
        let Taken := Select Cond TrueId FalseId in
        let Succ1Addr := PointerCast (BlockAddress (fkey F) Succ1) in
        let TakenAddr := Select Cond Succ0Addr Succ1Addr in
        let made :=
          if EnableInstrumentation then
            CreateSelect_inserts Cond TrueId FalseId
            ++ CreateSelect_inserts Cond Succ0Addr Succ1Addr
          else [] in
        let hook :=
          if EnableInstrumentation then
            [hookCall BranchHook
               [constI32 FuncId; constI32 BbId; constI32 InstId;
                Taken; TakenAddr]]
          else [] in
        let st' := mkCounters (NextMemInstId st) (wrap32 (InstId + 1))
                              (NextCallInstId st)
                              (Inserted st ++ tagged Branch InstId made) in
        (st', made ++ hook,
         Some (mkInstInfo Branch InstId
                 [lookupId BlockIds Succ0; lookupId BlockIds Succ1] Buffer))
    | OpCall callee args =>
        if negb (isIntrinsicInst callee) && negb (isInlineAsmCall callee)
           && negb (isBbtraceRuntimeCall callee)
        then
          let InstId := NextCallInstId st in
          let CalledOperand := getCalledOperand callee in
          let TargetAddr :=
            if isPointerTy (typeOf CalledOperand)
            then PointerCast CalledOperand else ConstNull in
          let CallSiteAddr := PointerCast (ReturnAddress (constI32 0)) in
          let made :=
            if EnableInstrumentation then
              (if isPointerTy (typeOf CalledOperand)
               then CreatePointerCast_inserts CalledOperand else [])
              ++ [returnAddressCall]
              ++ CreatePointerCast_inserts (ReturnAddress (constI32 0))
              ++ marshalArgs_inserts DL args
            else [] in
          let hook :=
            if EnableInstrumentation then
              [hookCall CallHook
                 ([constI32 FuncId; constI32 BbId; constI32 InstId;
                   CallSiteAddr; TargetAddr;
                   constI32 (wrap32 (Z.of_nat (length args)))]
                  ++ marshalArgs DL args)]
            else [] in
          let st' := mkCounters (NextMemInstId st) (NextBranchInstId st)
                                (wrap32 (InstId + 1))
                                (Inserted st ++ tagged Call InstId made) in
          (st', made ++ hook, Some (mkInstInfo Call InstId [] Buffer))
        else (st, [], Some (mkInstInfo Generic 0 [] Buffer))
    | _ => (st, [], Some (mkInstInfo Generic 0 [] Buffer))
    end.

(** The whole [for (Instruction &I : BB)] loop.  Every insertion is in
    front of the instruction being visited, so the walk sees exactly the
    instructions the block held when the loop started. *)
Fixpoint visitInstructions (BbId : Z) (st : IdCounters)
    (l : list Instruction)
  : IdCounters * list Instruction * list InstructionStaticInfo :=
  match l with
  | [] => (st, [], [])
  | Ins :: rest =>
      let '(st1, inserted, info) := visitInstruction BbId st Ins in
      let '(st2, out, infos) := visitInstructions BbId st1 rest in
      (st2, inserted ++ Ins :: out, option_list info ++ infos)
  end.

Definition isEntryBlock (BB : BasicBlock) : bool :=
  match blocks F with
  | E :: _ => bool_decide (bkey BB = bkey E)
  | [] => false
  end.

(** The block-entry hooks, inserted before the instruction walk.  Each
    builder is created at [&*BB.getFirstInsertionPt()].  For a block with
    no instruction at its first insertion point (PHI nodes and a pad
    alone, as a block that holds only a [catchswitch]) that iterator is
    [end()] and the source dereferences it, which has no defined result;
    here the hook then goes to the end of the block, and what is proved
    about the place or the number of the entry hooks is stated for blocks
    that have an instruction at their first insertion point. *)
Definition insertEntryHooks (BB : BasicBlock) (BbId : Z) (AddrConst : Value)
  : list Instruction :=
  let l := insts BB in
  if EnableInstrumentation then
    let Containing := getLoopFor (loopInfo F) (bkey BB) in
    let LoopHint :=
      match Containing with
      | Some L => lookupId LoopIds (loopKey L)
      | None => kInvalidLoopId
      end in
    let l1 :=
      insertBefore (getFirstInsertionPt l)
        (hookCall BBHook
           [constI32 FuncId; constI32 BbId; constI32 LoopHint;
            PointerCast AddrConst]) l in
    match Containing with
    | Some L =>
        if bool_decide (getHeader L = bkey BB) then
          insertBefore (getFirstInsertionPt l1)
            (hookCall LoopHook
               [constI32 FuncId; constI32 (lookupId LoopIds (loopKey L))])
            l1
        else l1
    | None => l1
    end
  else l.

(** One turn of the second [for (BasicBlock &BB : F)] loop. *)
Definition instrumentBlock (st : IdCounters) (BB : BasicBlock)
  : IdCounters * BasicBlock * BlockStaticInfo * BlockPcInfo :=
  let BbId := lookupId BlockIds (bkey BB) in
  let AddrConst :=
    if isEntryBlock BB then PointerCast (FunctionPtr (fkey F))
    else BlockAddress (fkey F) (bkey BB) in
  let pc := mkPcInfo FuncId BbId AddrConst in
  let l0 := insertEntryHooks BB BbId AddrConst in
  let '(st', out, infos) := visitInstructions BbId st l0 in
  let Info :=
    mkBlockInfo FuncId
      (if hasName (fname F) then fname F else "func_" +:+ to_string FuncId)
      BbId (blockDisplayName BB BbId) (makeBlockHeader BB BbId) infos in
  (st', mkBlock (bkey BB) (bname BB) out, Info, pc).

Fixpoint instrumentBlocks (st : IdCounters) (bbs : list BasicBlock)
  : list BasicBlock * list BlockStaticInfo * list BlockPcInfo :=
  match bbs with
  | [] => ([], [], [])
  | BB :: rest =>
      let '(st1, BB', Info, pc) := instrumentBlock st BB in
      let '(bbs', Infos, pcs) := instrumentBlocks st1 rest in
      (BB' :: bbs', Info :: Infos, pc :: pcs)
  end.

End PerFunction.

(** [instrumentFunction]: the rewritten function and what it appends to
    [StaticInfos] and [PcInfos]. *)
Definition instrumentFunction (EnableInstrumentation : bool)
    (DL : DataLayout) (F : Function) (FuncId : Z)
  : Function * list BlockStaticInfo * list BlockPcInfo :=
  let LoopIds :=
    if EnableInstrumentation then assignLoopIds (loopInfo F) else ∅ in
  let BlockIds := assignBlockIds (blocks F) 0 ∅ in
  let '(bbs', Infos, pcs) :=
    instrumentBlocks EnableInstrumentation DL F FuncId BlockIds LoopIds
      (mkCounters 0 0 0 []) (blocks F) in
  (mkFunction (fkey F) (fname F) bbs' (loopInfo F), Infos, pcs).

(** ** Modules and the pass's surroundings *)

Inductive Initializer : Type :=
| InitString (s : string) (addNull : bool)
| InitArray (entries : list (Value * Value * Value)).

Record GlobalVariable : Type := mkGlobal {
  gname : string;
  isConstant : bool;
  privateLinkage : bool;
  unnamedAddr : bool;
  initializer : Initializer;
  gsection : string;
  alignment : Z
}.

(** [llvmUsed] and [llvmCompilerUsed] are the two lists LLVM keeps
    ([appendToUsed] and [appendToCompilerUsed] extend them); the
    constructor and destructor lists hold function keys with their
    priorities.  Linkage and attributes of functions are not tracked. *)
Record IRModule : Type := mkModule {
  getModuleIdentifier : string;
  getDataLayout : DataLayout;
  functions : list Function;
  globals : list GlobalVariable;
  globalCtors : list (N * Z);
  globalDtors : list (N * Z);
  llvmUsed : list string;
  llvmCompilerUsed : list string
}.

Definition withFunctions (M : IRModule) (fs : list Function) : IRModule :=
  mkModule (getModuleIdentifier M) (getDataLayout M) fs (globals M)
    (globalCtors M) (globalDtors M) (llvmUsed M) (llvmCompilerUsed M).

Definition addGlobal (M : IRModule) (g : GlobalVariable) : IRModule :=
  mkModule (getModuleIdentifier M) (getDataLayout M) (functions M)
    (globals M ++ [g]) (globalCtors M) (globalDtors M) (llvmUsed M)
    (llvmCompilerUsed M).

Definition appendToGlobalCtors (M : IRModule) (f : N) (prio : Z) : IRModule :=
  mkModule (getModuleIdentifier M) (getDataLayout M) (functions M)
    (globals M) (globalCtors M ++ [(f, prio)]) (globalDtors M) (llvmUsed M)
    (llvmCompilerUsed M).

Definition appendToGlobalDtors (M : IRModule) (f : N) (prio : Z) : IRModule :=
  mkModule (getModuleIdentifier M) (getDataLayout M) (functions M)
    (globals M) (globalCtors M) (globalDtors M ++ [(f, prio)]) (llvmUsed M)
    (llvmCompilerUsed M).

Definition appendToCompilerUsed (M : IRModule) (g : string) : IRModule :=
  mkModule (getModuleIdentifier M) (getDataLayout M) (functions M)
    (globals M) (globalCtors M) (globalDtors M) (llvmUsed M)
    (llvmCompilerUsed M ++ [g]).

#[warnings="-register-all"]
Inductive json : Type :=
| JInt (z : Z)
| JString (s : string)
| JArray (l : list json)
| JObject (fields : list (string * json)).

Inductive FileEffect : Type :=
| CreateDirectories (dir : string)
| WriteFile (path : string) (content : string).

(** What the pass asks of the process and of the libraries: the
    environment variables, whether a file opens for writing, the
    decomposition of a [std::filesystem::path], and the text
    [llvm::json] writes for a value. *)
Record Env : Type := mkEnv {
  getenv : string -> option string;
  opens : string -> bool;
  has_parent_path : string -> bool;
  parent_path : string -> string;
  has_filename : string -> bool;
  filename : string -> string;
  path_append : string -> string -> string;
  jsonText : json -> string
}.

Definition isStaticOnlyMode (env : Env) : bool :=
  match getenv env "BBTRACE_STATIC_ONLY" with
  | Some (String c _) =>
      (c =? "1")%char || (c =? "T")%char || (c =? "t")%char
      || (c =? "Y")%char || (c =? "y")%char
  | _ => false
  end.

Definition noLoops : LoopInfo := mkLoopInfo [] (fun _ => None).

Definition freshFunctionKey (fs : list Function) : N :=
  N.succ (foldr N.max 0%N (map fkey fs)).

(** [declareHook]: [Module::getOrInsertFunction] appends a declaration
    unless a function of that name is already there. *)
Definition declareHook (M : IRModule) (Name : string) : IRModule :=
  if bool_decide (Name ∈ map fname (functions M)) then M
  else
    withFunctions M
      (functions M
       ++ [mkFunction (freshFunctionKey (functions M)) Name [] noLoops]).

Definition moduleNameGlobal : string := "__bbtrace_module_name".

Definition getModuleNameGlobal (M : IRModule) : IRModule * Value :=
  (addGlobal M
     (mkGlobal moduleNameGlobal true true true
        (InitString (getModuleIdentifier M) true) "" 1),
   GlobalPtr moduleNameGlobal).

Definition retVoid : Instruction := mkInst OpOther (fixedText "").

(** [Function::Create] with a body of one block named [entry]. *)
Definition createFunction (M : IRModule) (Name : string)
    (body : list Instruction) : IRModule * N :=
  let k := freshFunctionKey (functions M) in
  (withFunctions M
     (functions M ++ [mkFunction k Name [mkBlock 0%N "entry" body] noLoops]),
   k).

Definition RegisterFn : string := "__bbtrace_register_module".
Definition FinalizeFn : string := "__bbtrace_finalize".

Definition ctorBody (NameGlobal : Value) : list Instruction :=
  [hookCall RegisterFn [PointerCast NameGlobal]; retVoid].
Definition dtorBody : list Instruction := [hookCall FinalizeFn []; retVoid].

Definition ensureCtorDtor (M : IRModule) : IRModule :=
  let M := declareHook M RegisterFn in
  let M := declareHook M FinalizeFn in
  let '(M, NameGlobal) := getModuleNameGlobal M in
  let '(M, Ctor) :=
    createFunction M "__bbtrace_ctor" (ctorBody NameGlobal) in
  let '(M, Dtor) := createFunction M "__bbtrace_dtor" dtorBody in
  let M := appendToGlobalCtors M Ctor 0 in
  appendToGlobalDtors M Dtor 0.

(** The declarations [instrumentFunction] asks for when instrumentation
    is enabled, in the order it asks. *)
Definition hookDeclarations : list string :=
  [BBHook; LoopHook; MemHook; BranchHook; CallHook; ReturnAddrFn].

Definition isEligible (F : Function) : bool :=
  negb (isDeclaration F) && negb (starts_with (fname F) runtimePrefix).

(** The [for (Function &F : M)] loop of [instrumentModule].  The last
    component tells whether [instrumentFunction] ran at all.  The
    declarations [instrumentFunction] appends to the module while the loop
    runs have no body, so the loop passes over them. *)
Fixpoint instrumentFunctions (EnableInstrumentation : bool) (DL : DataLayout)
    (fs : list Function) (FuncId : Z)
  : list Function * list BlockStaticInfo * list BlockPcInfo * bool :=
  match fs with
  | [] => ([], [], [], false)
  | F :: rest =>
      if isDeclaration F then
        let '(fs', Infos, pcs, ran) :=
          instrumentFunctions EnableInstrumentation DL rest FuncId in
        (F :: fs', Infos, pcs, ran)
      else if starts_with (fname F) runtimePrefix then
        let '(fs', Infos, pcs, ran) :=
          instrumentFunctions EnableInstrumentation DL rest FuncId in
        (F :: fs', Infos, pcs, ran)
      else
        let '(F', Infos1, pcs1) :=
          instrumentFunction EnableInstrumentation DL F FuncId in
        let '(fs', Infos2, pcs2, _) :=
          instrumentFunctions EnableInstrumentation DL rest
            (wrap32 (FuncId + 1)) in
        (F' :: fs', Infos1 ++ Infos2, pcs1 ++ pcs2, true)
  end.

Definition instObj (Inst : InstructionStaticInfo) : json :=
  JObject
    ([("text", JString (Buffer Inst));
      ("kind", JString (instKindToString (Kind Inst)))]
     ++ (if bool_decide (Kind Inst = Generic) then []
         else [("inst_id", JInt (InstId Inst))])
     ++ (match BranchTargets Inst with
         | [] => []
         | ts => [("targets", JArray (map JInt ts))]
         end)).

Definition blockObj (Entry : BlockStaticInfo) : json :=
  JObject
    [("func_id", JInt (FuncId Entry));
     ("func_name", JString (FuncName Entry));
     ("bb_id", JInt (BbId Entry));
     ("bb_name", JString (BbName Entry));
     ("header", JString (Header Entry));
     ("insts", JArray (map instObj (Instructions Entry)))].

(** The bytes written to the descriptor file: a line per record. *)
Fixpoint descriptorText (env : Env) (Infos : list BlockStaticInfo) : string :=
  match Infos with
  | [] => ""
  | Entry :: rest =>
      jsonText env (blockObj Entry) +:+ nl +:+ descriptorText env rest
  end.

Definition descriptorPath (env : Env) (M : IRModule) : string * string :=
  let ModulePath := getModuleIdentifier M in
  let Parent :=
    if has_parent_path env ModulePath then parent_path env ModulePath
    else "." in
  let OutDir := path_append env Parent "bbtrace_static" in
  let BaseName :=
    if has_filename env ModulePath then filename env ModulePath
    else "module" in
  (OutDir, path_append env OutDir (BaseName +:+ ".bbinfo.jsonl")).

(** [dumpBasicBlockInfo], as the effects it has on the file system. *)
Definition dumpBasicBlockInfo (env : Env) (M : IRModule)
    (Infos : list BlockStaticInfo) : list FileEffect :=
  match Infos with
  | [] => []
  | _ =>
      let '(OutDir, OutFile) := descriptorPath env M in
      if opens env OutFile then
        [CreateDirectories OutDir; WriteFile OutFile (descriptorText env Infos)]
      else [CreateDirectories OutDir]
  end.

Definition pcMapGlobal : string := "__bbtrace_pcmap".

Definition pcMapEntry (DL : DataLayout) (Entry : BlockPcInfo)
  : Value * Value * Value :=
  (constI32 (pcFuncId Entry), constI32 (pcBbId Entry),
   PtrToInt (Address Entry) (getPointerSizeInBits DL 0%N)).

Definition emitPcMap (M : IRModule) (Infos : list BlockPcInfo) : IRModule :=
  match Infos with
  | [] => M
  | _ =>
      let DL := getDataLayout M in
      let Init := InitArray (map (pcMapEntry DL) Infos) in
      let M :=
        addGlobal M
          (mkGlobal pcMapGlobal true true false Init ".bbtrace_map"
             (getPointerSize DL)) in
      appendToCompilerUsed M pcMapGlobal
  end.

Record PassResult : Type := mkResult {
  outModule : IRModule;
  fileEffects : list FileEffect;
  StaticInfos : list BlockStaticInfo;
  PcInfos : list BlockPcInfo;
  modified : bool
}.

Definition instrumentModule (env : Env) (M : IRModule) : PassResult :=
  let EnableInstrumentation := negb (isStaticOnlyMode env) in
  let M1 := if EnableInstrumentation then ensureCtorDtor M else M in
  let '(fs, Infos, pcs, ran) :=
    instrumentFunctions EnableInstrumentation (getDataLayout M1)
      (functions M1) 0 in
  let M2 := withFunctions M1 fs in
  let M3 :=
    if EnableInstrumentation && ran
    then foldl declareHook M2 hookDeclarations else M2 in
  let effects := dumpBasicBlockInfo env M3 Infos in
  let M4 := emitPcMap M3 pcs in
  mkResult M4 effects Infos pcs true.

(** [PreservedAnalyses::none()] stands for [true], [all()] for [false]:
    [instrumentModule] always returns [true]. *)
Definition run (env : Env) (M : IRModule) : PassResult :=
  instrumentModule env M.

(** ** Observations on modules *)

Definition countb {A : Type} (P : A -> bool) (l : list A) : nat :=
  length (List.filter P l).

Definition functionInsts (F : Function) : list Instruction :=
  concat (map insts (blocks F)).

Definition moduleInsts (M : IRModule) : list Instruction :=
  concat (map functionInsts (functions M)).

(** The instructions of the eligible functions, in traversal order. *)
Definition eligibleInsts (M : IRModule) : list Instruction :=
  concat (map functionInsts (List.filter isEligible (functions M))).

(** A call of inline assembly that pushes a record to [.bbtrace_inst]. *)
Definition isInstPcRecord (I : Instruction) : bool :=
  match opcode I with
  | OpCall (CalleeInlineAsm t _ _) _ =>
      starts_with t ".pushsection .bbtrace_inst,"
  | _ => false
  end.

(** A call of a function whose name has the runtime prefix. *)
Definition isRuntimeCallInst (I : Instruction) : bool :=
  match opcode I with
  | OpCall callee _ => isBbtraceRuntimeCall callee
  | _ => false
  end.

Definition notRuntime (I : Instruction) : bool := negb (isRuntimeCallInst I).

Definition isLoadInst (I : Instruction) : bool :=
  match opcode I with OpLoad _ _ => true | _ => false end.
Definition isStoreInst (I : Instruction) : bool :=
  match opcode I with OpStore _ _ => true | _ => false end.
Definition isMemInst (I : Instruction) : bool :=
  isLoadInst I || isStoreInst I.
Definition isBranchInst (I : Instruction) : bool :=
  match opcode I with OpBr _ | OpCondBr _ _ _ => true | _ => false end.

(** A call that is given a call [inst_id]: not an intrinsic, not inline
    assembly, not a runtime call. *)
Definition isInstrumentedCall (I : Instruction) : bool :=
  match opcode I with
  | OpCall callee _ =>
      negb (isIntrinsicInst callee) && negb (isInlineAsmCall callee)
      && negb (isBbtraceRuntimeCall callee)
  | _ => false
  end.

Definition isMemKind (k : InstKind) : bool :=
  match k with Load | Store => true | _ => false end.
Definition isBranchKind (k : InstKind) : bool :=
  match k with Branch => true | _ => false end.
Definition isCallKind (k : InstKind) : bool :=
  match k with Call => true | _ => false end.

(** The [inst_id]s of the entries of one class, in order. *)
Definition infoIds (P : InstKind -> bool) (infos : list InstructionStaticInfo)
  : list Z :=
  map InstId (List.filter (fun i => P (Kind i)) infos).

(** The [inst_id]s the descriptor records list for one class, in record
    and instruction order. *)
Definition idsOfKind (P : InstKind -> bool) (Infos : list BlockStaticInfo)
  : list Z :=
  infoIds P (concat (map Instructions Infos)).

(** The texts of the instructions of the eligible functions that are not
    runtime calls, printed as the module stands on entry. *)
Definition originalTexts (M : IRModule) : list string :=
  map (printInstruction [])
    (List.filter notRuntime (eligibleInsts M)).

(** The three counters of the instruction loop. *)
Definition counters (st : IdCounters) : Z * Z * Z :=
  (NextMemInstId st, NextBranchInstId st, NextCallInstId st).

(** A descriptor entry without its text, and a record without the texts
    of its entries. *)
Definition entrySkeleton (e : InstructionStaticInfo)
  : InstKind * Z * list Z :=
  (Kind e, InstId e, BranchTargets e).

Definition recordSkeleton (Info : BlockStaticInfo)
  : Z * string * Z * string * string * list (InstKind * Z * list Z) :=
  (FuncId Info, FuncName Info, BbId Info, BbName Info, Header Info,
   map entrySkeleton (Instructions Info)).


(** The text of the instruction names no unnamed value: it is the same
    whatever has been inserted. *)
Definition textIgnoresInsertions (I : Instruction) : Prop :=
  forall h, printed I h = printed I [].

(** An instruction the builder made for a hook: a cast, a select or the
    call of [llvm.returnaddress]. *)
Definition isBuilderMade (I : Instruction) : bool :=
  match opcode I with
  | OpBuilt _ => true
  | OpCall (CalleeIntrinsic n) _ => bool_decide (n = ReturnAddrFn)
  | _ => false
  end.

Definition listedTexts (Infos : list BlockStaticInfo) : list string :=
  map Buffer (concat (map Instructions Infos)).

Definition findGlobal (M : IRModule) (n : string) : option GlobalVariable :=
  List.find (fun g => bool_decide (gname g = n)) (globals M).

Definition findFunction (M : IRModule) (k : N) : option Function :=
  List.find (fun F => bool_decide (fkey F = k)) (functions M).


(** ** Sample inputs *)

Module Samples.

Definition DL64 : DataLayout :=
  mkDataLayout (fun _ => 64)
    (fun t => match t with
              | OtherTy n => 8 * Z.of_N n
              | PointerTy _ => 64
              | IntegerTy b => 8 * ((b + 7) / 8)
              | FloatingTy k => 8 * ((fpSizeInBits k + 7) / 8)
              end)
    (fun t => match t with
              | OtherTy n => Z.of_N n
              | PointerTy _ => 8
              | IntegerTy b => (b + 7) / 8
              | FloatingTy k => (fpSizeInBits k + 7) / 8
              end)
    8.

Definition posixEnv (staticOnly : option string) : Env :=
  mkEnv
    (fun name =>
       if bool_decide (name = "BBTRACE_STATIC_ONLY") then staticOnly
       else None)
    (fun _ => true) (fun _ => true) (fun _ => "build") (fun _ => true)
    (fun _ => "a.bc") (fun a b => a +:+ "/" +:+ b) (fun _ => "{}").

Definition envInstrumented : Env := posixEnv None.
Definition envStaticOnly : Env := posixEnv (Some "1").

Definition ptr (n : N) : Value := VLocal (PointerTy 0) n.
Definition i32 (n : N) : Value := VLocal (IntegerTy 32) n.

Definition load (n : N) : Instruction :=
  mkInst (OpLoad (IntegerTy 32) (ptr n)) (fixedText "%v = load i32, ptr %p").
Definition store (n : N) : Instruction :=
  mkInst (OpStore (i32 n) (ptr n)) (fixedText "store i32 %v, ptr %p").
Definition ret : Instruction := mkInst OpOther (fixedText "ret void").
Definition callTo (name : string) (args : list Value) : Instruction :=
  mkInst (OpCall (CalleeFunction name) args)
         (fixedText ("call void @" +:+ name +:+ "()")).

Definition emptyModule (fs : list Function) : IRModule :=
  mkModule "build/a.bc" DL64 fs [] [] [] [] [].

(** One function [f], one block: two loads, a store, a return. *)
Definition fStraight : Function :=
  mkFunction 1 "f" [mkBlock 10 "entry" [load 1; load 2; store 3; ret]]
    noLoops.
Definition straightLine : IRModule := emptyModule [fStraight].

(** One function [g]: [B0] branches on a condition to [B1] and [B2],
    [B1] jumps to [B2]. *)
Definition condBr : Instruction :=
  mkInst (OpCondBr (VLocal (IntegerTy 1) 7) 21 22)
         (fixedText "br i1 %c, label %B1, label %B2").
Definition gBranch : Function :=
  mkFunction 2 "g"
    [mkBlock 20 "B0" [condBr];
     mkBlock 21 "B1" [mkInst (OpBr 22) (fixedText "br label %B2")];
     mkBlock 22 "B2" [ret]]
    noLoops.
Definition branching : IRModule := emptyModule [gBranch].

(** One function whose block calls [h] and returns. *)
Definition fCall : Function :=
  mkFunction 3 "caller" [mkBlock 30 "entry" [callTo "h" []; ret]] noLoops.
Definition calling : IRModule := emptyModule [fCall].

(** One function whose block calls [__bbtrace_helper] and returns. *)
Definition fRuntimeCall : Function :=
  mkFunction 4 "user"
    [mkBlock 40 "entry" [callTo "__bbtrace_helper" []; ret]] noLoops.
Definition callingRuntime : IRModule := emptyModule [fRuntimeCall].

(** A declaration and a function with the runtime prefix: nothing is
    eligible. *)
Definition nothingEligible : IRModule :=
  emptyModule
    [mkFunction 5 "puts" [] noLoops;
     mkFunction 6 "__bbtrace_on_mem" [mkBlock 60 "entry" [load 1; ret]]
       noLoops].

(** Two arguments of aggregate types of [2^29] and [2^29 + 1] bytes
    ([[536870912 x i8]] and [[536870913 x i8]], say), passed by value:
    their store sizes are [2^32] and [2^32 + 8] bits. *)
Definition hugeArg : Value := VLocal (OtherTy 536870912) 0.
Definition hugeArg' : Value := VLocal (OtherTy 536870913) 1.

Definition valuation : Valuation :=
  mkValuation (fun _ => 42) (fun _ => 4096) (fun _ b => 8192 + Z.of_N b)
    (fun _ => 1024) 4100.

End Samples.

(** The constructor and the destructor [ensureCtorDtor] creates. *)
Definition ctorFunction (k : N) : Function :=
  mkFunction k "__bbtrace_ctor"
    [mkBlock 0%N "entry" (ctorBody (GlobalPtr moduleNameGlobal))] noLoops.
Definition dtorFunction (k : N) : Function :=
  mkFunction k "__bbtrace_dtor" [mkBlock 0%N "entry" dtorBody] noLoops.

(** The eligible functions with the [func_id]s the function loop hands
    them, counting from [FuncId]. *)
Fixpoint eligibleWithIds (fs : list Function) (FuncId : Z)
  : list (Function * Z) :=
  match fs with
  | [] => []
  | F :: rest =>
      if isEligible F
      then (F, FuncId) :: eligibleWithIds rest (wrap32 (FuncId + 1))
      else eligibleWithIds rest FuncId
  end.

(** The address constant of a block, as [instrumentBlock] chooses it. *)
Definition blockAddrConst (F : Function) (BB : BasicBlock) : Value :=
  if isEntryBlock F BB then PointerCast (FunctionPtr (fkey F))
  else BlockAddress (fkey F) (bkey BB).

Definition sectionContents (M : IRModule) (sec : string) : list Initializer :=
  map initializer
    (List.filter (fun g => bool_decide (gsection g = sec)) (globals M)).

(** ** More sample inputs *)

Module MoreSamples.

(** A loop [L1] with header [H] (key 51) and a sub-loop [L2] with header
    [G] (key 52), and a second top-level loop [L3]. *)
Definition L2 : Loop := mkLoop 2 52 [].
Definition L1 : Loop := mkLoop 1 51 [L2].
Definition L3 : Loop := mkLoop 3 54 [].
Definition loops : LoopInfo :=
  mkLoopInfo [L1; L3]
    (fun b => if bool_decide (b = 51%N) then Some L1
              else if bool_decide (b = 52%N) then Some L2
              else if bool_decide (b = 53%N) then Some L1
              else if bool_decide (b = 54%N) then Some L3
              else None).

Definition phi : Instruction := mkInst OpPHI (fixedText "%i = phi i32 [ 0, %entry ], [ %n, %latch ]").

(** [entry] jumps to the header [H]; [H] starts with a PHI node, loads and
    enters the inner header [G]; [G] stores and goes on to the latch, which
    branches back to [H] or on to [X], the header of the last loop. *)
Definition fLoop : Function :=
  mkFunction 7 "looping"
    [mkBlock 50 "entry" [mkInst (OpBr 51) (fixedText "br label %H")];
     mkBlock 51 "H" [phi; Samples.load 1; mkInst (OpBr 52) (fixedText "br label %G")];
     mkBlock 52 "G" [Samples.store 2; mkInst (OpBr 53) (fixedText "br label %latch")];
     mkBlock 53 "latch"
       [mkInst (OpCondBr (VLocal (IntegerTy 1) 8) 51 54)
               (fixedText "br i1 %c, label %H, label %X")];
     mkBlock 54 "X" [Samples.callTo "h" [Samples.i32 3; Samples.ptr 4];
                     Samples.ret]]
    loops.





End MoreSamples.

(** ** Further observations on the pass *)

(** A direct call of the function of that name. *)
Definition isCallTo (name : string) (I : Instruction) : bool :=
  match opcode I with
  | OpCall (CalleeFunction n) _ => bool_decide (n = name)
  | _ => false
  end.

(** The test [instrumentFunction] makes before it inserts the loop hook:
    the block is the header of the innermost loop around it. *)
Definition isLoopHeaderBlock (F : Function) (BB : BasicBlock) : bool :=
  match getLoopFor (loopInfo F) (bkey BB) with
  | Some L => bool_decide (getHeader L = bkey BB)
  | None => false
  end.

(** An instruction in front of which the instruction loop inserts
    nothing and which may stand in front of the first insertion point. *)
Definition isPHIOrEHPad (I : Instruction) : bool := isPHI I || isEHPad I.

Definition jsonKeys (j : json) : list string :=
  match j with
  | JObject fields => map fst fields
  | _ => []
  end.

(** The environment with another answer to whether a file opens. *)
Definition withOpens (env : Env) (o : string -> bool) : Env :=
  mkEnv (getenv env) o (has_parent_path env) (parent_path env)
    (has_filename env) (filename env) (path_append env) (jsonText env).

(** The types of the operands of the call hook: six fixed ones, then a
    kind, a width and a 64-bit value per argument of the call. *)
Definition callHookFixedTypes : list Ty :=
  [IntegerTy 32; IntegerTy 32; IntegerTy 32; PointerTy 0; PointerTy 0;
   IntegerTy 32].
Definition callHookTripleTypes : list Ty :=
  [IntegerTy 32; IntegerTy 32; IntegerTy 64].

(** All loops of a forest, each before its sub-loops. *)
Fixpoint loopsOf (L : Loop) : list Loop :=
  match L with
  | mkLoop _ _ subs => L :: concat (map loopsOf subs)
  end.
Definition forestLoops (ls : list Loop) : list Loop :=
  concat (map loopsOf ls).

(** The order in which the [while (!LoopQueue.empty())] loop pops the
    loops: the walk of [numberLoops] without the numbering. *)
Fixpoint popOrder (fuel : nat) (LoopQueue : list Loop) : list Loop :=
  match fuel with
  | O => []
  | S fuel' =>
      match last LoopQueue with
      | None => []
      | Some L => L :: popOrder fuel' (removelast LoopQueue ++ getSubLoops L)
      end
  end.

(** ** The runtime behind the hooks

    [perfvec/block_trace/tracer/runtime/trace_logger.cpp].  A
    [const char *] is an optional string ([None] for the null pointer)
    read up to its first NUL. *)

Module Runtime.

Definition NUL : ascii := Ascii.ascii_of_nat 0.
Definition doubleQuote : ascii := Ascii.ascii_of_nat 34.
Definition apostrophe : ascii := Ascii.ascii_of_nat 39.
Definition slash : ascii := Ascii.ascii_of_nat 47.

(** The characters of a C string: those in front of the first NUL. *)
Fixpoint cstr (s : string) : string :=
  match s with
  | EmptyString => EmptyString
  | String c rest =>
      if (c =? NUL)%char then EmptyString else String c (cstr rest)
  end.

(** What [snprintf(dst, cap, "%s", text)] leaves in [dst]. *)
Definition snprintf_s (cap : nat) (text : string) : string :=
  String.substring 0 (cap - 1) (cstr text).

(** [call_arg_kind_to_string] *)
Definition call_arg_kind_to_string (kind : Z) : string :=
  if kind =? 1 then "int"
  else if kind =? 2 then "ptr"
  else if kind =? 3 then "float"
  else "unknown".

(** The free function [sanitize]: a [std::string] built from the C
    string, each double quote turned into an apostrophe. *)
Fixpoint replaceQuotes (value : string) : string :=
  match value with
  | EmptyString => EmptyString
  | String c rest =>
      String (if (c =? doubleQuote)%char then apostrophe else c)
             (replaceQuotes rest)
  end.

Definition sanitize (name : option string) : string :=
  match name with
  | None => "null"
  | Some n => replaceQuotes (cstr n)
  end.

(** The loop of [TraceLogger::sanitize]: [n] characters are written so
    far, [cap] is the capacity of [dst]; the result is what [dst] holds
    from index [n] on. *)
Fixpoint sanitizeLoop (src : string) (n cap : nat) : string :=
  match src with
  | EmptyString => EmptyString
  | String c rest =>
      if (c =? NUL)%char then EmptyString
      else if (n + 1 <? cap)%nat then
        String (if (c =? doubleQuote)%char then apostrophe else c)
               (sanitizeLoop rest (S n) cap)
      else EmptyString
  end.

(** [TraceLogger::sanitize(dst, cap, src)]: the string left in [dst]. *)
Definition sanitizeInto (cap : nat) (src : option string) : string :=
  match src with
  | None => snprintf_s cap "null"
  | Some s => sanitizeLoop s 0 cap
  end.

(** [TraceLogger::set_module]: [module_name_] has 128 bytes. *)
Definition set_module (name : option string) : string :=
  sanitizeInto 128 name.

(** [next_loop_iter]: the thread's table of iteration counts, keyed by
    the function id in the high and the loop id in the low 32 bits. *)
Definition loopKey64 (func_id loop_id : Z) : Z :=
  Z.lor (Z.shiftl func_id 32 mod 2 ^ 64) loop_id.

Definition next_loop_iter (loop_iters : gmap Z Z) (func_id loop_id : Z)
  : Z * gmap Z Z :=
  let key := loopKey64 func_id loop_id in
  let current := default 0 (loop_iters !! key) in
  (current, <[key := (current + 1) mod 2 ^ 64]> loop_iters).

(** A run of [__bbtrace_on_loop] events on one thread: the iteration
    index each one reports. *)
Fixpoint loopEvents (loop_iters : gmap Z Z) (events : list (Z * Z))
  : list Z * gmap Z Z :=
  match events with
  | [] => ([], loop_iters)
  | (f, l) :: rest =>
      let '(iter, m1) := next_loop_iter loop_iters f l in
      let '(iters, m2) := loopEvents m1 rest in
      (iter :: iters, m2)
  end.

(** [pointer_to_json]: two thread-local buffers of 32 bytes used in
    turn; the result is a pointer to the buffer written, here its index.
    The text is read from the buffers when the caller formats it. *)
Record PtrBuffers : Type := mkPtrBuffers {
  buffer0 : string;
  buffer1 : string;
  index : bool
}.

Definition readBuffer (b : PtrBuffers) (i : bool) : string :=
  if i then buffer1 b else buffer0 b.

Definition pointerText (addr : Z) : string :=
  if addr =? 0 then "null"
  else String doubleQuote (HexString.of_N (Z.to_N addr))
       +:+ String doubleQuote EmptyString.

Definition pointer_to_json (b : PtrBuffers) (addr : Z) : PtrBuffers * bool :=
  let i := negb (index b) in
  let text := snprintf_s 32 (pointerText addr) in
  (if i then mkPtrBuffers (buffer0 b) text i
   else mkPtrBuffers text (buffer1 b) i,
   i).

(** [mkdir_p]: the paths handed to [mkdir], in order, or [None] when the
    path is refused before any call.  [done] is the part of [tmp] in
    front of the character looked at. *)
Fixpoint mkdirPrefixes (done rest : string) : list string :=
  match rest with
  | EmptyString => []
  | String c r =>
      (if (c =? slash)%char then [done] else [])
      ++ mkdirPrefixes (done +:+ String c EmptyString) r
  end.

Definition kPathBufSize : nat := 1024.

Definition mkdir_p_calls (path : string) : option (list string) :=
  match cstr path with
  | EmptyString => None
  | String c0 rest =>
      if (kPathBufSize <=? String.length (cstr path))%nat then None
      else Some (mkdirPrefixes (String c0 EmptyString) rest ++ [cstr path])
  end.

Definition EEXIST : Z := 17.

(** The value [mkdir_p] returns, from the outcome of the last [mkdir]
    ([None]: success, [Some e]: failure with [errno = e]). *)
Definition mkdir_p_result (path : string) (lastMkdir : option Z) : Z :=
  match mkdir_p_calls path with
  | None => -1
  | Some _ =>
      match lastMkdir with
      | Some e => if e =? EEXIST then 0 else -1
      | None => 0
      end
  end.

End Runtime.

(** * Properties *)

(** ** Strings and counting *)

Lemma prefix_append (p s : string) : String.prefix p (p +:+ s) = true.
Proof.
  induction p as [|c p IH]; simpl.
  - by destruct s.
  - destruct (Ascii.ascii_dec c c) as [_|Hne]; [exact IH | by destruct Hne].
Qed.

Lemma starts_with_runtimePrefix (s : string) :
  starts_with (runtimePrefix +:+ s) runtimePrefix = true.
Proof. apply prefix_append. Qed.

Lemma countb_app {A : Type} (P : A -> bool) (l1 l2 : list A) :
  countb P (l1 ++ l2) = (countb P l1 + countb P l2)%nat.
Proof. unfold countb. by rewrite List.filter_app, length_app. Qed.

Lemma countb_cons {A : Type} (P : A -> bool) (x : A) (l : list A) :
  countb P (x :: l) = ((if P x then 1 else 0) + countb P l)%nat.
Proof. unfold countb. simpl. by destruct (P x). Qed.

Lemma countb_insertBefore (P : Instruction -> bool) n x l :
  countb P (insertBefore n x l) = ((if P x then 1 else 0) + countb P l)%nat.
Proof.
  unfold insertBefore.
  rewrite countb_app, countb_cons.
  rewrite <- (take_drop n l) at 3. rewrite countb_app. lia.
Qed.

(** ** The instruction walk *)

Section Walk.

Variable En : bool.
Variable DL : DataLayout.
Variable F : Function.
Variable fid : Z.
Variable ids : gmap N Z.

Lemma visitInstruction_runtime bb st Ins :
  isRuntimeCallInst Ins = true ->
  visitInstruction En DL F fid ids bb st Ins = (st, [], None).
Proof.
  unfold isRuntimeCallInst, visitInstruction.
  destruct (opcode Ins); try discriminate.
  by intros ->.
Qed.

Lemma visitInstructions_app bb st l1 l2 :
  visitInstructions En DL F fid ids bb st (l1 ++ l2) =
  let '(st1, o1, i1) := visitInstructions En DL F fid ids bb st l1 in
  let '(st2, o2, i2) := visitInstructions En DL F fid ids bb st1 l2 in
  (st2, o1 ++ o2, i1 ++ i2).
Proof.
  revert st. induction l1 as [|x l1 IH]; intros st; simpl.
  - by destruct (visitInstructions En DL F fid ids bb st l2) as [[? ?] ?].
  - destruct (visitInstruction En DL F fid ids bb st x) as [[st1 ins] info].
    rewrite IH.
    destruct (visitInstructions En DL F fid ids bb st1 l1) as [[st2 o1] i1].
    destruct (visitInstructions En DL F fid ids bb st2 l2) as [[st3 o2] i2].
    by rewrite <- !app_assoc.
Qed.

(** A runtime call put into the block before the walk changes neither
    the counters nor the entries of the descriptor. *)
Lemma visitInstructions_skip_runtime bb st l1 h l2 :
  isRuntimeCallInst h = true ->
  (visitInstructions En DL F fid ids bb st (l1 ++ h :: l2)).1.1 =
    (visitInstructions En DL F fid ids bb st (l1 ++ l2)).1.1
  /\ (visitInstructions En DL F fid ids bb st (l1 ++ h :: l2)).2 =
    (visitInstructions En DL F fid ids bb st (l1 ++ l2)).2.
Proof.
  intros Hh. rewrite !visitInstructions_app.
  destruct (visitInstructions En DL F fid ids bb st l1) as [[st1 o1] i1].
  simpl. rewrite (visitInstruction_runtime _ _ _ Hh).
  destruct (visitInstructions En DL F fid ids bb st1 l2) as [[st2 o2] i2].
  by simpl.
Qed.

Lemma visitInstructions_insert_runtime bb st n h l :
  isRuntimeCallInst h = true ->
  (visitInstructions En DL F fid ids bb st (insertBefore n h l)).1.1 =
    (visitInstructions En DL F fid ids bb st l).1.1
  /\ (visitInstructions En DL F fid ids bb st (insertBefore n h l)).2 =
    (visitInstructions En DL F fid ids bb st l).2.
Proof.
  intros Hh. unfold insertBefore.
  pose proof (visitInstructions_skip_runtime bb st (take n l) h (drop n l) Hh)
    as H.
  by rewrite take_drop in H.
Qed.

(** The entry of an instruction: none for a runtime call, otherwise one
    whose text is printed while the function holds what has been inserted
    so far. *)
Lemma visitInstruction_entry bb st Ins :
  if isRuntimeCallInst Ins
  then (visitInstruction En DL F fid ids bb st Ins).2 = None
  else exists e,
         (visitInstruction En DL F fid ids bb st Ins).2 = Some e
         /\ Buffer e = printInstruction (Inserted st) Ins.
Proof.
  unfold visitInstruction, isRuntimeCallInst.
  destruct (opcode Ins) as [| | | | | |callee args| |]; simpl;
    try (by eexists).
  destruct (isBbtraceRuntimeCall callee); simpl; [done|].
  rewrite !andb_true_r.
  destruct (negb (isIntrinsicInst callee) && negb (isInlineAsmCall callee));
    by eexists.
Qed.

(** The walk lists the instructions that are not runtime calls, each with
    a text the printer gives it. *)
Lemma visitInstructions_texts bb st l :
  Forall2 (fun e I => exists h, Buffer e = printInstruction h I)
    (visitInstructions En DL F fid ids bb st l).2
    (List.filter (fun I => negb (isRuntimeCallInst I)) l).
Proof.
  revert st. induction l as [|x l IH]; intros st; [constructor|].
  simpl.
  pose proof (visitInstruction_entry bb st x) as Hx.
  destruct (visitInstruction En DL F fid ids bb st x) as [[st1 ins] info].
  specialize (IH st1).
  destruct (visitInstructions En DL F fid ids bb st1 l) as [[st2 o] infos].
  simpl in *.
  destruct (isRuntimeCallInst x); simpl.
  - by subst info.
  - destruct Hx as (e & -> & He). simpl. constructor; [by eexists|done].
Qed.

End Walk.

(** ** Without instrumentation nothing unnamed is inserted

    so every text is the one the printer gives while the function holds
    what it held when the walk began. *)

Lemma visitInstruction_static_inserted DL F fid ids bb st Ins :
  Inserted (visitInstruction false DL F fid ids bb st Ins).1.1 = Inserted st.
Proof.
  unfold visitInstruction.
  destruct (opcode Ins) as [| | | | | |callee args| |]; simpl;
    rewrite ?app_nil_r; try done.
  destruct (isBbtraceRuntimeCall callee); simpl; [done|].
  destruct (negb (isIntrinsicInst callee) && negb (isInlineAsmCall callee));
    simpl; by rewrite ?app_nil_r.
Qed.

Lemma visitInstructions_static DL F fid ids bb st l :
  Inserted (visitInstructions false DL F fid ids bb st l).1.1 = Inserted st
  /\ map Buffer (visitInstructions false DL F fid ids bb st l).2 =
     map (printInstruction (Inserted st))
       (List.filter (fun I => negb (isRuntimeCallInst I)) l).
Proof.
  revert st. induction l as [|x l IH]; intros st; [done|].
  simpl.
  pose proof (visitInstruction_static_inserted DL F fid ids bb st x) as Hs.
  pose proof (visitInstruction_entry false DL F fid ids bb st x) as Hx.
  destruct (visitInstruction false DL F fid ids bb st x) as [[st1 ins] info].
  destruct (IH st1) as [IH1 IH2].
  destruct (visitInstructions false DL F fid ids bb st1 l) as [[st2 o] infos].
  simpl in *. split; [congruence|].
  rewrite map_app, IH2, Hs.
  destruct (isRuntimeCallInst x); simpl.
  - by subst info.
  - destruct Hx as (e & -> & He). simpl. by rewrite He.
Qed.

(** ** What a turn of the instruction loop inserts *)

Lemma made_CreatePointerCast V :
  Forall (fun I => isBuilderMade I = true) (CreatePointerCast_inserts V).
Proof.
  unfold CreatePointerCast_inserts.
  case_bool_decide; [constructor|].
  destruct (isConstantValue V); by repeat constructor.
Qed.

Lemma made_CreatePtrToInt V b :
  Forall (fun I => isBuilderMade I = true) (CreatePtrToInt_inserts V b).
Proof.
  unfold CreatePtrToInt_inserts.
  destruct (isConstantValue V); by repeat constructor.
Qed.

Lemma made_CreateZExt V b :
  Forall (fun I => isBuilderMade I = true) (CreateZExt_inserts V b).
Proof.
  unfold CreateZExt_inserts.
  case_bool_decide; [constructor|].
  destruct (foldsToLiteral V); by repeat constructor.
Qed.

Lemma made_CreateTrunc V b :
  Forall (fun I => isBuilderMade I = true) (CreateTrunc_inserts V b).
Proof.
  unfold CreateTrunc_inserts.
  case_bool_decide; [constructor|].
  destruct (isConstantValue V); by repeat constructor.
Qed.

Lemma made_CreateBitCast V ty :
  Forall (fun I => isBuilderMade I = true) (CreateBitCast_inserts V ty).
Proof.
  unfold CreateBitCast_inserts.
  case_bool_decide; [constructor|].
  destruct (isConstantValue V); by repeat constructor.
Qed.

Lemma made_CreateSelect C T F :
  Forall (fun I => isBuilderMade I = true) (CreateSelect_inserts C T F).
Proof.
  unfold CreateSelect_inserts.
  destruct (isConstantValue (Select C T F)); by repeat constructor.
Qed.

Lemma made_materializeCallArg DL Arg :
  Forall (fun I => isBuilderMade I = true) (materializeCallArg_inserts DL Arg).
Proof.
  unfold materializeCallArg_inserts. cbv zeta.
  repeat match goal with
         | |- Forall _ (if ?c then _ else _) => destruct c
         | |- Forall _ (_ ++ _) => apply Forall_app; split
         | |- Forall _ [] => constructor
         end;
    first [apply made_CreatePtrToInt | apply made_CreateZExt
          | apply made_CreateTrunc | apply made_CreateBitCast].
Qed.

Lemma made_marshalArgs DL args :
  Forall (fun I => isBuilderMade I = true) (marshalArgs_inserts DL args).
Proof.
  unfold marshalArgs_inserts. apply Forall_concat, Forall_map, Forall_forall.
  intros Arg _. apply made_materializeCallArg.
Qed.

Lemma filter_builderMade (P : Instruction -> bool) (l : list Instruction) :
  Forall (fun I => isBuilderMade I = true) l ->
  (forall I, isBuilderMade I = true -> P I = false) ->
  List.filter P l = [].
Proof.
  intros Hl HP. induction Hl as [|x l Hx _ IH]; [done|].
  simpl. by rewrite (HP x Hx).
Qed.

Lemma builderMade_not_record I :
  isBuilderMade I = true -> isInstPcRecord I = false.
Proof.
  unfold isBuilderMade, isInstPcRecord.
  by destruct (opcode I) as [| | | | | |[] ?| |].
Qed.

Lemma builderMade_not_runtime I :
  isBuilderMade I = true -> isRuntimeCallInst I = false.
Proof.
  unfold isBuilderMade, isRuntimeCallInst, isBbtraceRuntimeCall.
  destruct (opcode I) as [| | | | | |[] ?| |]; try done.
  simpl. case_bool_decide; [subst; done|done].
Qed.

(** A turn inserts, in this order: the record of a load or a store; what
    the builder makes for the operands of the hook; the hook.  Without
    instrumentation only the record is left. *)
Lemma visitInstruction_shape En DL F fid ids bb st Ins :
  exists made args,
    (visitInstruction En DL F fid ids bb st Ins).1.2 =
      (if isMemInst Ins then [emitInstPcRecord fid bb (NextMemInstId st)]
       else [])
      ++ made
      ++ (if En then
            if isMemInst Ins then [hookCall MemHook args]
            else if isBranchInst Ins then [hookCall BranchHook args]
            else if isInstrumentedCall Ins then [hookCall CallHook args]
            else []
          else [])
    /\ Forall (fun I => isBuilderMade I = true) made
    /\ (En = false -> made = [])
    /\ Inserted (visitInstruction En DL F fid ids bb st Ins).1.1 =
       Inserted st
       ++ map (fun _ => (default Generic
                           (Kind <$> (visitInstruction En DL F fid ids bb st
                                        Ins).2),
                         default 0
                           (InstId <$> (visitInstruction En DL F fid ids bb st
                                          Ins).2)))
              made.
Proof.
  unfold visitInstruction, isMemInst, isLoadInst, isStoreInst, isBranchInst,
    isInstrumentedCall, tagged.
  destruct En.
  - destruct (opcode Ins) as [| | | | | |callee args| |]; simpl;
      try (exists [], []; repeat split; (done || constructor
                                           || by rewrite app_nil_r)).
    + eexists _, _. split; [reflexivity|].
      split; [apply made_CreatePointerCast|done].
    + eexists _, _. split; [reflexivity|].
      split; [apply made_CreatePointerCast|done].
    + eexists [], _. split; [reflexivity|].
      split; [constructor|]. split; [done|]. simpl. by rewrite app_nil_r.
    + eexists _, _. split; [reflexivity|]. split; [|done].
      apply Forall_app; split; apply made_CreateSelect.
    + destruct (isBbtraceRuntimeCall callee); simpl.
      { exists [], []. rewrite andb_false_r.
        repeat split; (done || constructor || by rewrite app_nil_r). }
      rewrite !andb_true_r.
      destruct (negb (isIntrinsicInst callee)
                && negb (isInlineAsmCall callee)); simpl.
      * eexists _, _. split; [reflexivity|]. split; [|done].
        apply Forall_app; split;
          [destruct (isPointerTy _);
             [apply made_CreatePointerCast|constructor]|].
        apply Forall_cons. split; [done|]. apply made_marshalArgs.
      * exists [], [].
        repeat split; (done || constructor || by rewrite app_nil_r).
  - exists [], [].
    destruct (opcode Ins) as [| | | | | |callee args| |]; simpl;
      try (repeat split; (done || constructor || by rewrite app_nil_r)).
    destruct (isBbtraceRuntimeCall callee); simpl.
    { rewrite ?andb_false_r.
      repeat split; (done || constructor || by rewrite app_nil_r). }
    rewrite ?andb_true_r.
    destruct (negb (isIntrinsicInst callee) && negb (isInlineAsmCall callee));
      simpl; repeat split; (done || constructor || by rewrite app_nil_r).
Qed.

(** ** Independence of the mode

    The counters, the descriptor entries but for their texts, and the
    PC-map entries are computed the same way whether or not hooks are
    inserted. *)

Lemma visitInstruction_mode En1 En2 DL F fid ids bb st1 st2 Ins :
  counters st1 = counters st2 ->
  counters (visitInstruction En1 DL F fid ids bb st1 Ins).1.1 =
    counters (visitInstruction En2 DL F fid ids bb st2 Ins).1.1
  /\ option_map entrySkeleton (visitInstruction En1 DL F fid ids bb st1 Ins).2 =
    option_map entrySkeleton (visitInstruction En2 DL F fid ids bb st2 Ins).2.
Proof.
  unfold counters. intros [= Hm Hb Hc].
  unfold visitInstruction, entrySkeleton.
  destruct (opcode Ins) as [| | | | | |callee args| |]; simpl;
    rewrite ?Hm, ?Hb, ?Hc; try done.
  destruct (isBbtraceRuntimeCall callee); simpl; [by rewrite Hm, Hb, Hc|].
  destruct (negb (isIntrinsicInst callee) && negb (isInlineAsmCall callee));
    simpl; by rewrite ?Hm, ?Hb, ?Hc.
Qed.

Lemma visitInstructions_mode En1 En2 DL F fid ids bb st1 st2 l :
  counters st1 = counters st2 ->
  counters (visitInstructions En1 DL F fid ids bb st1 l).1.1 =
    counters (visitInstructions En2 DL F fid ids bb st2 l).1.1
  /\ map entrySkeleton (visitInstructions En1 DL F fid ids bb st1 l).2 =
    map entrySkeleton (visitInstructions En2 DL F fid ids bb st2 l).2.
Proof.
  revert st1 st2. induction l as [|x l IH]; intros st1 st2 Hst; [done|].
  simpl.
  destruct (visitInstruction_mode En1 En2 DL F fid ids bb st1 st2 x Hst)
    as [Hs Hi].
  destruct (visitInstruction En1 DL F fid ids bb st1 x) as [[s1 o1] i1].
  destruct (visitInstruction En2 DL F fid ids bb st2 x) as [[s2 o2] i2].
  simpl in Hs, Hi.
  destruct (IH s1 s2 Hs) as [Hs' Hi'].
  destruct (visitInstructions En1 DL F fid ids bb s1 l) as [[s3 o3] i3].
  destruct (visitInstructions En2 DL F fid ids bb s2 l) as [[s4 o4] i4].
  simpl in *. split; [done|].
  rewrite !map_app, Hi'. f_equal.
  destruct i1, i2; simpl in *; congruence.
Qed.

Lemma visit_entryHooks En En' DL F fid ids loops BB bb addr st :
  (visitInstructions En' DL F fid ids bb st
     (insertEntryHooks En F fid loops BB bb addr)).1.1 =
    (visitInstructions En' DL F fid ids bb st (insts BB)).1.1
  /\ (visitInstructions En' DL F fid ids bb st
     (insertEntryHooks En F fid loops BB bb addr)).2 =
    (visitInstructions En' DL F fid ids bb st (insts BB)).2.
Proof.
  unfold insertEntryHooks.
  destruct En; [|done].
  set (h1 := hookCall BBHook _).
  assert (H1 : isRuntimeCallInst h1 = true) by done.
  pose proof (visitInstructions_insert_runtime En' DL F fid ids bb st
                (getFirstInsertionPt (insts BB)) h1 (insts BB) H1) as [Ha Hb].
  set (l1 := insertBefore _ h1 (insts BB)) in *.
  destruct (getLoopFor (loopInfo F) (bkey BB)) as [L|]; [|done].
  case_bool_decide; [|done].
  set (h2 := hookCall LoopHook _).
  assert (H2 : isRuntimeCallInst h2 = true) by done.
  pose proof (visitInstructions_insert_runtime En' DL F fid ids bb st
                (getFirstInsertionPt l1) h2 l1 H2) as [Hc Hd].
  split; congruence.
Qed.

Lemma instrumentBlock_mode En1 En2 DL F fid ids loops1 loops2 st1 st2 BB :
  counters st1 = counters st2 ->
  counters (instrumentBlock En1 DL F fid ids loops1 st1 BB).1.1.1 =
    counters (instrumentBlock En2 DL F fid ids loops2 st2 BB).1.1.1
  /\ recordSkeleton (instrumentBlock En1 DL F fid ids loops1 st1 BB).1.2 =
    recordSkeleton (instrumentBlock En2 DL F fid ids loops2 st2 BB).1.2
  /\ (instrumentBlock En1 DL F fid ids loops1 st1 BB).2 =
    (instrumentBlock En2 DL F fid ids loops2 st2 BB).2.
Proof.
  intros Hst. unfold instrumentBlock.
  set (bb := lookupId ids (bkey BB)).
  set (addr := if isEntryBlock F BB then _ else _).
  destruct (visit_entryHooks En1 En1 DL F fid ids loops1 BB bb addr st1)
    as [Ha Hb].
  destruct (visit_entryHooks En2 En2 DL F fid ids loops2 BB bb addr st2)
    as [Hc Hd].
  destruct (visitInstructions_mode En1 En2 DL F fid ids bb st1 st2 (insts BB)
              Hst) as [He Hf].
  destruct (visitInstructions En1 DL F fid ids bb st1
              (insertEntryHooks En1 F fid loops1 BB bb addr)) as [[s1 o1] i1].
  destruct (visitInstructions En2 DL F fid ids bb st2
              (insertEntryHooks En2 F fid loops2 BB bb addr)) as [[s2 o2] i2].
  simpl in *. unfold recordSkeleton. simpl.
  rewrite Ha, Hc, Hb, Hd. by rewrite He, Hf.
Qed.

Lemma instrumentBlocks_mode En1 En2 DL F fid ids loops1 loops2 st1 st2 bbs :
  counters st1 = counters st2 ->
  map recordSkeleton (instrumentBlocks En1 DL F fid ids loops1 st1 bbs).1.2 =
    map recordSkeleton (instrumentBlocks En2 DL F fid ids loops2 st2 bbs).1.2
  /\ (instrumentBlocks En1 DL F fid ids loops1 st1 bbs).2 =
    (instrumentBlocks En2 DL F fid ids loops2 st2 bbs).2.
Proof.
  revert st1 st2. induction bbs as [|BB bbs IH]; intros st1 st2 Hst; [done|].
  simpl.
  destruct (instrumentBlock_mode En1 En2 DL F fid ids loops1 loops2 st1 st2 BB
              Hst) as (Hs & Hi & Hp).
  destruct (instrumentBlock En1 DL F fid ids loops1 st1 BB)
    as [[[s1 b1] i1] p1].
  destruct (instrumentBlock En2 DL F fid ids loops2 st2 BB)
    as [[[s2 b2] i2] p2].
  simpl in Hs, Hi, Hp. subst p2.
  destruct (IH s1 s2 Hs) as [Ha Hb].
  destruct (instrumentBlocks En1 DL F fid ids loops1 s1 bbs) as [[x1 y1] z1].
  destruct (instrumentBlocks En2 DL F fid ids loops2 s2 bbs) as [[x2 y2] z2].
  simpl in *. by rewrite Hi, Ha, Hb.
Qed.

Lemma instrumentFunction_mode En1 En2 DL F fid :
  map recordSkeleton (instrumentFunction En1 DL F fid).1.2 =
    map recordSkeleton (instrumentFunction En2 DL F fid).1.2
  /\ (instrumentFunction En1 DL F fid).2 = (instrumentFunction En2 DL F fid).2.
Proof.
  unfold instrumentFunction.
  set (ids := assignBlockIds (blocks F) 0 ∅).
  set (l1 := if En1 then _ else _). set (l2 := if En2 then _ else _).
  destruct (instrumentBlocks_mode En1 En2 DL F fid ids l1 l2
              (mkCounters 0 0 0 []) (mkCounters 0 0 0 []) (blocks F) eq_refl)
    as [Ha Hb].
  destruct (instrumentBlocks En1 DL F fid ids l1 _ _) as [[x1 y1] z1].
  destruct (instrumentBlocks En2 DL F fid ids l2 _ _) as [[x2 y2] z2].
  simpl in *. by subst.
Qed.

Lemma instrumentFunctions_mode En1 En2 DL fs fid :
  map recordSkeleton (instrumentFunctions En1 DL fs fid).1.1.2 =
    map recordSkeleton (instrumentFunctions En2 DL fs fid).1.1.2
  /\ (instrumentFunctions En1 DL fs fid).1.2 =
    (instrumentFunctions En2 DL fs fid).1.2
  /\ (instrumentFunctions En1 DL fs fid).2 =
    (instrumentFunctions En2 DL fs fid).2.
Proof.
  revert fid. induction fs as [|F fs IH]; intros fid; [done|].
  simpl.
  destruct (isDeclaration F).
  { destruct (IH fid) as (Ha & Hb & Hc).
    destruct (instrumentFunctions En1 DL fs fid) as [[[a1 b1] c1] d1].
    destruct (instrumentFunctions En2 DL fs fid) as [[[a2 b2] c2] d2].
    simpl in *. by subst. }
  destruct (starts_with (fname F) runtimePrefix).
  { destruct (IH fid) as (Ha & Hb & Hc).
    destruct (instrumentFunctions En1 DL fs fid) as [[[a1 b1] c1] d1].
    destruct (instrumentFunctions En2 DL fs fid) as [[[a2 b2] c2] d2].
    simpl in *. by subst. }
  destruct (instrumentFunction_mode En1 En2 DL F fid) as [Hi Hp].
  destruct (instrumentFunction En1 DL F fid) as [[f1 i1] p1].
  destruct (instrumentFunction En2 DL F fid) as [[f2 i2] p2].
  simpl in Hi, Hp. subst p2.
  destruct (IH (wrap32 (fid + 1))) as (Ha & Hb & Hc).
  destruct (instrumentFunctions En1 DL fs _) as [[[a1 b1] c1] d1].
  destruct (instrumentFunctions En2 DL fs _) as [[[a2 b2] c2] d2].
  simpl in *. by rewrite !map_app, Hi, Ha, Hb.
Qed.

(** ** The module around the functions *)

Lemma declareHook_functions M n :
  exists extra,
    functions (declareHook M n) = functions M ++ extra
    /\ Forall (fun F => isDeclaration F = true) extra.
Proof.
  unfold declareHook. case_bool_decide.
  - exists []. by rewrite app_nil_r.
  - eexists [_]. split; [done|]. by repeat constructor.
Qed.

Lemma declareHook_fields M n :
  getModuleIdentifier (declareHook M n) = getModuleIdentifier M
  /\ getDataLayout (declareHook M n) = getDataLayout M
  /\ globals (declareHook M n) = globals M
  /\ globalCtors (declareHook M n) = globalCtors M
  /\ globalDtors (declareHook M n) = globalDtors M
  /\ llvmUsed (declareHook M n) = llvmUsed M
  /\ llvmCompilerUsed (declareHook M n) = llvmCompilerUsed M.
Proof. unfold declareHook. by case_bool_decide. Qed.

Lemma declareHooks_fields names M :
  getModuleIdentifier (foldl declareHook M names) = getModuleIdentifier M
  /\ getDataLayout (foldl declareHook M names) = getDataLayout M
  /\ globals (foldl declareHook M names) = globals M
  /\ globalCtors (foldl declareHook M names) = globalCtors M
  /\ globalDtors (foldl declareHook M names) = globalDtors M
  /\ llvmUsed (foldl declareHook M names) = llvmUsed M
  /\ llvmCompilerUsed (foldl declareHook M names) = llvmCompilerUsed M.
Proof.
  revert M. induction names as [|n names IH]; intros M; [done|].
  simpl. destruct (IH (declareHook M n)) as (-> & -> & -> & -> & -> & -> & ->).
  apply declareHook_fields.
Qed.

Lemma declareHooks_functions names M :
  exists extra,
    functions (foldl declareHook M names) = functions M ++ extra
    /\ Forall (fun F => isDeclaration F = true) extra.
Proof.
  revert M. induction names as [|n names IH]; intros M.
  - exists []. by rewrite app_nil_r.
  - simpl. destruct (IH (declareHook M n)) as (e2 & -> & H2).
    destruct (declareHook_functions M n) as (e1 & -> & H1).
    exists (e1 ++ e2). rewrite app_assoc. split; [done|].
    by apply Forall_app.
Qed.

Lemma declaration_ineligible F : isDeclaration F = true -> isEligible F = false.
Proof. unfold isEligible. by intros ->. Qed.

(** What [ensureCtorDtor] adds: two declarations at most, then the
    constructor and the destructor, none of them eligible; the module-name
    global; an entry in each of the two initializer lists. *)
Lemma ensureCtorDtor_spec M :
  exists decls ck dk,
    functions (ensureCtorDtor M) =
      functions M ++ decls ++ [ctorFunction ck; dtorFunction dk]
    /\ Forall (fun F => isDeclaration F = true) decls
    /\ globals (ensureCtorDtor M) =
         globals M
         ++ [mkGlobal moduleNameGlobal true true true
               (InitString (getModuleIdentifier M) true) "" 1]
    /\ globalCtors (ensureCtorDtor M) = globalCtors M ++ [(ck, 0)]
    /\ globalDtors (ensureCtorDtor M) = globalDtors M ++ [(dk, 0)]
    /\ getModuleIdentifier (ensureCtorDtor M) = getModuleIdentifier M
    /\ getDataLayout (ensureCtorDtor M) = getDataLayout M
    /\ llvmUsed (ensureCtorDtor M) = llvmUsed M
    /\ llvmCompilerUsed (ensureCtorDtor M) = llvmCompilerUsed M.
Proof.
  unfold ensureCtorDtor, getModuleNameGlobal, createFunction.
  destruct (declareHook_functions M RegisterFn) as (e1 & E1 & H1).
  destruct (declareHook_fields M RegisterFn) as (I1 & D1 & G1 & C1 & T1 & U1 & V1).
  set (M1 := declareHook M RegisterFn) in *.
  destruct (declareHook_functions M1 FinalizeFn) as (e2 & E2 & H2).
  destruct (declareHook_fields M1 FinalizeFn) as (I2 & D2 & G2 & C2 & T2 & U2 & V2).
  set (M2 := declareHook M1 FinalizeFn) in *.
  simpl.
  eexists (e1 ++ e2), _, _.
  rewrite E2, E1, G2, G1, C2, C1, T2, T1, I2, I1, D2, D1, U2, U1, V2, V1.
  repeat split; try done.
  - by rewrite <- !app_assoc.
  - by apply Forall_app.
Qed.

Lemma instrumentFunctions_ineligible En DL fs fid :
  Forall (fun F => isEligible F = false) fs ->
  instrumentFunctions En DL fs fid = (fs, [], [], false).
Proof.
  induction 1 as [|F fs HF _ IH]; [done|].
  simpl. unfold isEligible in HF.
  destruct (isDeclaration F); [by rewrite IH|].
  destruct (starts_with (fname F) runtimePrefix); [by rewrite IH|done].
Qed.

Lemma instrumentFunctions_app En DL fs extra fid :
  Forall (fun F => isEligible F = false) extra ->
  instrumentFunctions En DL (fs ++ extra) fid =
  let '(fs', Infos, pcs, ran) := instrumentFunctions En DL fs fid in
  (fs' ++ extra, Infos, pcs, ran).
Proof.
  intros Hex. revert fid. induction fs as [|F fs IH]; intros fid.
  - simpl. by apply instrumentFunctions_ineligible.
  - simpl. destruct (isDeclaration F).
    { rewrite IH. by destruct (instrumentFunctions En DL fs fid) as [[[? ?] ?] ?]. }
    destruct (starts_with (fname F) runtimePrefix).
    { rewrite IH. by destruct (instrumentFunctions En DL fs fid) as [[[? ?] ?] ?]. }
    destruct (instrumentFunction En DL F fid) as [[F' i1] p1].
    rewrite IH.
    by destruct (instrumentFunctions En DL fs _) as [[[? ?] ?] ?].
Qed.

Lemma dumpBasicBlockInfo_identifier env M M' Infos :
  getModuleIdentifier M' = getModuleIdentifier M ->
  dumpBasicBlockInfo env M' Infos = dumpBasicBlockInfo env M Infos.
Proof.
  intros H. unfold dumpBasicBlockInfo, descriptorPath. by rewrite H.
Qed.



Lemma instrumentModule_unfold env M :
  let En := negb (isStaticOnlyMode env) in
  let M1 := if En then ensureCtorDtor M else M in
  let res := instrumentFunctions En (getDataLayout M1) (functions M1) 0 in
  let M2 := withFunctions M1 res.1.1.1 in
  let M3 :=
    if En && res.2 then foldl declareHook M2 hookDeclarations else M2 in
  instrumentModule env M =
  mkResult (emitPcMap M3 res.1.2) (dumpBasicBlockInfo env M3 res.1.1.2)
    res.1.1.2 res.1.2 true.
Proof.
  unfold instrumentModule. simpl.
  by destruct (instrumentFunctions _ _ _ 0) as [[[fs Infos] pcs] ran].
Qed.

(** The descriptor records of a run are those of the walk, in the mode of
    the run, over the module as it was given; the PC-map entries are those
    of the walk without hooks. *)
Lemma instrumentModule_infos env M :
  StaticInfos (instrumentModule env M) =
    (instrumentFunctions (negb (isStaticOnlyMode env)) (getDataLayout M)
       (functions M) 0).1.1.2
  /\ PcInfos (instrumentModule env M) =
    (instrumentFunctions false (getDataLayout M) (functions M) 0).1.2
  /\ fileEffects (instrumentModule env M) =
    dumpBasicBlockInfo env M (StaticInfos (instrumentModule env M)).
Proof.
  rewrite instrumentModule_unfold. simpl.
  set (En := negb (isStaticOnlyMode env)).
  assert (HM1 : exists extra,
             functions (if En then ensureCtorDtor M else M)
               = functions M ++ extra
             /\ Forall (fun F => isEligible F = false) extra
             /\ getDataLayout (if En then ensureCtorDtor M else M)
               = getDataLayout M
             /\ getModuleIdentifier (if En then ensureCtorDtor M else M)
               = getModuleIdentifier M).
  { destruct En.
    - destruct (ensureCtorDtor_spec M)
        as (decls & ck & dk & Hf & Hd & _ & _ & _ & Hi & Hl & _).
      eexists. split; [exact Hf|]. split; [|done].
      apply Forall_app. split.
      + eapply Forall_impl; [exact Hd|]. apply declaration_ineligible.
      + by repeat constructor.
    - exists []. by rewrite app_nil_r. }
  destruct HM1 as (extra & Hf & Hex & Hl & Hi).
  set (M1 := if En then ensureCtorDtor M else M) in *.
  rewrite Hf, Hl, (instrumentFunctions_app _ _ _ _ _ Hex).
  destruct (instrumentFunctions_mode En false (getDataLayout M) (functions M) 0)
    as (Ha & Hb & Hc).
  destruct (instrumentFunctions En (getDataLayout M) (functions M) 0)
    as [[[fs Infos] pcs] ran].
  simpl in *. split; [done|]. split; [done|].
  apply dumpBasicBlockInfo_identifier.
  destruct (En && ran); [|exact Hi].
  pose proof (declareHooks_fields hookDeclarations
                (withFunctions M1 (fs ++ extra))) as (HI & _).
  simpl in HI. by rewrite HI.
Qed.

Lemma emitPcMap_spec M Infos :
  getModuleIdentifier (emitPcMap M Infos) = getModuleIdentifier M
  /\ getDataLayout (emitPcMap M Infos) = getDataLayout M
  /\ functions (emitPcMap M Infos) = functions M
  /\ globalCtors (emitPcMap M Infos) = globalCtors M
  /\ globalDtors (emitPcMap M Infos) = globalDtors M
  /\ llvmUsed (emitPcMap M Infos) = llvmUsed M
  /\ globals (emitPcMap M Infos) =
       globals M
       ++ match Infos with
          | [] => []
          | _ =>
              [mkGlobal pcMapGlobal true true false
                 (InitArray (map (pcMapEntry (getDataLayout M)) Infos))
                 ".bbtrace_map" (getPointerSize (getDataLayout M))]
          end
  /\ llvmCompilerUsed (emitPcMap M Infos) =
       llvmCompilerUsed M
       ++ match Infos with [] => [] | _ => [pcMapGlobal] end.
Proof.
  destruct Infos; simpl; by rewrite ?app_nil_r.
Qed.

(** The module a run returns, field by field. *)
Lemma instrumentModule_module env M :
  let r := instrumentModule env M in
  let En := negb (isStaticOnlyMode env) in
  let M1 := if En then ensureCtorDtor M else M in
  getModuleIdentifier (outModule r) = getModuleIdentifier M
  /\ getDataLayout (outModule r) = getDataLayout M
  /\ globalCtors (outModule r) = globalCtors M1
  /\ globalDtors (outModule r) = globalDtors M1
  /\ llvmUsed (outModule r) = llvmUsed M
  /\ globals (outModule r) =
       globals M1
       ++ match PcInfos r with
          | [] => []
          | _ =>
              [mkGlobal pcMapGlobal true true false
                 (InitArray (map (pcMapEntry (getDataLayout M)) (PcInfos r)))
                 ".bbtrace_map" (getPointerSize (getDataLayout M))]
          end
  /\ llvmCompilerUsed (outModule r) =
       llvmCompilerUsed M
       ++ match PcInfos r with [] => [] | _ => [pcMapGlobal] end.
Proof.
  intros r En M1. subst r.
  rewrite instrumentModule_unfold. cbv zeta. cbn [outModule PcInfos].
  fold En. fold M1.
  assert (H1 : getModuleIdentifier M1 = getModuleIdentifier M
               /\ getDataLayout M1 = getDataLayout M
               /\ llvmUsed M1 = llvmUsed M
               /\ llvmCompilerUsed M1 = llvmCompilerUsed M).
  { subst M1. destruct En; [|done].
    by destruct (ensureCtorDtor_spec M)
      as (? & ? & ? & _ & _ & _ & _ & _ & -> & -> & -> & ->). }
  destruct H1 as (Hi & Hd & Hu & Hc).
  set (res := instrumentFunctions En (getDataLayout M1) (functions M1) 0).
  set (M2 := withFunctions M1 res.1.1.1).
  set (M3 := if En && res.2 then foldl declareHook M2 hookDeclarations else M2).
  assert (H3 : getModuleIdentifier M3 = getModuleIdentifier M1
               /\ getDataLayout M3 = getDataLayout M1
               /\ globals M3 = globals M1
               /\ globalCtors M3 = globalCtors M1
               /\ globalDtors M3 = globalDtors M1
               /\ llvmUsed M3 = llvmUsed M1
               /\ llvmCompilerUsed M3 = llvmCompilerUsed M1).
  { subst M3. destruct (En && res.2); [|done].
    apply (declareHooks_fields hookDeclarations M2). }
  destruct H3 as (Hi3 & Hd3 & Hg3 & Hc3 & Ht3 & Hu3 & Hv3).
  destruct (emitPcMap_spec M3 res.1.2)
    as (-> & -> & _ & -> & -> & -> & -> & ->).
  rewrite Hi3, Hd3, Hg3, Hc3, Ht3, Hu3, Hv3, Hi, Hd, Hu, Hc.
  done.
Qed.

(** ** What the descriptor lists *)

Lemma instrumentBlock_texts En DL F fid ids loops st BB :
  Forall2 (fun e I => exists h, Buffer e = printInstruction h I)
    (Instructions (instrumentBlock En DL F fid ids loops st BB).1.2)
    (List.filter notRuntime (insts BB)).
Proof.
  unfold instrumentBlock.
  set (bb := lookupId ids (bkey BB)).
  set (addr := if isEntryBlock F BB then _ else _).
  destruct (visit_entryHooks En En DL F fid ids loops BB bb addr st) as [_ Hb].
  destruct (visitInstructions En DL F fid ids bb st
              (insertEntryHooks En F fid loops BB bb addr)) as [[s1 o1] i1].
  simpl in *. rewrite Hb. apply visitInstructions_texts.
Qed.

Lemma instrumentBlocks_texts En DL F fid ids loops st bbs :
  Forall2 (fun e I => exists h, Buffer e = printInstruction h I)
    (concat (map Instructions
               (instrumentBlocks En DL F fid ids loops st bbs).1.2))
    (List.filter notRuntime (concat (map insts bbs))).
Proof.
  revert st. induction bbs as [|BB bbs IH]; intros st; [constructor|].
  simpl.
  pose proof (instrumentBlock_texts En DL F fid ids loops st BB) as Hb.
  destruct (instrumentBlock En DL F fid ids loops st BB) as [[[s1 b1] i1] p1].
  specialize (IH s1).
  destruct (instrumentBlocks En DL F fid ids loops s1 bbs) as [[x y] z].
  simpl in *. rewrite List.filter_app. by apply Forall2_app.
Qed.

Lemma instrumentFunction_texts En DL F fid :
  Forall2 (fun e I => exists h, Buffer e = printInstruction h I)
    (concat (map Instructions (instrumentFunction En DL F fid).1.2))
    (List.filter notRuntime (functionInsts F)).
Proof.
  unfold instrumentFunction, functionInsts.
  set (ids := assignBlockIds (blocks F) 0 ∅).
  set (loops := if En then _ else _).
  pose proof (instrumentBlocks_texts En DL F fid ids loops (mkCounters 0 0 0 [])
                (blocks F)) as H.
  by destruct (instrumentBlocks En DL F fid ids loops _ _) as [[x y] z].
Qed.

Lemma listedTexts_app (a b : list BlockStaticInfo) :
  listedTexts (a ++ b) = listedTexts a ++ listedTexts b.
Proof. unfold listedTexts. by rewrite map_app, concat_app, map_app. Qed.

Lemma instrumentFunctions_texts En DL fs fid :
  Forall2 (fun e I => exists h, Buffer e = printInstruction h I)
    (concat (map Instructions (instrumentFunctions En DL fs fid).1.1.2))
    (List.filter notRuntime
       (concat (map functionInsts (List.filter isEligible fs)))).
Proof.
  revert fid. induction fs as [|F fs IH]; intros fid; [constructor|].
  simpl. unfold isEligible at 1.
  destruct (isDeclaration F); simpl.
  { specialize (IH fid).
    by destruct (instrumentFunctions En DL fs fid) as [[[? ?] ?] ?]. }
  destruct (starts_with (fname F) runtimePrefix); simpl.
  { specialize (IH fid).
    by destruct (instrumentFunctions En DL fs fid) as [[[? ?] ?] ?]. }
  pose proof (instrumentFunction_texts En DL F fid) as HF.
  destruct (instrumentFunction En DL F fid) as [[F' i1] p1].
  specialize (IH (wrap32 (fid + 1))).
  destruct (instrumentFunctions En DL fs _) as [[[? ?] ?] ?].
  simpl in *.
  rewrite map_app, concat_app, List.filter_app. by apply Forall2_app.
Qed.

(** The texts of a run, against the instructions they are the texts of. *)
Lemma run_texts env M :
  Forall2 (fun text I => exists h, text = printInstruction h I)
    (listedTexts (StaticInfos (run env M)))
    (List.filter notRuntime (eligibleInsts M)).
Proof.
  unfold run, listedTexts.
  destruct (instrumentModule_infos env M) as (-> & _).
  apply Forall2_fmap_l. apply instrumentFunctions_texts.
Qed.

(** Without instrumentation the texts are those of the input. *)
Lemma instrumentBlock_static DL F fid ids loops st BB :
  Inserted (instrumentBlock false DL F fid ids loops st BB).1.1.1 =
    Inserted st
  /\ map Buffer
       (Instructions (instrumentBlock false DL F fid ids loops st BB).1.2) =
     map (printInstruction (Inserted st)) (List.filter notRuntime (insts BB)).
Proof.
  unfold instrumentBlock.
  set (bb := lookupId ids (bkey BB)).
  set (addr := if isEntryBlock F BB then _ else _).
  change (insertEntryHooks false F fid loops BB bb addr) with (insts BB).
  pose proof (visitInstructions_static DL F fid ids bb st (insts BB)) as H.
  by destruct (visitInstructions false DL F fid ids bb st (insts BB))
    as [[s1 o1] i1].
Qed.

Lemma instrumentBlocks_static DL F fid ids loops st bbs :
  listedTexts (instrumentBlocks false DL F fid ids loops st bbs).1.2 =
  map (printInstruction (Inserted st))
    (List.filter notRuntime (concat (map insts bbs))).
Proof.
  revert st. induction bbs as [|BB bbs IH]; intros st; [done|].
  simpl.
  destruct (instrumentBlock_static DL F fid ids loops st BB) as [Hs Hb].
  destruct (instrumentBlock false DL F fid ids loops st BB)
    as [[[s1 b1] i1] p1].
  specialize (IH s1).
  destruct (instrumentBlocks false DL F fid ids loops s1 bbs) as [[x y] z].
  unfold listedTexts in *. simpl in *.
  by rewrite map_app, List.filter_app, map_app, Hb, IH, Hs.
Qed.

Lemma instrumentFunction_static DL F fid :
  listedTexts (instrumentFunction false DL F fid).1.2 =
  map (printInstruction []) (List.filter notRuntime (functionInsts F)).
Proof.
  unfold instrumentFunction, functionInsts.
  set (ids := assignBlockIds (blocks F) 0 ∅).
  pose proof (instrumentBlocks_static DL F fid ids ∅ (mkCounters 0 0 0 [])
                (blocks F)) as H.
  by destruct (instrumentBlocks false DL F fid ids _ _ _) as [[x y] z].
Qed.

Lemma instrumentFunctions_static DL fs fid :
  listedTexts (instrumentFunctions false DL fs fid).1.1.2 =
  map (printInstruction [])
    (List.filter notRuntime
       (concat (map functionInsts (List.filter isEligible fs)))).
Proof.
  revert fid. induction fs as [|F fs IH]; intros fid; [done|].
  simpl. unfold isEligible at 1.
  destruct (isDeclaration F); simpl.
  { specialize (IH fid).
    by destruct (instrumentFunctions false DL fs fid) as [[[? ?] ?] ?]. }
  destruct (starts_with (fname F) runtimePrefix); simpl.
  { specialize (IH fid).
    by destruct (instrumentFunctions false DL fs fid) as [[[? ?] ?] ?]. }
  pose proof (instrumentFunction_static DL F fid) as HF.
  destruct (instrumentFunction false DL F fid) as [[F' i1] p1].
  specialize (IH (wrap32 (fid + 1))).
  destruct (instrumentFunctions false DL fs _) as [[[? ?] ?] ?].
  simpl in *.
  by rewrite listedTexts_app, List.filter_app, map_app, HF, IH.
Qed.

Lemma run_static_texts env M :
  isStaticOnlyMode env = true ->
  listedTexts (StaticInfos (run env M)) = originalTexts M.
Proof.
  intros Hs. unfold run.
  destruct (instrumentModule_infos env M) as (-> & _).
  rewrite Hs. apply instrumentFunctions_static.
Qed.

(** Texts that name no unnamed value are the texts of the input. *)
Lemma texts_fixed (texts : list string) (l : list Instruction) :
  Forall2 (fun text I => exists h, text = printInstruction h I) texts l ->
  Forall textIgnoresInsertions l ->
  texts = map (printInstruction []) l.
Proof.
  induction 1 as [|t I texts l (h & ->) _ IH]; intros Hall; [done|].
  apply Forall_cons in Hall as [HI Hall].
  simpl. rewrite (IH Hall). f_equal.
  unfold printInstruction. by rewrite (HI h).
Qed.

(** A record is its skeleton and the texts of its entries. *)
Lemma entries_eq (l1 l2 : list InstructionStaticInfo) :
  map entrySkeleton l1 = map entrySkeleton l2 ->
  map Buffer l1 = map Buffer l2 ->
  l1 = l2.
Proof.
  revert l2. induction l1 as [|e1 l1 IH]; intros [|e2 l2]; try done.
  simpl. intros [= Hk Hi Ht Hs] [= Hb Hbs].
  f_equal; [|by apply IH].
  destruct e1, e2; simpl in *; congruence.
Qed.

Lemma records_eq (A B : list BlockStaticInfo) :
  map recordSkeleton A = map recordSkeleton B ->
  listedTexts A = listedTexts B ->
  A = B.
Proof.
  unfold listedTexts.
  revert B. induction A as [|a A IH]; intros [|b B]; try done.
  simpl. intros [= H1 H2 H3 H4 H5 H6 Hs]. rewrite !map_app. intros Ht.
  assert (Hlen : length (map Buffer (Instructions a)) =
                 length (map Buffer (Instructions b))).
  { rewrite !length_map. apply (f_equal length) in H6.
    by rewrite !length_map in H6. }
  apply app_inj_1 in Ht as [Ht1 Ht2]; [|exact Hlen].
  f_equal; [|by apply IH].
  pose proof (entries_eq _ _ H6 Ht1) as He.
  destruct a, b; simpl in *; congruence.
Qed.


Lemma sectionContents_run env M :
  sectionContents (outModule (instrumentModule env M)) ".bbtrace_map" =
  sectionContents M ".bbtrace_map"
  ++ match PcInfos (instrumentModule env M) with
     | [] => []
     | pcs => [InitArray (map (pcMapEntry (getDataLayout M)) pcs)]
     end.
Proof.
  destruct (instrumentModule_module env M) as (_ & _ & _ & _ & _ & Hg & _).
  unfold sectionContents. rewrite Hg.
  rewrite List.filter_app, map_app. f_equal.
  - destruct (negb (isStaticOnlyMode env)); [|done].
    destruct (ensureCtorDtor_spec M)
      as (? & ? & ? & _ & _ & -> & _).
    rewrite List.filter_app, map_app. simpl. by rewrite app_nil_r.
  - by destruct (PcInfos (instrumentModule env M)).
Qed.

(** ** Static-only mode and instrumented mode against each other *)



(** ** The functions of the returned module *)

Lemma instrumentModule_functions env M :
  let En := negb (isStaticOnlyMode env) in
  let res := instrumentFunctions En (getDataLayout M) (functions M) 0 in
  let out := outModule (instrumentModule env M) in
  exists extra hooks,
    functions out = res.1.1.1 ++ extra ++ hooks
    /\ Forall (fun F => isDeclaration F = true) hooks
    /\ (res.2 = false -> hooks = [])
    /\ if En then
         exists decls ck dk,
           extra = decls ++ [ctorFunction ck; dtorFunction dk]
           /\ Forall (fun F => isDeclaration F = true) decls
           /\ globalCtors out = globalCtors M ++ [(ck, 0)]
           /\ globalDtors out = globalDtors M ++ [(dk, 0)]
       else
         extra = [] /\ hooks = []
         /\ globalCtors out = globalCtors M
         /\ globalDtors out = globalDtors M.
Proof.
  intros En res out.
  destruct (instrumentModule_module env M) as (_ & _ & Hc & Hd & _).
  fold out in Hc, Hd. fold En in Hc, Hd.
  assert (Hf : functions out =
    functions
      (let M1 := if En then ensureCtorDtor M else M in
       let res' :=
         instrumentFunctions En (getDataLayout M1) (functions M1) 0 in
       if En && res'.2
       then foldl declareHook (withFunctions M1 res'.1.1.1) hookDeclarations
       else withFunctions M1 res'.1.1.1)).
  { subst out. rewrite instrumentModule_unfold. cbv zeta. cbn [outModule].
    fold En.
    match goal with
    | |- functions (emitPcMap ?X ?Y) = _ =>
        destruct (emitPcMap_spec X Y) as (_ & _ & H & _); exact H
    end. }
  clearbody out. cbv zeta in Hf.
  destruct En.
  - destruct (ensureCtorDtor_spec M)
      as (decls & ck & dk & Hfs & Hdec & _ & Hct & Hdt & _ & Hl & _).
    rewrite Hfs, Hl in Hf.
    assert (Hex : Forall (fun F => isEligible F = false)
                    (decls ++ [ctorFunction ck; dtorFunction dk])).
    { apply Forall_app. split.
      - eapply Forall_impl; [exact Hdec|]. apply declaration_ineligible.
      - by repeat constructor. }
    rewrite (instrumentFunctions_app _ _ _ _ _ Hex) in Hf.
    subst res.
    destruct (instrumentFunctions true (getDataLayout M) (functions M) 0)
      as [[[fs Infos] pcs] ran].
    cbn [fst snd andb] in *.
    destruct ran.
    + destruct (declareHooks_functions hookDeclarations
                  (withFunctions (ensureCtorDtor M)
                     (fs ++ decls ++ [ctorFunction ck; dtorFunction dk])))
        as (hooks & Hh & HhD).
      rewrite Hh in Hf. cbn [functions withFunctions] in Hf.
      exists (decls ++ [ctorFunction ck; dtorFunction dk]), hooks.
      rewrite Hf, <- !app_assoc. repeat split; try done.
      exists decls, ck, dk. by rewrite Hc, Hd, Hct, Hdt.
    + cbn [functions withFunctions] in Hf.
      exists (decls ++ [ctorFunction ck; dtorFunction dk]), [].
      rewrite Hf, app_nil_r.
      repeat split; try done.
      exists decls, ck, dk. by rewrite Hc, Hd, Hct, Hdt.
  - exists [], []. subst res. cbn [andb functions withFunctions] in Hf.
    by rewrite Hf, !app_nil_r.
Qed.

(** ** Counting what the walk puts into a module *)

Lemma countb_concat_cons {A : Type} (P : A -> bool) (x : list A) xs :
  countb P (concat (x :: xs)) = (countb P x + countb P (concat xs))%nat.
Proof. simpl. apply countb_app. Qed.

Lemma declarations_no_insts (l : list Function) :
  Forall (fun F => isDeclaration F = true) l ->
  concat (map functionInsts l) = [].
Proof.
  induction 1 as [|F l HF _ IH]; [done|].
  simpl. rewrite IH. unfold functionInsts, isDeclaration in *.
  by destruct (blocks F).
Qed.

Section Counting.

Variables P Q : Instruction -> bool.
Variable En : bool.

Hypothesis Hvisit : forall DL F fid ids bb st Ins,
  countb P (visitInstruction En DL F fid ids bb st Ins).1.2 =
  if Q Ins then 1%nat else 0%nat.

Hypothesis Hentry : forall F fid loops BB bb addr,
  countb P (insertEntryHooks En F fid loops BB bb addr) = countb P (insts BB)
  /\ countb Q (insertEntryHooks En F fid loops BB bb addr)
     = countb Q (insts BB).

Lemma count_visitInstructions DL F fid ids bb st l :
  countb P (visitInstructions En DL F fid ids bb st l).1.2 =
  (countb P l + countb Q l)%nat.
Proof.
  revert st. induction l as [|x l IH]; intros st; [done|].
  simpl. pose proof (Hvisit DL F fid ids bb st x) as Hx.
  destruct (visitInstruction En DL F fid ids bb st x) as [[s1 ins] info].
  specialize (IH s1).
  destruct (visitInstructions En DL F fid ids bb s1 l) as [[s2 o] infos].
  simpl in *. rewrite countb_app, !countb_cons, Hx, IH.
  destruct (Q x), (P x); lia.
Qed.

Lemma count_instrumentBlock DL F fid ids loops st BB :
  countb P (insts (instrumentBlock En DL F fid ids loops st BB).1.1.2) =
  (countb P (insts BB) + countb Q (insts BB))%nat.
Proof.
  unfold instrumentBlock.
  set (bb := lookupId ids (bkey BB)).
  set (addr := if isEntryBlock F BB then _ else _).
  pose proof (count_visitInstructions DL F fid ids bb st
                (insertEntryHooks En F fid loops BB bb addr)) as H.
  destruct (Hentry F fid loops BB bb addr) as [Hp Hq].
  destruct (visitInstructions En DL F fid ids bb st _) as [[s1 o1] i1].
  simpl in *. by rewrite H, Hp, Hq.
Qed.

Lemma count_instrumentBlocks DL F fid ids loops st bbs :
  countb P
    (concat (map insts (instrumentBlocks En DL F fid ids loops st bbs).1.1)) =
  (countb P (concat (map insts bbs)) + countb Q (concat (map insts bbs)))%nat.
Proof.
  revert st. induction bbs as [|BB bbs IH]; intros st; [done|].
  simpl.
  pose proof (count_instrumentBlock DL F fid ids loops st BB) as Hb.
  destruct (instrumentBlock En DL F fid ids loops st BB)
    as [[[s1 b1] i1] p1].
  specialize (IH s1).
  destruct (instrumentBlocks En DL F fid ids loops s1 bbs) as [[x y] z].
  simpl in *. rewrite !countb_app, Hb, IH. lia.
Qed.

Lemma count_instrumentFunction DL F fid :
  countb P (functionInsts (instrumentFunction En DL F fid).1.1) =
  (countb P (functionInsts F) + countb Q (functionInsts F))%nat.
Proof.
  unfold instrumentFunction, functionInsts.
  set (ids := assignBlockIds (blocks F) 0 ∅).
  set (loops := if En then _ else _).
  pose proof (count_instrumentBlocks DL F fid ids loops (mkCounters 0 0 0 [])
                (blocks F)) as H.
  by destruct (instrumentBlocks En DL F fid ids loops _ _) as [[x y] z].
Qed.

Lemma count_instrumentFunctions DL fs fid :
  countb P
    (concat (map functionInsts (instrumentFunctions En DL fs fid).1.1.1)) =
  (countb P (concat (map functionInsts fs))
   + countb Q (concat (map functionInsts (List.filter isEligible fs))))%nat.
Proof.
  revert fid. induction fs as [|F fs IH]; intros fid; [done|].
  simpl. unfold isEligible at 1.
  destruct (isDeclaration F); simpl.
  { specialize (IH fid).
    destruct (instrumentFunctions En DL fs fid) as [[[? ?] ?] ?].
    simpl in *. rewrite !countb_app, IH. lia. }
  destruct (starts_with (fname F) runtimePrefix); simpl.
  { specialize (IH fid).
    destruct (instrumentFunctions En DL fs fid) as [[[? ?] ?] ?].
    simpl in *. rewrite !countb_app, IH. lia. }
  pose proof (count_instrumentFunction DL F fid) as HF.
  destruct (instrumentFunction En DL F fid) as [[F' i1] p1].
  specialize (IH (wrap32 (fid + 1))).
  destruct (instrumentFunctions En DL fs _) as [[[? ?] ?] ?].
  simpl in *. rewrite !countb_app, HF, IH. lia.
Qed.

End Counting.

(** The same count at the level of a run.  In instrumented mode the
    bodies of the constructor and of the destructor are in the module
    too. *)
Lemma count_run (P Q : Instruction -> bool) env M :
  (forall DL F fid ids bb st Ins,
      countb P (visitInstruction (negb (isStaticOnlyMode env))
                  DL F fid ids bb st Ins).1.2 =
      if Q Ins then 1%nat else 0%nat) ->
  (forall F fid loops BB bb addr,
      countb P (insertEntryHooks (negb (isStaticOnlyMode env))
                  F fid loops BB bb addr) = countb P (insts BB)
      /\ countb Q (insertEntryHooks (negb (isStaticOnlyMode env))
                  F fid loops BB bb addr) = countb Q (insts BB)) ->
  countb P (moduleInsts (outModule (instrumentModule env M))) =
  (countb P (moduleInsts M) + countb Q (eligibleInsts M)
   + if negb (isStaticOnlyMode env)
     then countb P (ctorBody (GlobalPtr moduleNameGlobal) ++ dtorBody)
     else 0)%nat.
Proof.
  intros Hv He.
  destruct (instrumentModule_functions env M) as (extra & hooks & Hf & Hh & _ & Hx).
  cbv zeta in *. unfold moduleInsts, eligibleInsts.
  rewrite Hf, !map_app, !concat_app, !countb_app.
  rewrite (declarations_no_insts hooks Hh).
  rewrite (count_instrumentFunctions P Q _ Hv He).
  destruct (negb (isStaticOnlyMode env)).
  - destruct Hx as (decls & ck & dk & -> & Hd & _).
    rewrite map_app, concat_app, (declarations_no_insts decls Hd).
    simpl. change (countb P []) with 0%nat.
    change [hookCall RegisterFn [PointerCast (GlobalPtr moduleNameGlobal)];
            retVoid; hookCall FinalizeFn []; retVoid]
      with (ctorBody (GlobalPtr moduleNameGlobal) ++ dtorBody).
    rewrite countb_app. lia.
  - destruct Hx as (-> & _). simpl. change (countb P []) with 0%nat. lia.
Qed.

Lemma countb_true {A : Type} (l : list A) :
  countb (fun _ => true) l = length l.
Proof. unfold countb. induction l; simpl; congruence. Qed.

Lemma countb_mem (l : list Instruction) :
  countb isMemInst l = (countb isLoadInst l + countb isStoreInst l)%nat.
Proof.
  induction l as [|x l IH]; [done|].
  rewrite !countb_cons, IH. unfold isMemInst, isLoadInst, isStoreInst.
  destruct (opcode x); simpl; lia.
Qed.

Lemma insertEntryHooks_count (P : Instruction -> bool) En F fid loops BB bb addr :
  (forall n a, P (hookCall n a) = false) ->
  countb P (insertEntryHooks En F fid loops BB bb addr) = countb P (insts BB).
Proof.
  intros HP. unfold insertEntryHooks.
  destruct En; [|done].
  destruct (getLoopFor (loopInfo F) (bkey BB)) as [L|].
  - case_bool_decide; rewrite ?countb_insertBefore, ?HP; lia.
  - rewrite countb_insertBefore, HP. lia.
Qed.

(** The records a turn of the instruction loop inserts: one in front of a
    load or a store, none otherwise; the mode plays no part. *)
Lemma visitInstruction_records En DL F fid ids bb st Ins :
  List.filter isInstPcRecord (visitInstruction En DL F fid ids bb st Ins).1.2 =
  if isMemInst Ins then [emitInstPcRecord fid bb (NextMemInstId st)] else [].
Proof.
  destruct (visitInstruction_shape En DL F fid ids bb st Ins)
    as (made & args & -> & Hm & _).
  rewrite !List.filter_app.
  rewrite (filter_builderMade _ _ Hm builderMade_not_record).
  destruct (isMemInst Ins); [by destruct En|].
  destruct En; [|done].
  by destruct (isBranchInst Ins), (isInstrumentedCall Ins).
Qed.

Lemma visitInstruction_records_count En DL F fid ids bb st Ins :
  countb isInstPcRecord (visitInstruction En DL F fid ids bb st Ins).1.2 =
  if isMemInst Ins then 1%nat else 0%nat.
Proof.
  unfold countb. rewrite visitInstruction_records. by destruct (isMemInst Ins).
Qed.

(** Without hooks, a record in front of a load or a store is all a turn
    inserts. *)
Lemma visitInstruction_static DL F fid ids bb st Ins :
  (visitInstruction false DL F fid ids bb st Ins).1.2 =
  if isMemInst Ins then [emitInstPcRecord fid bb (NextMemInstId st)] else [].
Proof.
  destruct (visitInstruction_shape false DL F fid ids bb st Ins)
    as (made & args & -> & _ & Hm & _).
  rewrite (Hm eq_refl). by rewrite !app_nil_r.
Qed.

Lemma instrumentFunctions_names En DL fs fid :
  map fname (instrumentFunctions En DL fs fid).1.1.1 = map fname fs.
Proof.
  revert fid. induction fs as [|F fs IH]; intros fid; [done|].
  simpl.
  destruct (isDeclaration F).
  { specialize (IH fid).
    destruct (instrumentFunctions En DL fs fid) as [[[? ?] ?] ?].
    simpl in *. by rewrite IH. }
  destruct (starts_with (fname F) runtimePrefix).
  { specialize (IH fid).
    destruct (instrumentFunctions En DL fs fid) as [[[? ?] ?] ?].
    simpl in *. by rewrite IH. }
  assert (HF : fname (instrumentFunction En DL F fid).1.1 = fname F).
  { unfold instrumentFunction.
    by destruct (instrumentBlocks _ _ _ _ _ _ _ _) as [[? ?] ?]. }
  destruct (instrumentFunction En DL F fid) as [[F' i1] p1].
  specialize (IH (wrap32 (fid + 1))).
  destruct (instrumentFunctions En DL fs _) as [[[? ?] ?] ?].
  simpl in *. by rewrite IH, HF.
Qed.

(** ** Records in [.bbtrace_inst] *)

(** C1, as the code has it.  The pass puts one [.bbtrace_inst] record in
    front of every load and every store of every eligible block, whatever
    the mode, and nowhere else: the records in the returned module are
    those already there plus one per load and one per store of the
    eligible blocks; calls get none.  The record of a load or store
    carries the function id, the block id and the memory [inst_id] the
    instruction is given. *)
Theorem inst_pc_records_are_per_memory_instruction (env : Env) (M : IRModule) :
  countb isInstPcRecord (moduleInsts (outModule (run env M))) =
    (countb isInstPcRecord (moduleInsts M)
     + countb isLoadInst (eligibleInsts M)
     + countb isStoreInst (eligibleInsts M))%nat
  /\ forall En DL F fid ids bb st Ins,
       List.filter isInstPcRecord
         (visitInstruction En DL F fid ids bb st Ins).1.2 =
         (if isMemInst Ins
          then [emitInstPcRecord fid bb (NextMemInstId st)] else [])
       /\ (if isMemInst Ins
           then InstId <$> (visitInstruction En DL F fid ids bb st Ins).2
                = Some (NextMemInstId st)
           else True).
Proof.
  split.
  - unfold run.
    rewrite (count_run isInstPcRecord isMemInst env M).
    + rewrite countb_mem.
      destruct (negb (isStaticOnlyMode env)); simpl; unfold countb; simpl; lia.
    + intros. apply visitInstruction_records_count.
    + intros. split; by apply insertEntryHooks_count.
  - intros. split; [apply visitInstruction_records|].
    unfold visitInstruction, isMemInst, isLoadInst, isStoreInst.
    by destruct (opcode Ins).
Qed.

(** C1 as stated fails: a block that calls [h] and returns has one
    instrumented call and gets no record. *)
Lemma call_sites_get_no_record :
  countb isInstPcRecord
    (moduleInsts (outModule (run Samples.envInstrumented Samples.calling)))
  = 0%nat
  /\ (countb isLoadInst (eligibleInsts Samples.calling)
      + countb isStoreInst (eligibleInsts Samples.calling)
      + countb isInstrumentedCall (eligibleInsts Samples.calling))%nat
     = 1%nat.
Proof. split; vm_compute; reflexivity. Qed.

(** ** Calls of the runtime *)

(** C2, as the code has it.  A call of a function whose name begins with
    [__bbtrace_] ends the turn of the instruction loop at once: the
    counters stay as they are, nothing is inserted, and no entry is pushed
    for it, so the descriptor lists exactly the other instructions: its
    texts are, one for one and in order, texts of the instructions of the
    eligible functions that are not runtime calls (as the printer gives
    them when they are visited; in a static-only run, or when no text
    names an unnamed value, as they are in the input). *)
Theorem runtime_call_is_passed_over :
  (forall En DL F fid ids bb st suffix args text,
      visitInstruction En DL F fid ids bb st
        (mkInst (OpCall (CalleeFunction (runtimePrefix +:+ suffix)) args)
                text)
      = (st, [], None))
  /\ (forall env M,
        Forall2 (fun text I => exists h, text = printInstruction h I)
          (listedTexts (StaticInfos (run env M)))
          (List.filter notRuntime (eligibleInsts M)))
  /\ (forall env M,
        isStaticOnlyMode env = true
        \/ Forall textIgnoresInsertions (eligibleInsts M) ->
        listedTexts (StaticInfos (run env M)) =
        map (printInstruction [])
          (List.filter notRuntime (eligibleInsts M))).
Proof.
  split; [|split].
  - intros. apply visitInstruction_runtime.
    unfold isRuntimeCallInst, isBbtraceRuntimeCall. simpl.
    apply starts_with_runtimePrefix.
  - intros. apply run_texts.
  - intros env M [Hs|Hfix]; [by apply run_static_texts|].
    apply texts_fixed; [apply run_texts|].
    apply Forall_forall. intros I HI.
    apply list_elem_of_In, List.filter_In in HI as [HI _].
    rewrite Forall_forall in Hfix. apply Hfix. by apply list_elem_of_In.
Qed.

(** C2 as stated fails: the call of [__bbtrace_helper] is not in the
    descriptor of its block, which lists the return alone. *)
Lemma runtime_call_absent_from_descriptor :
  isRuntimeCallInst (Samples.callTo "__bbtrace_helper" []) = true
  /\ map (fun i => (Kind i, Buffer i))
       (concat (map Instructions
          (StaticInfos (run Samples.envInstrumented Samples.callingRuntime))))
     = [(Generic, "  ret void")].
Proof. split; vm_compute; reflexivity. Qed.

(** ** Static-only mode *)

(** C3, as the code has it.  With the static-only flag set the pass adds
    no constructor, no destructor and no function, and inserts no call of
    the runtime; it still puts an inline-assembly record in front of every
    load and store of the eligible blocks, and these records are all it
    inserts; the only global it adds is the PC map. *)
Theorem static_only_inserts_records_only (env : Env) (M : IRModule) :
  isStaticOnlyMode env = true ->
  let out := outModule (run env M) in
  globalCtors out = globalCtors M
  /\ globalDtors out = globalDtors M
  /\ map fname (functions out) = map fname (functions M)
  /\ countb isRuntimeCallInst (moduleInsts out) =
     countb isRuntimeCallInst (moduleInsts M)
  /\ countb isInstPcRecord (moduleInsts out) =
     (countb isInstPcRecord (moduleInsts M)
      + countb isMemInst (eligibleInsts M))%nat
  /\ length (moduleInsts out) =
     (length (moduleInsts M) + countb isMemInst (eligibleInsts M))%nat
  /\ globals out =
     globals M
     ++ match PcInfos (run env M) with
        | [] => []
        | pcs =>
            [mkGlobal pcMapGlobal true true false
               (InitArray (map (pcMapEntry (getDataLayout M)) pcs))
               ".bbtrace_map" (getPointerSize (getDataLayout M))]
        end.
Proof.
  intros Hs out. subst out. unfold run.
  destruct (instrumentModule_module env M) as (_ & _ & _ & _ & _ & Hg & _).
  cbv zeta in Hg. rewrite Hs in Hg. cbn [negb] in Hg.
  destruct (instrumentModule_functions env M)
    as (extra & hooks & Hf & _ & _ & Hx).
  pose proof (count_run isRuntimeCallInst (fun _ => false) env M) as Hr.
  pose proof (count_run isInstPcRecord isMemInst env M) as Hp.
  pose proof (count_run (fun _ => true) isMemInst env M) as Hl.
  cbv zeta in *. rewrite Hs in *. cbn [negb] in *.
  destruct Hx as (-> & -> & Hc & Hd).
  rewrite !app_nil_r in Hf.
  repeat split.
  - exact Hc.
  - exact Hd.
  - rewrite Hf. apply instrumentFunctions_names.
  - rewrite Hr.
    + assert (H0 : forall l : list Instruction,
                 countb (fun _ => false) l = 0%nat).
      { intros l. unfold countb. by induction l. }
      rewrite H0. lia.
    + intros. rewrite visitInstruction_static.
      by destruct (isMemInst Ins) eqn:E.
    + done.
  - rewrite Hp; [lia| |done].
    intros. apply visitInstruction_records_count.
  - rewrite <- !countb_true. rewrite Hl; [lia| |done].
    intros. rewrite visitInstruction_static.
    by destruct (isMemInst Ins).
  - rewrite Hg. by destruct (PcInfos (instrumentModule env M)).
Qed.

Lemma static_only_inserts_records_only_witness :
  isStaticOnlyMode Samples.envStaticOnly = true
  /\ length (moduleInsts
               (outModule (run Samples.envStaticOnly Samples.straightLine)))
     = (length (moduleInsts Samples.straightLine)
        + countb isMemInst (eligibleInsts Samples.straightLine))%nat.
Proof.
  split; [reflexivity|].
  apply (static_only_inserts_records_only Samples.envStaticOnly
           Samples.straightLine).
  reflexivity.
Defined.

(** C3 as stated fails: in static-only mode the module of two loads and a
    store is changed, three records being put into it. *)
Lemma static_only_still_emits_records :
  isStaticOnlyMode Samples.envStaticOnly = true
  /\ countb isInstPcRecord (moduleInsts Samples.straightLine) = 0%nat
  /\ countb isInstPcRecord
       (moduleInsts (outModule (run Samples.envStaticOnly Samples.straightLine)))
     = 3%nat
  /\ length (moduleInsts Samples.straightLine) = 4%nat
  /\ length
       (moduleInsts (outModule (run Samples.envStaticOnly Samples.straightLine)))
     = 7%nat.
Proof. repeat split; vm_compute; reflexivity. Qed.

(** ** Instruction ids *)

Lemma countb_le_length {A : Type} (P : A -> bool) (l : list A) :
  (countb P l <= length l)%nat.
Proof. unfold countb. apply List.filter_length_le. Qed.

Lemma infoIds_app P a b : infoIds P (a ++ b) = infoIds P a ++ infoIds P b.
Proof. unfold infoIds. by rewrite List.filter_app, map_app. Qed.

(** One class of ids: its counter, the kind of its entries, the
    instructions that draw from it. *)
Section IdClass.

Variable get : IdCounters -> Z.
Variable K : InstKind -> bool.
Variable Q : Instruction -> bool.

Hypothesis Hstep : forall En DL F fid ids bb st Ins,
  get (visitInstruction En DL F fid ids bb st Ins).1.1 =
    (if Q Ins then wrap32 (get st + 1) else get st)
  /\ infoIds K (option_list (visitInstruction En DL F fid ids bb st Ins).2) =
    (if Q Ins then [get st] else []).

Lemma ids_visitInstructions En DL F fid ids bb st l :
  0 <= get st ->
  get st + Z.of_nat (countb Q l) < 2 ^ 32 ->
  get (visitInstructions En DL F fid ids bb st l).1.1 =
    get st + Z.of_nat (countb Q l)
  /\ infoIds K (visitInstructions En DL F fid ids bb st l).2 =
    seqZ (get st) (Z.of_nat (countb Q l)).
Proof.
  revert st. induction l as [|x l IH]; intros st H0 Hb.
  - change (countb Q []) with 0%nat. simpl. split; [lia|done].
  - rewrite countb_cons in Hb |- *. simpl.
    destruct (Hstep En DL F fid ids bb st x) as [Hg Hi].
    destruct (visitInstruction En DL F fid ids bb st x) as [[s1 ins] info].
    simpl in Hg, Hi.
    specialize (IH s1).
    destruct (visitInstructions En DL F fid ids bb s1 l) as [[s2 o] infos].
    simpl in *. rewrite infoIds_app, Hi.
    destruct (Q x).
    + assert (Hs1 : get s1 = get st + 1).
      { rewrite Hg. unfold wrap32. apply Z.mod_small. lia. }
      destruct IH as [IH1 IH2]; [lia|lia|].
      rewrite IH1, IH2, Hs1. split; [lia|].
      rewrite (seqZ_cons (get st)) by lia. simpl.
      do 2 f_equal; lia.
    + rewrite Hg in IH. destruct IH as [IH1 IH2]; [lia|lia|].
      simpl. split; [lia|]. by rewrite IH2.
Qed.

Lemma ids_instrumentBlock En DL F fid ids loops st BB :
  0 <= get st ->
  get st + Z.of_nat (countb Q (insts BB)) < 2 ^ 32 ->
  get (instrumentBlock En DL F fid ids loops st BB).1.1.1 =
    get st + Z.of_nat (countb Q (insts BB))
  /\ infoIds K
       (Instructions (instrumentBlock En DL F fid ids loops st BB).1.2) =
    seqZ (get st) (Z.of_nat (countb Q (insts BB))).
Proof.
  intros H0 Hb. unfold instrumentBlock.
  set (bb := lookupId ids (bkey BB)).
  set (addr := if isEntryBlock F BB then _ else _).
  destruct (visit_entryHooks En En DL F fid ids loops BB bb addr st)
    as [Ha Hc].
  destruct (ids_visitInstructions En DL F fid ids bb st (insts BB) H0 Hb)
    as [Hd He].
  destruct (visitInstructions En DL F fid ids bb st
              (insertEntryHooks En F fid loops BB bb addr)) as [[s1 o1] i1].
  simpl in *. by rewrite Ha, Hc.
Qed.

Lemma ids_instrumentBlocks En DL F fid ids loops st bbs :
  0 <= get st ->
  get st + Z.of_nat (countb Q (concat (map insts bbs))) < 2 ^ 32 ->
  idsOfKind K (instrumentBlocks En DL F fid ids loops st bbs).1.2 =
  seqZ (get st) (Z.of_nat (countb Q (concat (map insts bbs)))).
Proof.
  revert st. induction bbs as [|BB bbs IH]; intros st H0 Hb; [done|].
  simpl in Hb |- *. rewrite countb_app in Hb |- *.
  destruct (ids_instrumentBlock En DL F fid ids loops st BB H0) as [Hg Hi];
    [lia|].
  destruct (instrumentBlock En DL F fid ids loops st BB)
    as [[[s1 b1] i1] p1].
  simpl in Hg, Hi.
  specialize (IH s1).
  destruct (instrumentBlocks En DL F fid ids loops s1 bbs) as [[x y] z].
  unfold idsOfKind in *. simpl in *.
  rewrite infoIds_app, Hi, IH by lia.
  rewrite Hg, Nat2Z.inj_add. symmetry. apply seqZ_app; lia.
Qed.

Hypothesis Hinit : get (mkCounters 0 0 0 []) = 0.

Lemma ids_instrumentFunction En DL F fid :
  Z.of_nat (length (functionInsts F)) < 2 ^ 32 ->
  idsOfKind K (instrumentFunction En DL F fid).1.2 =
  seqZ 0 (Z.of_nat (countb Q (functionInsts F))).
Proof.
  intros Hb. unfold instrumentFunction.
  set (ids := assignBlockIds (blocks F) 0 ∅).
  set (loops := if En then _ else _).
  pose proof (ids_instrumentBlocks En DL F fid ids loops (mkCounters 0 0 0 [])
                (blocks F)) as H.
  rewrite Hinit in H.
  destruct (instrumentBlocks En DL F fid ids loops _ _) as [[x y] z].
  simpl in *. apply H; [lia|].
  pose proof (countb_le_length Q (functionInsts F)).
  unfold functionInsts in *. lia.
Qed.

End IdClass.

(** C5.  In a function of fewer than [2^32] instructions, the ids of the
    load and store entries, read off the descriptor records in block and
    instruction order, are [0, 1, ..., Nmem-1] where [Nmem] is the number
    of loads and stores of the function; likewise the ids of the branch
    entries and the ids of the entries of instrumented calls; and the
    records are the same with and without instrumentation in everything
    but the printed texts of their entries (kinds, ids, branch targets,
    block and function ids and names, loop header), and in the texts too
    when no instruction's text names an unnamed value. *)
Theorem inst_ids_dense_per_class (En : bool) (DL : DataLayout) (F : Function)
    (fid : Z) :
  Z.of_nat (length (functionInsts F)) < 2 ^ 32 ->
  let Infos := (instrumentFunction En DL F fid).1.2 in
  idsOfKind isMemKind Infos =
    seqZ 0 (Z.of_nat (countb isMemInst (functionInsts F)))
  /\ idsOfKind isBranchKind Infos =
    seqZ 0 (Z.of_nat (countb isBranchInst (functionInsts F)))
  /\ idsOfKind isCallKind Infos =
    seqZ 0 (Z.of_nat (countb isInstrumentedCall (functionInsts F)))
  /\ map recordSkeleton Infos =
     map recordSkeleton (instrumentFunction (negb En) DL F fid).1.2
  /\ (Forall textIgnoresInsertions (functionInsts F) ->
      Infos = (instrumentFunction (negb En) DL F fid).1.2).
Proof.
  intros Hb Infos. subst Infos.
  split; [|split; [|split; [|split]]].
  - apply (ids_instrumentFunction NextMemInstId); [|done|done].
    intros. unfold visitInstruction, isMemInst, isLoadInst, isStoreInst.
    destruct (opcode Ins) as [| | | | | |callee args| |]; simpl; try done.
    destruct (isBbtraceRuntimeCall callee); simpl; [done|].
    by destruct (negb (isIntrinsicInst callee) && negb (isInlineAsmCall callee)).
  - apply (ids_instrumentFunction NextBranchInstId); [|done|done].
    intros. unfold visitInstruction, isBranchInst.
    destruct (opcode Ins) as [| | | | | |callee args| |]; simpl; try done.
    destruct (isBbtraceRuntimeCall callee); simpl; [done|].
    by destruct (negb (isIntrinsicInst callee) && negb (isInlineAsmCall callee)).
  - apply (ids_instrumentFunction NextCallInstId); [|done|done].
    intros. unfold visitInstruction, isInstrumentedCall.
    destruct (opcode Ins) as [| | | | | |callee args| |]; simpl; try done.
    destruct (isBbtraceRuntimeCall callee); simpl; [by rewrite andb_false_r|].
    rewrite !andb_true_r.
    by destruct (negb (isIntrinsicInst callee) && negb (isInlineAsmCall callee)).
  - apply instrumentFunction_mode.
  - intros Hfix.
    assert (Hfix' : Forall textIgnoresInsertions
                      (List.filter notRuntime (functionInsts F))).
    { apply Forall_forall. intros I HI.
      apply list_elem_of_In, List.filter_In in HI as [HI _].
      rewrite Forall_forall in Hfix. apply Hfix. by apply list_elem_of_In. }
    assert (HT : forall b,
               listedTexts (instrumentFunction b DL F fid).1.2 =
               map (printInstruction [])
                 (List.filter notRuntime (functionInsts F))).
    { intros b. apply texts_fixed; [|exact Hfix'].
      unfold listedTexts. apply Forall2_fmap_l.
      apply (instrumentFunction_texts b DL F fid). }
    apply records_eq; [apply instrumentFunction_mode|].
    by rewrite !HT.
Qed.

Lemma inst_ids_dense_per_class_witness :
  Z.of_nat (length (functionInsts Samples.fStraight)) < 2 ^ 32
  /\ idsOfKind isMemKind
       (instrumentFunction true Samples.DL64 Samples.fStraight 0).1.2
     = [0; 1; 2].
Proof.
  split; [vm_compute; reflexivity|].
  apply (inst_ids_dense_per_class true Samples.DL64 Samples.fStraight 0).
  vm_compute. reflexivity.
Defined.

(** ** Addresses in the PC map *)

Lemma instrumentBlocks_pcs En DL F fid ids loops st bbs :
  (instrumentBlocks En DL F fid ids loops st bbs).2 =
  map (fun BB => mkPcInfo fid (lookupId ids (bkey BB)) (blockAddrConst F BB))
      bbs.
Proof.
  revert st. induction bbs as [|BB bbs IH]; intros st; [done|].
  simpl.
  assert (Hp : (instrumentBlock En DL F fid ids loops st BB).2 =
               mkPcInfo fid (lookupId ids (bkey BB)) (blockAddrConst F BB)).
  { unfold instrumentBlock.
    by destruct (visitInstructions _ _ _ _ _ _ _ _) as [[? ?] ?]. }
  destruct (instrumentBlock En DL F fid ids loops st BB) as [[[s1 b1] i1] p1].
  specialize (IH s1).
  destruct (instrumentBlocks En DL F fid ids loops s1 bbs) as [[x y] z].
  simpl in *. by rewrite Hp, IH.
Qed.

Lemma instrumentFunction_pcs En DL F fid :
  (instrumentFunction En DL F fid).2 =
  map (fun BB =>
         mkPcInfo fid (lookupId (assignBlockIds (blocks F) 0 ∅) (bkey BB))
           (blockAddrConst F BB))
      (blocks F).
Proof.
  unfold instrumentFunction.
  set (ids := assignBlockIds (blocks F) 0 ∅).
  set (loops := if En then _ else _).
  pose proof (instrumentBlocks_pcs En DL F fid ids loops (mkCounters 0 0 0 [])
                (blocks F)) as H.
  by destruct (instrumentBlocks En DL F fid ids loops _ _) as [[x y] z].
Qed.

(** With distinct block keys, the entry block is the block at index 0 and
    no other. *)
Lemma isEntryBlock_index F i BB :
  NoDup (map bkey (blocks F)) ->
  blocks F !! i = Some BB ->
  isEntryBlock F BB = bool_decide (i = 0%nat).
Proof.
  unfold isEntryBlock. intros Hnd Hi.
  destruct (blocks F) as [|E rest]; [done|].
  destruct i as [|i]; simpl in *.
  - inversion Hi. subst. by rewrite !bool_decide_eq_true_2.
  - apply bool_decide_eq_false_2. intros Heq.
    apply NoDup_cons in Hnd as [Hnotin _]. apply Hnotin.
    rewrite <- Heq. apply list_elem_of_fmap. exists BB. split; [done|].
    by eapply list_elem_of_lookup_2.
Qed.

Lemma instrumentFunction_pc_entry En DL F fid i BB :
  NoDup (map bkey (blocks F)) ->
  blocks F !! i = Some BB ->
  (instrumentFunction En DL F fid).2 !! i =
  Some (mkPcInfo fid (lookupId (assignBlockIds (blocks F) 0 ∅) (bkey BB))
          (if bool_decide (i = 0%nat) then PointerCast (FunctionPtr (fkey F))
           else BlockAddress (fkey F) (bkey BB))).
Proof.
  intros Hnd Hi.
  rewrite instrumentFunction_pcs, list_lookup_fmap, Hi. simpl.
  unfold blockAddrConst. by rewrite (isEntryBlock_index F i BB Hnd Hi).
Qed.

(** The PC-map entries of the function loop are those of the eligible
    functions, one function after the other. *)
Lemma instrumentFunctions_pcs En DL fs fid :
  (instrumentFunctions En DL fs fid).1.2 =
  concat (map (fun p => (instrumentFunction En DL p.1 p.2).2)
              (eligibleWithIds fs fid)).
Proof.
  revert fid. induction fs as [|F fs IH]; intros fid; [done|].
  simpl. unfold isEligible.
  destruct (isDeclaration F); simpl.
  { specialize (IH fid).
    by destruct (instrumentFunctions En DL fs fid) as [[[? ?] ?] ?]. }
  destruct (starts_with (fname F) runtimePrefix); simpl.
  { specialize (IH fid).
    by destruct (instrumentFunctions En DL fs fid) as [[[? ?] ?] ?]. }
  destruct (instrumentFunction En DL F fid) as [[F' i1] p1].
  specialize (IH (wrap32 (fid + 1))).
  destruct (instrumentFunctions En DL fs _) as [[[? ?] ?] ?].
  simpl in *. by rewrite IH.
Qed.

(** Every entry of the PC map is the entry of one block of one eligible
    function. *)
Lemma instrumentFunctions_pc_origin En DL fs fid0 pc :
  pc ∈ (instrumentFunctions En DL fs fid0).1.2 ->
  exists G gid k B,
    (G, gid) ∈ eligibleWithIds fs fid0
    /\ blocks G !! k = Some B
    /\ pc = mkPcInfo gid (lookupId (assignBlockIds (blocks G) 0 ∅) (bkey B))
               (blockAddrConst G B).
Proof.
  rewrite instrumentFunctions_pcs. intros Hin.
  apply list_elem_of_In, List.in_concat in Hin as (l & Hl & Hpc).
  apply List.in_map_iff in Hl as ([G gid] & <- & HG).
  simpl in Hpc. rewrite instrumentFunction_pcs in Hpc.
  apply List.in_map_iff in Hpc as (B & <- & HB).
  apply list_elem_of_In, list_elem_of_lookup in HB as [k Hk].
  exists G, gid, k, B. split; [by apply list_elem_of_In|done].
Qed.

(** C6.  The PC map is, in order, the entries of the eligible functions
    one function after the other, and a function's entries are one per
    block in block order, each holding the function's id, the block's id
    and the block's address constant: no other entry is in it.  Take an
    eligible function of the module, with the id the pass gives it, whose
    blocks have distinct identities.  For its block at index [i] the PC
    map has an entry holding the function's id, the block's id, and as
    address the function pointer when [i = 0] (the entry block) and the
    block-address constant of that block otherwise; the array element made
    of it converts that address to a pointer-sized integer, and the array
    of these elements is what the pass puts in [.bbtrace_map].  At run
    time the entry block's address is the function's address and any
    other block's is that block's address.  Conversely every entry of the
    PC map is the entry of a block at some index [k] of an eligible
    function, and when that function's blocks have distinct identities
    its address is the function pointer exactly when [k = 0]: the entry
    of a block that is not the entry block holds that block's
    block-address constant, never a function pointer. *)
Theorem pc_map_entry_addresses (env : Env) (M : IRModule) (F : Function)
    (fid : Z) (i : nat) (BB : BasicBlock) :
  (F, fid) ∈ eligibleWithIds (functions M) 0 ->
  NoDup (map bkey (blocks F)) ->
  blocks F !! i = Some BB ->
  exists pc,
    pc ∈ PcInfos (run env M)
    /\ pcFuncId pc = fid
    /\ pcBbId pc = lookupId (assignBlockIds (blocks F) 0 ∅) (bkey BB)
    /\ Address pc =
         (if bool_decide (i = 0%nat) then PointerCast (FunctionPtr (fkey F))
          else BlockAddress (fkey F) (bkey BB))
    /\ pcMapEntry (getDataLayout M) pc =
         (constI32 fid, constI32 (pcBbId pc),
          PtrToInt (Address pc) (getPointerSizeInBits (getDataLayout M) 0%N))
    /\ (forall st,
          evalValue (getDataLayout M) st (Address pc) =
          if bool_decide (i = 0%nat) then functionAddr st (fkey F)
          else blockAddr st (fkey F) (bkey BB))
    /\ sectionContents (outModule (run env M)) ".bbtrace_map" =
       sectionContents M ".bbtrace_map"
       ++ [InitArray (map (pcMapEntry (getDataLayout M)) (PcInfos (run env M)))]
    /\ PcInfos (run env M) =
       concat
         (map (fun p : Function * Z =>
                 map (fun B =>
                        mkPcInfo p.2
                          (lookupId (assignBlockIds (blocks p.1) 0 ∅) (bkey B))
                          (blockAddrConst p.1 B))
                     (blocks p.1))
              (eligibleWithIds (functions M) 0))
    /\ (forall q,
          q ∈ PcInfos (run env M) ->
          exists G gid k B,
            (G, gid) ∈ eligibleWithIds (functions M) 0
            /\ blocks G !! k = Some B
            /\ pcFuncId q = gid
            /\ pcBbId q = lookupId (assignBlockIds (blocks G) 0 ∅) (bkey B)
            /\ Address q = blockAddrConst G B
            /\ (NoDup (map bkey (blocks G)) ->
                (k = 0%nat -> Address q = PointerCast (FunctionPtr (fkey G)))
                /\ (k <> 0%nat ->
                    Address q = BlockAddress (fkey G) (bkey B)
                    /\ forall H, Address q <> PointerCast (FunctionPtr H)))).
Proof.
  intros HF Hnd Hi. unfold run.
  pose proof (instrumentFunction_pc_entry false (getDataLayout M) F fid i BB
                Hnd Hi) as Hpc.
  set (pc := mkPcInfo fid _ _) in Hpc.
  assert (Hin : pc ∈ PcInfos (instrumentModule env M)).
  { destruct (instrumentModule_infos env M) as (_ & -> & _).
    rewrite instrumentFunctions_pcs.
    apply list_elem_of_In, List.in_concat.
    exists (instrumentFunction false (getDataLayout M) F fid).2. split.
    - apply List.in_map_iff. exists (F, fid). split; [done|].
      by apply list_elem_of_In.
    - apply list_elem_of_In. by eapply list_elem_of_lookup_2. }
  exists pc. split; [done|]. do 4 (split; [done|]).
  split; [|split; [|split]].
  - intros st. subst pc. simpl. by case_bool_decide.
  - rewrite sectionContents_run.
    destruct (PcInfos (instrumentModule env M)); [|done].
    by apply elem_of_nil in Hin.
  - destruct (instrumentModule_infos env M) as (_ & -> & _).
    rewrite instrumentFunctions_pcs. f_equal.
    apply map_ext. intros [G gid]. apply instrumentFunction_pcs.
  - intros q Hq.
    destruct (instrumentModule_infos env M) as (_ & Hpcs & _).
    rewrite Hpcs in Hq.
    destruct (instrumentFunctions_pc_origin _ _ _ _ _ Hq)
      as (G & gid & k & B & HG & HB & ->).
    exists G, gid, k, B. do 5 (split; [done|]).
    intros HndG. simpl. unfold blockAddrConst.
    rewrite (isEntryBlock_index G k B HndG HB).
    split; intros Hk.
    + by rewrite bool_decide_eq_true_2.
    + by rewrite bool_decide_eq_false_2.
Qed.

Lemma gBranch_keys_distinct : NoDup (map bkey (blocks Samples.gBranch)).
Proof. apply (bool_decide_unpack _). vm_compute. exact I. Qed.

Lemma pc_map_entry_addresses_witness :
  (Samples.gBranch, 0) ∈ eligibleWithIds (functions Samples.branching) 0
  /\ NoDup (map bkey (blocks Samples.gBranch))
  /\ exists pc,
       pc ∈ PcInfos (run Samples.envInstrumented Samples.branching)
       /\ pcBbId pc = 1
       /\ Address pc = BlockAddress 2 21
       /\ map Address (PcInfos (run Samples.envInstrumented Samples.branching))
          = [PointerCast (FunctionPtr 2); BlockAddress 2 21;
             BlockAddress 2 22].
Proof.
  assert (He : (Samples.gBranch, 0)
               ∈ eligibleWithIds (functions Samples.branching) 0)
    by apply list_elem_of_here.
  pose proof gBranch_keys_distinct as Hnd.
  split; [exact He|]. split; [exact Hnd|].
  destruct (pc_map_entry_addresses Samples.envInstrumented Samples.branching
              Samples.gBranch 0 1
              (mkBlock 21 "B1" [mkInst (OpBr 22) (fixedText "br label %B2")])
              He Hnd eq_refl)
    as (pc & H1 & _ & H2 & H3 & _ & _ & _ & H4 & _).
  exists pc. split; [exact H1|]. split; [exact H2|]. split; [exact H3|].
  rewrite H4. reflexivity.
Defined.

(** ** Branches *)

Lemma visitInstructions_member En DL F fid ids bb st l Ins :
  Ins ∈ l ->
  exists st0,
    (forall x, x ∈ (visitInstruction En DL F fid ids bb st0 Ins).1.2 ->
               x ∈ (visitInstructions En DL F fid ids bb st l).1.2)
    /\ (forall i, (visitInstruction En DL F fid ids bb st0 Ins).2 = Some i ->
                  i ∈ (visitInstructions En DL F fid ids bb st l).2)
    /\ (En = false -> Inserted st0 = Inserted st).
Proof.
  revert st. induction l as [|x l IH]; intros st Hin.
  - by apply elem_of_nil in Hin.
  - simpl. apply elem_of_cons in Hin as [->|Hin].
    + exists st.
      destruct (visitInstruction En DL F fid ids bb st x) as [[s1 ins] info].
      destruct (visitInstructions En DL F fid ids bb s1 l) as [[s2 o] infos].
      simpl. split; [|split; [|done]].
      * intros y Hy. apply elem_of_app. by left.
      * intros i ->. apply elem_of_app. left. simpl. apply list_elem_of_here.
    + assert (Hs : En = false ->
                   Inserted (visitInstruction En DL F fid ids bb st x).1.1 =
                   Inserted st)
        by (intros ->; apply visitInstruction_static_inserted).
      destruct (visitInstruction En DL F fid ids bb st x) as [[s1 ins] info].
      destruct (IH s1 Hin) as (st0 & Ha & Hb & Hc). exists st0.
      destruct (visitInstructions En DL F fid ids bb s1 l) as [[s2 o] infos].
      simpl in *. split; [|split].
      * intros y Hy. apply elem_of_app. right. apply elem_of_cons. right.
        by apply Ha.
      * intros i Hi. apply elem_of_app. right. by apply Hb.
      * intros HE. rewrite (Hc HE). by apply Hs.
Qed.

Lemma elem_of_insertBefore n (h x : Instruction) l :
  x ∈ l -> x ∈ insertBefore n h l.
Proof.
  unfold insertBefore. rewrite <- (take_drop n l) at 1.
  rewrite !elem_of_app, elem_of_cons. tauto.
Qed.

Lemma elem_of_insertEntryHooks En F fid loops BB bb addr x :
  x ∈ insts BB -> x ∈ insertEntryHooks En F fid loops BB bb addr.
Proof.
  intros Hx. unfold insertEntryHooks. destruct En; [|done].
  destruct (getLoopFor (loopInfo F) (bkey BB)) as [L|].
  - case_bool_decide; repeat apply elem_of_insertBefore; done.
  - by apply elem_of_insertBefore.
Qed.

Lemma instrumentBlocks_lookup En DL F fid ids loops st bbs j BB :
  bbs !! j = Some BB ->
  exists st',
    (instrumentBlocks En DL F fid ids loops st bbs).1.1 !! j =
      Some (instrumentBlock En DL F fid ids loops st' BB).1.1.2
    /\ (instrumentBlocks En DL F fid ids loops st bbs).1.2 !! j =
      Some (instrumentBlock En DL F fid ids loops st' BB).1.2
    /\ (En = false -> Inserted st' = Inserted st).
Proof.
  revert st j. induction bbs as [|B bbs IH]; intros st j Hj; [done|].
  simpl. destruct j as [|j]; simpl in Hj.
  - inversion Hj. subst. exists st.
    destruct (instrumentBlock En DL F fid ids loops st BB)
      as [[[s1 b1] i1] p1].
    by destruct (instrumentBlocks En DL F fid ids loops s1 bbs) as [[x y] z].
  - assert (Hs : En = false ->
                 Inserted (instrumentBlock En DL F fid ids loops st B).1.1.1 =
                 Inserted st)
      by (intros ->; apply instrumentBlock_static).
    destruct (instrumentBlock En DL F fid ids loops st B)
      as [[[s1 b1] i1] p1].
    destruct (IH s1 j Hj) as (st' & Ha & Hb & Hc). exists st'.
    destruct (instrumentBlocks En DL F fid ids loops s1 bbs) as [[x y] z].
    simpl in *. split; [done|]. split; [done|].
    intros HE. rewrite (Hc HE). by apply Hs.
Qed.

(** What a block of the function becomes: the rewritten block and its
    record come from one run of [instrumentBlock], and whatever a turn of
    the instruction loop inserts or lists for an instruction of the block
    is in them. *)
Lemma instrumentFunction_member En DL F fid j BB Ins :
  blocks F !! j = Some BB ->
  Ins ∈ insts BB ->
  let ids := assignBlockIds (blocks F) 0 ∅ in
  exists BB' Info st0,
    blocks (instrumentFunction En DL F fid).1.1 !! j = Some BB'
    /\ (instrumentFunction En DL F fid).1.2 !! j = Some Info
    /\ FuncId Info = fid
    /\ BbId Info = lookupId ids (bkey BB)
    /\ (forall x,
          x ∈ (visitInstruction En DL F fid ids (BbId Info) st0 Ins).1.2 ->
          x ∈ insts BB')
    /\ (forall i,
          (visitInstruction En DL F fid ids (BbId Info) st0 Ins).2 = Some i ->
          i ∈ Instructions Info)
    /\ (En = false -> Inserted st0 = []).
Proof.
  intros Hj Hin ids. unfold instrumentFunction. fold ids.
  set (loops := if En then _ else _).
  destruct (instrumentBlocks_lookup En DL F fid ids loops (mkCounters 0 0 0 [])
              (blocks F) j BB Hj) as (st' & Ha & Hb & Hst).
  destruct (instrumentBlocks En DL F fid ids loops _ _) as [[x y] z].
  simpl in *. rewrite Ha, Hb. clear Ha Hb.
  unfold instrumentBlock.
  set (bb := lookupId ids (bkey BB)).
  set (addr := if isEntryBlock F BB then _ else _).
  destruct (visitInstructions_member En DL F fid ids bb st'
              (insertEntryHooks En F fid loops BB bb addr) Ins
              (elem_of_insertEntryHooks _ _ _ _ _ _ _ _ Hin))
    as (st0 & Hc & Hd & He).
  destruct (visitInstructions En DL F fid ids bb st' _) as [[s1 o1] i1].
  simpl in *. eexists _, _, st0. repeat split; try done.
  intros HE. rewrite (He HE). by apply Hst.
Qed.

(** C7.  Take a branch in a block of a function.  The record of the block
    has an entry of kind branch holding the branch's text (as the printer
    gives it when the branch is visited, which without instrumentation,
    or when the text names no unnamed value, is its text in the input)
    and, as targets, the ids of its
    successors: two for a conditional branch, the true-successor's first,
    one for an unconditional branch.  With instrumentation the rewritten
    block holds a call of the branch hook whose taken-block and
    taken-address operands are, for a conditional branch, selects on the
    branch condition between the values of successor 0 and of successor 1,
    and the select instructions the builder makes for them are in the
    block as well.  The id written for a successor is the [bb_id] of that
    block's own record, and a select is its second operand when the
    condition is true and its third when false. *)
Theorem branch_targets_and_taken_select (En : bool) (DL : DataLayout)
    (F : Function) (fid : Z) (j : nat) (BB : BasicBlock) (Ins : Instruction) :
  blocks F !! j = Some BB ->
  Ins ∈ insts BB ->
  let ids := assignBlockIds (blocks F) 0 ∅ in
  (exists BB' Info,
      blocks (instrumentFunction En DL F fid).1.1 !! j = Some BB'
      /\ (instrumentFunction En DL F fid).1.2 !! j = Some Info
      /\ BbId Info = lookupId ids (bkey BB)
      /\ match opcode Ins with
         | OpCondBr c s0 s1 =>
             exists info,
               info ∈ Instructions Info
               /\ Kind info = Branch
               /\ (exists h, Buffer info = printInstruction h Ins)
               /\ (En = false \/ textIgnoresInsertions Ins ->
                   Buffer info = printInstruction [] Ins)
               /\ BranchTargets info = [lookupId ids s0; lookupId ids s1]
               /\ (En = true ->
                   hookCall BranchHook
                     [constI32 fid; constI32 (BbId Info);
                      constI32 (InstId info);
                      Select c (constI32 (lookupId ids s0))
                               (constI32 (lookupId ids s1));
                      Select c (PointerCast (BlockAddress (fkey F) s0))
                               (PointerCast (BlockAddress (fkey F) s1))]
                   ∈ insts BB'
                   /\ forall x,
                        x ∈ CreateSelect_inserts c
                              (constI32 (lookupId ids s0))
                              (constI32 (lookupId ids s1))
                            ++ CreateSelect_inserts c
                                 (PointerCast (BlockAddress (fkey F) s0))
                                 (PointerCast (BlockAddress (fkey F) s1)) ->
                        x ∈ insts BB')
         | OpBr s0 =>
             exists info,
               info ∈ Instructions Info
               /\ Kind info = Branch
               /\ (exists h, Buffer info = printInstruction h Ins)
               /\ (En = false \/ textIgnoresInsertions Ins ->
                   Buffer info = printInstruction [] Ins)
               /\ BranchTargets info = [lookupId ids s0]
               /\ (En = true ->
                   hookCall BranchHook
                     [constI32 fid; constI32 (BbId Info);
                      constI32 (InstId info);
                      constI32 (lookupId ids s0);
                      PointerCast (BlockAddress (fkey F) s0)]
                   ∈ insts BB')
         | _ => True
         end)
  /\ (forall st c t f,
        evalValue DL st (Select c t f) =
        if Z.odd (evalValue DL st c) then evalValue DL st t
        else evalValue DL st f).
Proof.
  intros Hj Hin ids. split; [|done].
  destruct (instrumentFunction_member En DL F fid j BB Ins Hj Hin)
    as (BB' & Info & st0 & Ha & Hb & Hf & Hc & Hd & He & Hst).
  fold ids in Hc, Hd, He.
  exists BB', Info. repeat split; try done.
  assert (Htext : En = false \/ textIgnoresInsertions Ins ->
                  printInstruction (Inserted st0) Ins =
                  printInstruction [] Ins).
  { intros [HE|Ht]; [by rewrite (Hst HE)|].
    unfold printInstruction. by rewrite Ht. }
  unfold visitInstruction in Hd, He.
  destruct (opcode Ins) as [| | | |s0|c s0 s1| | |] eqn:Hop; try done.
  - simpl in Hd, He. eexists. split; [by apply He|].
    split; [done|]. split; [by eexists|].
    split; [exact Htext|].
    split; [done|].
    intros ->. apply Hd. apply list_elem_of_here.
  - simpl in Hd, He. eexists. split; [by apply He|].
    split; [done|]. split; [by eexists|].
    split; [exact Htext|].
    split; [done|].
    intros ->. split.
    + apply Hd. apply elem_of_app. right. apply list_elem_of_here.
    + intros x Hx. apply Hd. apply elem_of_app. by left.
Qed.

Lemma branch_targets_and_taken_select_witness :
  exists Info info,
    (instrumentFunction true Samples.DL64 Samples.gBranch 0).1.2 !! 0%nat
      = Some Info
    /\ info ∈ Instructions Info
    /\ BranchTargets info = [1; 2].
Proof.
  destruct (branch_targets_and_taken_select true Samples.DL64 Samples.gBranch
              0 0 (mkBlock 20 "B0" [Samples.condBr]) Samples.condBr
              eq_refl (list_elem_of_here _ _))
    as [(BB' & Info & _ & HI & _ & info & Hin & _ & _ & _ & Ht & _) _].
  exists Info, info. repeat split; [exact HI|exact Hin|exact Ht].
Defined.

(** ** Marshalling of call arguments *)

(** X24.  What [materializeCallArg] returns.  Whatever the argument, the
    marshalled value is a 64-bit integer, and marshalling adds no sign
    extension.  A pointer is converted to an integer of the recorded width
    (the pointer width of its address space, or of address space 0 should
    that be zero) and then zero-extended or truncated to 64 bits; an
    integer is zero-extended or truncated, its own width recorded; a
    floating-point value is bit-cast to an integer of its own width, then
    zero-extended or truncated, that width recorded.  For any other type
    the kind is unknown and the value is the constant 0; the width the
    code records is what is left of the 64-bit store size in bits once it
    is assigned to the [uint32_t] [BitWidth] (its low 32 bits), or 1 when
    that is zero. *)
Theorem call_arg_marshalling (DL : DataLayout) (Arg : Value) :
  let '(kind, bw, v) := materializeCallArg DL Arg in
  typeOf v = IntegerTy 64
  /\ usesSExt v = match kind with Unknown => false | _ => usesSExt Arg end
  /\ match typeOf Arg with
     | PointerTy a =>
         kind = Pointer
         /\ bw = (if getPointerSizeInBits DL a =? 0
                  then getPointerSizeInBits DL 0%N
                  else getPointerSizeInBits DL a)
         /\ forall st,
              evalValue DL st v =
              (evalValue DL st Arg mod 2 ^ Z.max bw 1) mod 2 ^ 64
     | IntegerTy b =>
         kind = Integer /\ bw = b
         /\ forall st,
              0 <= evalValue DL st Arg < 2 ^ b ->
              evalValue DL st v = evalValue DL st Arg mod 2 ^ 64
     | FloatingTy k =>
         kind = Floating /\ bw = fpSizeInBits k
         /\ forall st,
              0 <= evalValue DL st Arg < 2 ^ fpSizeInBits k ->
              evalValue DL st v = evalValue DL st Arg mod 2 ^ 64
     | OtherTy _ =>
         kind = Unknown /\ v = ConstInt 64 0
         /\ bw = (if wrap32 (getTypeStoreSizeInBits DL (typeOf Arg)) =? 0
                  then 1
                  else wrap32 (getTypeStoreSizeInBits DL (typeOf Arg)))
         /\ 1 <= bw < 2 ^ 32
     end.
Proof.
  unfold materializeCallArg. cbv zeta.
  destruct (typeOf Arg) as [a|b|k|t] eqn:HT;
    cbn [isPointerTy isIntegerTy isFloatingPointTy getPointerAddressSpace
         getIntegerBitWidth].
  - set (bw := if getPointerSizeInBits DL a =? 0 then _ else _).
    destruct (bw <? 64) eqn:H1; [|destruct (64 <? bw) eqn:H2].
    + simpl. repeat split; try done. intros st.
      apply Z.ltb_lt in H1. symmetry. apply Z.mod_small.
      pose proof (Z.mod_pos_bound (evalValue DL st Arg) (2 ^ Z.max bw 1)
                    ltac:(apply Z.pow_pos_nonneg; lia)) as Hm.
      assert (2 ^ Z.max bw 1 <= 2 ^ 64)
        by (apply Z.pow_le_mono_r; lia).
      lia.
    + simpl. repeat split; done.
    + apply Z.ltb_ge in H1, H2. assert (Hbw : bw = 64) by lia.
      rewrite Hbw. simpl. repeat split; try done.
      intros st. by rewrite Z.mod_mod.
  - destruct (b <? 64) eqn:H1; [|destruct (64 <? b) eqn:H2].
    + simpl. repeat split; try done. intros st Hr.
      apply Z.ltb_lt in H1. symmetry. apply Z.mod_small.
      assert (2 ^ b <= 2 ^ 64).
      { destruct (Z.le_gt_cases 0 b).
        - apply Z.pow_le_mono_r; lia.
        - rewrite Z.pow_neg_r by lia. lia. }
      lia.
    + simpl. repeat split; done.
    + apply Z.ltb_ge in H1, H2. assert (Hb : b = 64) by lia. subst b.
      rewrite bool_decide_eq_true_2 by done. simpl.
      repeat split; try done.
      intros st Hr. symmetry. by apply Z.mod_small.
  - simpl getScalarSizeInBits.
    assert (Hk : (fpSizeInBits k =? 0) = false) by by destruct k.
    rewrite Hk.
    destruct (fpSizeInBits k <? 64) eqn:H1;
      [|destruct (64 <? fpSizeInBits k) eqn:H2].
    + simpl. repeat split; try done. intros st Hr.
      apply Z.ltb_lt in H1. symmetry. apply Z.mod_small.
      assert (2 ^ fpSizeInBits k <= 2 ^ 64).
      { apply Z.pow_le_mono_r; lia. }
      lia.
    + simpl. repeat split; done.
    + apply Z.ltb_ge in H1, H2.
      assert (Hb : fpSizeInBits k = 64) by lia. rewrite Hb in *.
      simpl. repeat split; try done.
      intros st Hr. symmetry. by apply Z.mod_small.
  - repeat split; try done.
    + case_match; [lia|].
      pose proof (Z.mod_pos_bound (getTypeStoreSizeInBits DL (OtherTy t))
                    (2 ^ 32) ltac:(lia)) as Hm.
      unfold wrap32 in *. apply Z.eqb_neq in H. lia.
    + case_match; [lia|].
      pose proof (Z.mod_pos_bound (getTypeStoreSizeInBits DL (OtherTy t))
                    (2 ^ 32) ltac:(lia)) as Hm.
      unfold wrap32 in *. lia.
Qed.

Lemma call_arg_marshalling_witness :
  0 <= evalValue Samples.DL64 Samples.valuation (Samples.i32 0) < 2 ^ 32
  /\ evalValue Samples.DL64 Samples.valuation
       (materializeCallArg Samples.DL64 (Samples.i32 0)).2 = 42.
Proof.
  assert (Hr : 0 <= evalValue Samples.DL64 Samples.valuation (Samples.i32 0)
               < 2 ^ 32) by (simpl; lia).
  split; [exact Hr|].
  pose proof (call_arg_marshalling Samples.DL64 (Samples.i32 0)) as H.
  simpl in H. destruct H as (_ & _ & _ & _ & H).
  exact (H Samples.valuation Hr).
Defined.

(** C8.  The code departs from the claim for an argument of a type whose
    store size in bits does not fit 32 bits.  For an argument of a type of
    [2^29] bytes the store size in bits (minimum 1) is [4294967296]; the
    code records the width 1, and the call hook is handed the triple of
    kind code 0 (unknown), width 1 and value 0.  For a type of [2^29 + 1] bytes it records 8.  The
    source assigns the 64-bit result of [getTypeStoreSizeInBits] to the
    [uint32_t] [BitWidth] and only then takes the minimum. *)
Lemma huge_aggregate_bitwidth_wraps :
  Z.max (getTypeStoreSizeInBits Samples.DL64 (typeOf Samples.hugeArg)) 1
    = 4294967296
  /\ materializeCallArg Samples.DL64 Samples.hugeArg
     = (Unknown, 1, ConstInt 64 0)
  /\ marshalArgs Samples.DL64 [Samples.hugeArg]
     = [constI32 0; constI32 1; ConstInt 64 0]
  /\ Z.max (getTypeStoreSizeInBits Samples.DL64 (typeOf Samples.hugeArg')) 1
     = 4294967304
  /\ materializeCallArg Samples.DL64 Samples.hugeArg'
     = (Unknown, 8, ConstInt 64 0).
Proof. repeat split; vm_compute; reflexivity. Qed.

(** ** The PC-map global *)

(** C9, as the code has it.  When there is at least one PC-map entry, the
    last global of the returned module is the constant array of the
    entries, in the section named [.bbtrace_map], aligned to the pointer
    size of the data layout; its name is appended to the compiler-used
    list, and the used list is left as it was. *)
Theorem pc_map_global_placement (env : Env) (M : IRModule) :
  PcInfos (run env M) <> [] ->
  exists g,
    last (globals (outModule (run env M))) = Some g
    /\ gname g = pcMapGlobal
    /\ isConstant g = true
    /\ gsection g = ".bbtrace_map"
    /\ alignment g = getPointerSize (getDataLayout M)
    /\ initializer g =
         InitArray (map (pcMapEntry (getDataLayout M)) (PcInfos (run env M)))
    /\ llvmCompilerUsed (outModule (run env M)) =
         llvmCompilerUsed M ++ [pcMapGlobal]
    /\ llvmUsed (outModule (run env M)) = llvmUsed M.
Proof.
  unfold run. intros Hne.
  destruct (instrumentModule_module env M) as (_ & _ & _ & _ & Hu & Hg & Hc).
  cbv zeta in *. rewrite Hg, Hc, Hu.
  destruct (PcInfos (instrumentModule env M)) as [|pc pcs]; [done|].
  eexists. rewrite last_snoc. by repeat split.
Qed.

Lemma pc_map_global_placement_witness :
  PcInfos (run Samples.envInstrumented Samples.straightLine) <> []
  /\ exists g,
       last (globals (outModule
                        (run Samples.envInstrumented Samples.straightLine)))
         = Some g
       /\ gsection g = ".bbtrace_map" /\ alignment g = 8.
Proof.
  assert (Hne : PcInfos (run Samples.envInstrumented Samples.straightLine)
                <> []) by (vm_compute; discriminate).
  split; [exact Hne|].
  destruct (pc_map_global_placement Samples.envInstrumented
              Samples.straightLine Hne)
    as (g & H1 & _ & _ & H2 & H3 & _).
  exists g. repeat split; [exact H1|exact H2|exact H3].
Defined.

(** C9 as stated fails on the retention mark: the PC-map global is named
    in the compiler-used list only; the used list, which is the one the
    linker honours, stays empty. *)
Lemma pc_map_is_compiler_used_only :
  llvmCompilerUsed
    (outModule (run Samples.envInstrumented Samples.straightLine))
  = ["__bbtrace_pcmap"]
  /\ llvmUsed (outModule (run Samples.envInstrumented Samples.straightLine))
     = [].
Proof. split; vm_compute; reflexivity. Qed.

(** ** A module without eligible functions *)

Lemma withFunctions_same M : withFunctions M (functions M) = M.
Proof. by destruct M. Qed.

(** C10.  When no function of the module is eligible, the pass touches no
    file and makes no record and no PC-map entry: the [.bbtrace_map]
    section and the compiler-used list stay as they were.  In instrumented
    mode the module still gains the module-name global, holding the module
    identifier with its terminating NUL, and, behind the functions it had
    and at most two declarations, the function [__bbtrace_ctor] whose one
    block calls [__bbtrace_register_module] on that global and returns,
    and the function [__bbtrace_dtor] whose one block calls
    [__bbtrace_finalize] and returns; the first is entered in the global
    constructors and the second in the global destructors, both at
    priority 0.  In static-only mode the module is returned as it came. *)
Theorem nothing_eligible_nothing_emitted (env : Env) (M : IRModule) :
  Forall (fun F => isEligible F = false) (functions M) ->
  let r := run env M in
  fileEffects r = []
  /\ StaticInfos r = []
  /\ PcInfos r = []
  /\ sectionContents (outModule r) ".bbtrace_map" =
     sectionContents M ".bbtrace_map"
  /\ llvmCompilerUsed (outModule r) = llvmCompilerUsed M
  /\ (isStaticOnlyMode env = true -> outModule r = M)
  /\ (isStaticOnlyMode env = false ->
      exists decls ck dk,
        functions (outModule r) =
          functions M ++ decls
          ++ [mkFunction ck "__bbtrace_ctor"
                [mkBlock 0%N "entry"
                   [mkInst
                      (OpCall (CalleeFunction "__bbtrace_register_module")
                         [PointerCast (GlobalPtr "__bbtrace_module_name")])
                      (fixedText "");
                    retVoid]]
                noLoops;
              mkFunction dk "__bbtrace_dtor"
                [mkBlock 0%N "entry"
                   [mkInst (OpCall (CalleeFunction "__bbtrace_finalize") [])
                      (fixedText "");
                    retVoid]]
                noLoops]
        /\ Forall (fun F => isDeclaration F = true) decls
        /\ globals (outModule r) =
             globals M
             ++ [mkGlobal "__bbtrace_module_name" true true true
                   (InitString (getModuleIdentifier M) true) "" 1]
        /\ globalCtors (outModule r) = globalCtors M ++ [(ck, 0)]
        /\ globalDtors (outModule r) = globalDtors M ++ [(dk, 0)]).
Proof.
  intros Hel r. subst r. unfold run.
  destruct (instrumentModule_infos env M) as (HS & HP & HE).
  rewrite (instrumentFunctions_ineligible _ _ _ _ Hel) in HS.
  rewrite (instrumentFunctions_ineligible _ _ _ _ Hel) in HP.
  simpl in HS, HP.
  assert (Hsec := sectionContents_run env M).
  destruct (instrumentModule_module env M) as (_ & _ & _ & _ & _ & Hg & Hc).
  cbv zeta in Hg, Hc. rewrite HP in Hsec, Hg, Hc.
  rewrite !app_nil_r in *.
  repeat split; try done.
  - by rewrite HE, HS.
  - intros Hs. rewrite instrumentModule_unfold. cbv zeta. cbn [outModule].
    rewrite Hs. cbn [negb andb].
    rewrite (instrumentFunctions_ineligible _ _ _ _ Hel). simpl.
    apply withFunctions_same.
  - intros Hs.
    destruct (instrumentModule_functions env M)
      as (extra & hooks & Hf & _ & Hh & Hx).
    cbv zeta in *. rewrite Hs in *. cbn [negb] in *.
    rewrite (instrumentFunctions_ineligible _ _ _ _ Hel) in Hf, Hh.
    simpl in Hf, Hh. rewrite (Hh eq_refl), app_nil_r in Hf.
    destruct Hx as (decls & ck & dk & -> & Hd & Hct & Hdt).
    exists decls, ck, dk. repeat split; try done.
    rewrite Hg.
    by destruct (ensureCtorDtor_spec M) as (? & ? & ? & _ & _ & -> & _).
Qed.

Lemma nothing_eligible_nothing_emitted_witness :
  Forall (fun F => isEligible F = false) (functions Samples.nothingEligible)
  /\ fileEffects (run Samples.envInstrumented Samples.nothingEligible) = []
  /\ PcInfos (run Samples.envInstrumented Samples.nothingEligible) = []
  /\ exists decls ck dk,
       functions
         (outModule (run Samples.envInstrumented Samples.nothingEligible)) =
         functions Samples.nothingEligible ++ decls
         ++ [mkFunction ck "__bbtrace_ctor"
               [mkBlock 0%N "entry"
                  [mkInst
                     (OpCall (CalleeFunction "__bbtrace_register_module")
                        [PointerCast (GlobalPtr "__bbtrace_module_name")])
                     (fixedText "");
                   retVoid]]
               noLoops;
             mkFunction dk "__bbtrace_dtor"
               [mkBlock 0%N "entry"
                  [mkInst (OpCall (CalleeFunction "__bbtrace_finalize") [])
                     (fixedText "");
                   retVoid]]
               noLoops]
       /\ globalCtors
            (outModule (run Samples.envInstrumented Samples.nothingEligible))
          = globalCtors Samples.nothingEligible ++ [(ck, 0)]
       /\ globalDtors
            (outModule (run Samples.envInstrumented Samples.nothingEligible))
          = globalDtors Samples.nothingEligible ++ [(dk, 0)].
Proof.
  assert (Hel : Forall (fun F => isEligible F = false)
                  (functions Samples.nothingEligible))
    by (repeat constructor).
  split; [exact Hel|].
  destruct (nothing_eligible_nothing_emitted Samples.envInstrumented
              Samples.nothingEligible Hel)
    as (HE & _ & HP & _ & _ & _ & Hi).
  split; [exact HE|]. split; [exact HP|].
  destruct (Hi eq_refl) as (decls & ck & dk & Hf & _ & _ & Hc & Hd).
  exists decls, ck, dk. split; [exact Hf|]. split; [exact Hc|exact Hd].
Defined.

(** * Further properties of the pass *)

(** ** Block ids *)

Lemma assignBlockIds_notin bbs next (m : gmap N Z) k :
  k ∉ map bkey bbs ->
  assignBlockIds bbs next m !! k = m !! k.
Proof.
  revert next m. induction bbs as [|B bbs IH]; intros next m Hk; [done|].
  simpl in *. apply not_elem_of_cons in Hk as [Hne Hk].
  rewrite IH by done. by apply lookup_insert_ne.
Qed.

Lemma assignBlockIds_lookup bbs next (m : gmap N Z) i BB :
  NoDup (map bkey bbs) ->
  bbs !! i = Some BB ->
  0 <= next ->
  next + Z.of_nat (length bbs) <= 2 ^ 32 ->
  assignBlockIds bbs next m !! bkey BB = Some (next + Z.of_nat i).
Proof.
  revert next m i. induction bbs as [|B bbs IH]; intros next m i Hnd Hi H0 Hb;
    [done|].
  simpl in Hnd. apply NoDup_cons in Hnd as [Hnotin Hnd].
  destruct i as [|i]; simpl in Hi |- *.
  - inversion Hi. subst B.
    rewrite assignBlockIds_notin by done.
    rewrite lookup_insert_eq. f_equal. lia.
  - assert (0 < length bbs)%nat.
    { apply lookup_lt_Some in Hi. lia. }
    simpl in Hb.
    assert (Hw : wrap32 (next + 1) = next + 1).
    { unfold wrap32. apply Z.mod_small. lia. }
    rewrite Hw. rewrite (IH (next + 1) _ i) by (done || lia).
    f_equal. lia.
Qed.

Lemma instrumentBlocks_record_ids En DL F fid ids loops st bbs :
  map (fun i => (FuncId i, BbId i))
      (instrumentBlocks En DL F fid ids loops st bbs).1.2 =
  map (fun BB => (fid, lookupId ids (bkey BB))) bbs.
Proof.
  revert st. induction bbs as [|BB bbs IH]; intros st; [done|].
  simpl.
  assert (Hp : let Info := (instrumentBlock En DL F fid ids loops st BB).1.2 in
               FuncId Info = fid /\ BbId Info = lookupId ids (bkey BB)).
  { unfold instrumentBlock.
    by destruct (visitInstructions _ _ _ _ _ _ _ _) as [[? ?] ?]. }
  destruct (instrumentBlock En DL F fid ids loops st BB) as [[[s1 b1] i1] p1].
  specialize (IH s1).
  destruct (instrumentBlocks En DL F fid ids loops s1 bbs) as [[x y] z].
  simpl in *. destruct Hp as [-> ->]. by rewrite IH.
Qed.

Lemma instrumentFunction_record_ids En DL F fid :
  map (fun i => (FuncId i, BbId i)) (instrumentFunction En DL F fid).1.2 =
  map (fun BB => (fid, lookupId (assignBlockIds (blocks F) 0 ∅) (bkey BB)))
      (blocks F).
Proof.
  unfold instrumentFunction.
  set (ids := assignBlockIds (blocks F) 0 ∅).
  set (loops := if En then _ else _).
  pose proof (instrumentBlocks_record_ids En DL F fid ids loops
                (mkCounters 0 0 0 []) (blocks F)) as H.
  by destruct (instrumentBlocks En DL F fid ids loops _ _) as [[x y] z].
Qed.

Lemma blockIds_seqZ (bbs : list BasicBlock) :
  NoDup (map bkey bbs) ->
  Z.of_nat (length bbs) <= 2 ^ 32 ->
  map (fun BB => lookupId (assignBlockIds bbs 0 ∅) (bkey BB)) bbs =
  seqZ 0 (Z.of_nat (length bbs)).
Proof.
  intros Hnd Hb. apply list_eq. intros i.
  rewrite list_lookup_fmap.
  destruct (bbs !! i) as [BB|] eqn:Hi; simpl.
  - unfold lookupId.
    rewrite (assignBlockIds_lookup bbs 0 ∅ i BB Hnd Hi) by lia.
    simpl. symmetry. apply lookup_seqZ. apply lookup_lt_Some in Hi. lia.
  - symmetry. apply lookup_seqZ_ge. apply lookup_ge_None in Hi. lia.
Qed.

(** X1.  In a function with at most [2^32] blocks, all distinct, the
    block at index [i] is given [bb_id] [i]: the id table sends its key
    to [i], and its descriptor record and its PC-map entry carry [i].  A
    key that belongs to no block of the function is looked up as 0, the id
    of the entry block. *)
Theorem block_ids_are_positions (En : bool) (DL : DataLayout) (F : Function)
    (fid : Z) :
  NoDup (map bkey (blocks F)) ->
  Z.of_nat (length (blocks F)) <= 2 ^ 32 ->
  let ids := assignBlockIds (blocks F) 0 ∅ in
  (forall i BB, blocks F !! i = Some BB -> lookupId ids (bkey BB) = Z.of_nat i)
  /\ map BbId (instrumentFunction En DL F fid).1.2 =
     seqZ 0 (Z.of_nat (length (blocks F)))
  /\ map pcBbId (instrumentFunction En DL F fid).2 =
     seqZ 0 (Z.of_nat (length (blocks F)))
  /\ (forall k, k ∉ map bkey (blocks F) -> lookupId ids k = 0).
Proof.
  intros Hnd Hb ids. repeat split.
  - intros i BB Hi. unfold lookupId, ids.
    rewrite (assignBlockIds_lookup _ 0 ∅ i BB Hnd Hi) by lia. simpl. lia.
  - rewrite <- (blockIds_seqZ _ Hnd Hb).
    pose proof (instrumentFunction_record_ids En DL F fid) as H.
    apply (f_equal (map snd)) in H.
    by rewrite !map_map in H.
  - rewrite <- (blockIds_seqZ _ Hnd Hb).
    by rewrite instrumentFunction_pcs, map_map.
  - intros k Hk. unfold lookupId, ids.
    by rewrite assignBlockIds_notin, lookup_empty.
Qed.

Lemma block_ids_are_positions_witness :
  NoDup (map bkey (blocks Samples.gBranch))
  /\ Z.of_nat (length (blocks Samples.gBranch)) <= 2 ^ 32
  /\ map BbId (instrumentFunction true Samples.DL64 Samples.gBranch 0).1.2
     = [0; 1; 2].
Proof.
  pose proof gBranch_keys_distinct as Hnd.
  assert (Hb : Z.of_nat (length (blocks Samples.gBranch)) <= 2 ^ 32)
    by (vm_compute; discriminate).
  split; [exact Hnd|]. split; [exact Hb|].
  apply (block_ids_are_positions true Samples.DL64 Samples.gBranch 0 Hnd Hb).
Defined.

(** ** Function ids and the one-to-one match of records and PC map *)

Lemma eligibleWithIds_none fs start :
  List.filter isEligible fs = [] -> eligibleWithIds fs start = [].
Proof.
  revert start. induction fs as [|F fs IH]; intros start H; [done|].
  simpl in *. destruct (isEligible F); [done|]. by apply IH.
Qed.

Lemma eligibleWithIds_zip fs start :
  0 <= start ->
  start + Z.of_nat (length (List.filter isEligible fs)) <= 2 ^ 32 ->
  eligibleWithIds fs start =
  zip (List.filter isEligible fs)
      (seqZ start (Z.of_nat (length (List.filter isEligible fs)))).
Proof.
  revert start. induction fs as [|F fs IH]; intros start H0 Hb; [done|].
  simpl in *. destruct (isEligible F); [|by apply IH].
  simpl in Hb |- *.
  rewrite (seqZ_cons start) by lia. simpl. f_equal.
  destruct (List.filter isEligible fs) as [|G gs] eqn:HG.
  - by rewrite eligibleWithIds_none.
  - assert (Hw : wrap32 (start + 1) = start + 1).
    { unfold wrap32. apply Z.mod_small. simpl in Hb. lia. }
    rewrite Hw, IH by (simpl in *; lia).
    do 2 f_equal; lia.
Qed.

Lemma instrumentFunctions_infos En DL fs fid :
  (instrumentFunctions En DL fs fid).1.1.2 =
  concat (map (fun p => (instrumentFunction En DL p.1 p.2).1.2)
              (eligibleWithIds fs fid)).
Proof.
  revert fid. induction fs as [|F fs IH]; intros fid; [done|].
  simpl. unfold isEligible.
  destruct (isDeclaration F); simpl.
  { specialize (IH fid).
    by destruct (instrumentFunctions En DL fs fid) as [[[? ?] ?] ?]. }
  destruct (starts_with (fname F) runtimePrefix); simpl.
  { specialize (IH fid).
    by destruct (instrumentFunctions En DL fs fid) as [[[? ?] ?] ?]. }
  destruct (instrumentFunction En DL F fid) as [[F' i1] p1].
  specialize (IH (wrap32 (fid + 1))).
  destruct (instrumentFunctions En DL fs _) as [[[? ?] ?] ?].
  simpl in *. by rewrite IH.
Qed.

(** X2.  When the module has at most [2^32] eligible functions, the
    [k]-th of them in module order is instrumented under [func_id] [k]:
    the records and the PC-map entries of a run are those of the eligible
    functions, one function after the other, numbered [0, 1, 2, ...]. *)
Theorem function_ids_are_positions (env : Env) (M : IRModule) :
  let Fs := List.filter isEligible (functions M) in
  let En := negb (isStaticOnlyMode env) in
  Z.of_nat (length Fs) <= 2 ^ 32 ->
  StaticInfos (run env M) =
    concat (map (fun p => (instrumentFunction En (getDataLayout M) p.1 p.2).1.2)
                (zip Fs (seqZ 0 (Z.of_nat (length Fs)))))
  /\ PcInfos (run env M) =
    concat (map (fun p => (instrumentFunction En (getDataLayout M) p.1 p.2).2)
                (zip Fs (seqZ 0 (Z.of_nat (length Fs))))).
Proof.
  intros Fs En Hb. unfold run.
  destruct (instrumentModule_infos env M) as (-> & -> & _).
  destruct (instrumentFunctions_mode En false (getDataLayout M) (functions M) 0)
    as (_ & <- & _).
  fold En.
  rewrite instrumentFunctions_infos, instrumentFunctions_pcs.
  by rewrite eligibleWithIds_zip by (fold Fs; lia).
Qed.

Lemma function_ids_are_positions_witness :
  Z.of_nat (length (List.filter isEligible (functions Samples.branching)))
    <= 2 ^ 32
  /\ PcInfos (run Samples.envInstrumented Samples.branching) =
     (instrumentFunction true Samples.DL64 Samples.gBranch 0).2 ++ [].
Proof.
  assert (Hb : Z.of_nat (length (List.filter isEligible
                                   (functions Samples.branching))) <= 2 ^ 32)
    by (vm_compute; discriminate).
  split; [exact Hb|].
  apply (function_ids_are_positions Samples.envInstrumented Samples.branching
           Hb).
Defined.

Lemma instrumentFunction_ids_agree En DL F fid :
  map (fun i => (FuncId i, BbId i)) (instrumentFunction En DL F fid).1.2 =
  map (fun p => (pcFuncId p, pcBbId p)) (instrumentFunction En DL F fid).2.
Proof.
  by rewrite instrumentFunction_record_ids, instrumentFunction_pcs, map_map.
Qed.

Lemma instrumentFunction_counts En DL F fid :
  length (instrumentFunction En DL F fid).2 = length (blocks F).
Proof. by rewrite instrumentFunction_pcs, length_map. Qed.

Lemma instrumentFunctions_ids_agree En DL fs fid :
  map (fun i => (FuncId i, BbId i)) (instrumentFunctions En DL fs fid).1.1.2 =
    map (fun p => (pcFuncId p, pcBbId p)) (instrumentFunctions En DL fs fid).1.2
  /\ length (instrumentFunctions En DL fs fid).1.2 =
     length (concat (map blocks (List.filter isEligible fs))).
Proof.
  revert fid. induction fs as [|F fs IH]; intros fid; [done|].
  simpl. unfold isEligible at 1.
  destruct (isDeclaration F); simpl.
  { specialize (IH fid).
    by destruct (instrumentFunctions En DL fs fid) as [[[? ?] ?] ?]. }
  destruct (starts_with (fname F) runtimePrefix); simpl.
  { specialize (IH fid).
    by destruct (instrumentFunctions En DL fs fid) as [[[? ?] ?] ?]. }
  pose proof (instrumentFunction_ids_agree En DL F fid) as Ha.
  pose proof (instrumentFunction_counts En DL F fid) as Hc.
  destruct (instrumentFunction En DL F fid) as [[F' i1] p1].
  destruct (IH (wrap32 (fid + 1))) as [IH1 IH2].
  destruct (instrumentFunctions En DL fs _) as [[[? ?] ?] ?].
  simpl in *. rewrite !map_app, !length_app, Ha, IH1, Hc, IH2. done.
Qed.

(** X3.  A run makes one descriptor record and one PC-map entry per block
    of the eligible functions, in the same order: entry [k] of the PC map
    and record [k] of the descriptor carry the same [(func_id, bb_id)],
    and there are as many of each as the eligible functions have
    blocks. *)
Theorem records_match_pc_map (env : Env) (M : IRModule) :
  map (fun i => (FuncId i, BbId i)) (StaticInfos (run env M)) =
    map (fun p => (pcFuncId p, pcBbId p)) (PcInfos (run env M))
  /\ length (PcInfos (run env M)) =
     length (concat (map blocks (List.filter isEligible (functions M))))
  /\ length (StaticInfos (run env M)) = length (PcInfos (run env M)).
Proof.
  unfold run.
  destruct (instrumentModule_infos env M) as (-> & -> & _).
  destruct (instrumentFunctions_mode (negb (isStaticOnlyMode env)) false
              (getDataLayout M) (functions M) 0) as (_ & <- & _).
  destruct (instrumentFunctions_ids_agree (negb (isStaticOnlyMode env))
              (getDataLayout M) (functions M) 0) as [Ha Hc].
  repeat split; try done.
  apply (f_equal length) in Ha. by rewrite !length_map in Ha.
Qed.

(** A list of tagged groups with distinct tags and no repetition inside a
    group has no repetition at all. *)
Lemma NoDup_tagged_groups {A B : Type} (groups : list (A * list B)) :
  NoDup (map fst groups) ->
  Forall (fun g => NoDup g.2) groups ->
  NoDup (concat (map (fun g => map (pair g.1) g.2) groups)).
Proof.
  induction groups as [|[a bs] groups IH]; intros Hnd Hall; simpl.
  - apply NoDup_nil_2.
  - simpl in Hnd. apply NoDup_cons in Hnd as [Ha Hnd].
    apply Forall_cons in Hall as [Hbs Hall]. simpl in Hbs.
    apply NoDup_app. split; [|split].
    + apply NoDup_fmap_2; [|done]. by intros x y [=].
    + intros [a' b] Hin Hin'.
      apply list_elem_of_fmap in Hin as (b0 & [= -> ->] & _).
      apply list_elem_of_In, List.in_concat in Hin' as (l & Hl & Hx).
      apply List.in_map_iff in Hl as ([a2 bs2] & <- & Hg).
      simpl in Hx. apply List.in_map_iff in Hx as (b2 & [= <- _] & _).
      apply Ha. apply list_elem_of_fmap. exists (a2, bs2).
      split; [done|]. by apply list_elem_of_In.
    + by apply IH.
Qed.

(** X4.  When the module has at most [2^32] eligible functions and each
    of them has at most [2^32] blocks, all distinct, no two entries of the
    PC map carry the same [(func_id, bb_id)]. *)
Theorem pc_map_ids_unique (env : Env) (M : IRModule) :
  let Fs := List.filter isEligible (functions M) in
  Z.of_nat (length Fs) <= 2 ^ 32 ->
  Forall (fun F => NoDup (map bkey (blocks F))
                   /\ Z.of_nat (length (blocks F)) <= 2 ^ 32) Fs ->
  NoDup (map (fun p => (pcFuncId p, pcBbId p)) (PcInfos (run env M))).
Proof.
  intros Fs Hb Hall. unfold run.
  destruct (instrumentModule_infos env M) as (_ & -> & _).
  rewrite instrumentFunctions_pcs, eligibleWithIds_zip by (fold Fs; lia).
  fold Fs.
  set (n := Z.of_nat (length Fs)).
  assert (Heq :
    map (fun p => (pcFuncId p, pcBbId p))
      (concat (map (fun p => (instrumentFunction false (getDataLayout M)
                                p.1 p.2).2) (zip Fs (seqZ 0 n)))) =
    concat (map (fun g => map (pair g.1) g.2)
              (map (fun p => (p.2, seqZ 0 (Z.of_nat (length (blocks p.1)))))
                   (zip Fs (seqZ 0 n))))).
  { assert (Hz : Forall (fun p => p.1 ∈ Fs) (zip Fs (seqZ 0 n))).
    { apply Forall_forall. intros [F k] Hin.
      by apply elem_of_zip_l in Hin. }
    induction Hz as [|[F k] l HF _ IH]; [done|].
    simpl. rewrite map_app, IH. f_equal.
    rewrite instrumentFunction_pcs, !map_map. simpl.
    rewrite Forall_forall in Hall. destruct (Hall F HF) as [Hnd HbF].
    rewrite <- (blockIds_seqZ _ Hnd HbF). by rewrite map_map. }
  rewrite Heq. apply NoDup_tagged_groups.
  - rewrite map_map. simpl.
    change (NoDup ((zip Fs (seqZ 0 n)).*2)).
    rewrite snd_zip; [apply NoDup_seqZ|].
    rewrite length_seqZ. subst n. lia.
  - apply Forall_forall. intros g Hg.
    apply list_elem_of_fmap in Hg as (p & -> & _). simpl. apply NoDup_seqZ.
Qed.

Lemma pc_map_ids_unique_witness :
  Z.of_nat (length (List.filter isEligible (functions Samples.branching)))
    <= 2 ^ 32
  /\ NoDup (map (fun p => (pcFuncId p, pcBbId p))
              (PcInfos (run Samples.envInstrumented Samples.branching))).
Proof.
  assert (Hb : Z.of_nat (length (List.filter isEligible
                                   (functions Samples.branching))) <= 2 ^ 32)
    by (vm_compute; discriminate).
  split; [exact Hb|].
  assert (HF : Forall (fun F => NoDup (map bkey (blocks F))
                               /\ Z.of_nat (length (blocks F)) <= 2 ^ 32)
                 [Samples.gBranch]).
  { apply Forall_cons. split; [|apply Forall_nil_2].
    split; [exact gBranch_keys_distinct|vm_compute; discriminate]. }
  exact (pc_map_ids_unique Samples.envInstrumented Samples.branching Hb HF).
Defined.

(** ** What the rewriting leaves in place *)

Lemma sublist_insertBefore n (h : Instruction) l :
  l `sublist_of` insertBefore n h l.
Proof.
  unfold insertBefore. rewrite <- (take_drop n l) at 1.
  apply sublist_app; [done|]. by apply sublist_cons.
Qed.

Lemma sublist_insertEntryHooks En F fid loops BB bb addr :
  insts BB `sublist_of` insertEntryHooks En F fid loops BB bb addr.
Proof.
  unfold insertEntryHooks. destruct En; [|done].
  destruct (getLoopFor (loopInfo F) (bkey BB)) as [L|].
  - case_bool_decide.
    + etrans; [|apply sublist_insertBefore]. apply sublist_insertBefore.
    + apply sublist_insertBefore.
  - apply sublist_insertBefore.
Qed.

Lemma visitInstructions_sublist En DL F fid ids bb st l :
  l `sublist_of` (visitInstructions En DL F fid ids bb st l).1.2.
Proof.
  revert st. induction l as [|x l IH]; intros st; [apply sublist_nil_l|].
  simpl.
  destruct (visitInstruction En DL F fid ids bb st x) as [[s1 ins] info].
  specialize (IH s1).
  destruct (visitInstructions En DL F fid ids bb s1 l) as [[s2 o] infos].
  simpl in *. apply sublist_inserts_l. by apply sublist_skip.
Qed.

Lemma instrumentBlock_keeps En DL F fid ids loops st BB :
  let BB' := (instrumentBlock En DL F fid ids loops st BB).1.1.2 in
  bkey BB' = bkey BB /\ bname BB' = bname BB
  /\ insts BB `sublist_of` insts BB'.
Proof.
  unfold instrumentBlock.
  set (bb := lookupId ids (bkey BB)).
  set (addr := if isEntryBlock F BB then _ else _).
  pose proof (visitInstructions_sublist En DL F fid ids bb st
                (insertEntryHooks En F fid loops BB bb addr)) as H.
  destruct (visitInstructions En DL F fid ids bb st _) as [[s1 o1] i1].
  simpl in *. repeat split.
  etrans; [apply sublist_insertEntryHooks|exact H].
Qed.

Lemma instrumentBlocks_keeps En DL F fid ids loops st bbs :
  Forall2 (fun B B' => bkey B' = bkey B /\ bname B' = bname B
                       /\ insts B `sublist_of` insts B')
          bbs (instrumentBlocks En DL F fid ids loops st bbs).1.1.
Proof.
  revert st. induction bbs as [|BB bbs IH]; intros st; [constructor|].
  simpl.
  pose proof (instrumentBlock_keeps En DL F fid ids loops st BB) as Hb.
  destruct (instrumentBlock En DL F fid ids loops st BB) as [[[s1 b1] i1] p1].
  specialize (IH s1).
  destruct (instrumentBlocks En DL F fid ids loops s1 bbs) as [[x y] z].
  simpl in *. by constructor.
Qed.

(** X5.  Rewriting a function keeps its identity, its name and its
    blocks: the rewritten function has the same blocks in the same order,
    each with its key and name, and the instructions a block had are still
    there in their order, with only new ones put between them.  The pass
    never deletes, reorders or replaces an instruction. *)
Theorem rewriting_keeps_blocks_and_instructions (En : bool) (DL : DataLayout)
    (F : Function) (fid : Z) :
  let F' := (instrumentFunction En DL F fid).1.1 in
  fkey F' = fkey F /\ fname F' = fname F
  /\ Forall2 (fun B B' => bkey B' = bkey B /\ bname B' = bname B
                          /\ insts B `sublist_of` insts B')
             (blocks F) (blocks F').
Proof.
  unfold instrumentFunction.
  set (ids := assignBlockIds (blocks F) 0 ∅).
  set (loops := if En then _ else _).
  pose proof (instrumentBlocks_keeps En DL F fid ids loops (mkCounters 0 0 0 [])
                (blocks F)) as H.
  by destruct (instrumentBlocks En DL F fid ids loops _ _) as [[x y] z].
Qed.

(** ** Where insertions go *)

Lemma firstNonPHI_le l : (firstNonPHI l <= length l)%nat.
Proof. induction l as [|x l IH]; simpl; [lia|]. destruct (isPHI x); simpl; lia. Qed.

Lemma getFirstInsertionPt_le l : (getFirstInsertionPt l <= length l)%nat.
Proof.
  unfold getFirstInsertionPt. pose proof (firstNonPHI_le l).
  destruct (l !! firstNonPHI l) as [x|] eqn:E; [|done].
  apply lookup_lt_Some in E. destruct (isEHPad x); lia.
Qed.

Lemma firstNonPHI_take l :
  Forall (fun x => isPHI x = true) (take (firstNonPHI l) l).
Proof.
  induction l as [|x l IH]; simpl; [constructor|].
  destruct (isPHI x) eqn:E; simpl; by constructor.
Qed.

Lemma firstNonPHI_lookup l x :
  l !! firstNonPHI l = Some x -> isPHI x = false.
Proof.
  induction l as [|y l IH]; simpl; [done|].
  destruct (isPHI y) eqn:E; simpl; [done|]. by intros [= <-].
Qed.

(** In front of the first insertion point there are only PHI nodes and,
    last, at most one exception-handling pad. *)
Lemma getFirstInsertionPt_take l :
  Forall (fun x => isPHIOrEHPad x = true) (take (getFirstInsertionPt l) l).
Proof.
  unfold getFirstInsertionPt.
  assert (H0 : Forall (fun x => isPHIOrEHPad x = true)
                 (take (firstNonPHI l) l)).
  { eapply Forall_impl; [apply firstNonPHI_take|].
    intros x Hx. unfold isPHIOrEHPad. by rewrite Hx. }
  destruct (l !! firstNonPHI l) as [x|] eqn:E; [|done].
  destruct (isEHPad x) eqn:Ex; [|done].
  rewrite (take_S_r _ _ _ E). apply Forall_app. split; [done|].
  repeat constructor. unfold isPHIOrEHPad. rewrite Ex. apply orb_true_r.
Qed.

Lemma firstNonPHI_app_PHIs a b :
  Forall (fun x => isPHI x = true) a ->
  firstNonPHI (a ++ b) = (length a + firstNonPHI b)%nat.
Proof. induction 1 as [|x a Hx _ IH]; simpl; [done|]. by rewrite Hx, IH. Qed.

(** The hook put at the first insertion point does not move that
    point. *)
Lemma getFirstInsertionPt_insertBefore l h :
  isPHI h = false -> isEHPad h = false ->
  getFirstInsertionPt (insertBefore (getFirstInsertionPt l) h l) =
  getFirstInsertionPt l.
Proof.
  intros Hp He. unfold getFirstInsertionPt at 2 3.
  pose proof (firstNonPHI_take l) as HT.
  pose proof (firstNonPHI_le l) as HL.
  set (n := firstNonPHI l) in *.
  destruct (l !! n) as [x|] eqn:E.
  - pose proof (firstNonPHI_lookup l x E) as Hx.
    destruct (isEHPad x) eqn:Ex.
    + unfold insertBefore, getFirstInsertionPt.
      rewrite (take_S_r _ _ _ E), <- app_assoc. simpl.
      rewrite (firstNonPHI_app_PHIs _ _ HT). simpl. rewrite Hx.
      rewrite length_take_le by lia. rewrite Nat.add_0_r.
      rewrite lookup_app_r by (rewrite length_take_le; lia).
      rewrite length_take_le by lia. rewrite Nat.sub_diag. simpl.
      by rewrite Ex.
    + unfold insertBefore, getFirstInsertionPt.
      rewrite (firstNonPHI_app_PHIs _ _ HT). simpl. rewrite Hp.
      rewrite length_take_le by lia. rewrite Nat.add_0_r.
      rewrite lookup_app_r by (rewrite length_take_le; lia).
      rewrite length_take_le by lia. rewrite Nat.sub_diag. simpl.
      by rewrite He.
  - apply lookup_ge_None in E.
    unfold insertBefore, getFirstInsertionPt.
    rewrite (firstNonPHI_app_PHIs _ _ HT). simpl. rewrite Hp.
    rewrite length_take_le by lia. rewrite Nat.add_0_r.
    rewrite lookup_app_r by (rewrite length_take_le; lia).
    rewrite length_take_le by lia. rewrite Nat.sub_diag. simpl.
    by rewrite He.
Qed.

Lemma take_insertBefore n (h : Instruction) l :
  (n <= length l)%nat -> take n (insertBefore n h l) = take n l.
Proof.
  intros Hn. unfold insertBefore.
  rewrite take_app_le by (rewrite length_take_le; lia).
  by rewrite take_take, Nat.min_id.
Qed.

Lemma take_insertEntryHooks En F fid loops BB bb addr :
  let p := getFirstInsertionPt (insts BB) in
  take p (insertEntryHooks En F fid loops BB bb addr) = take p (insts BB).
Proof.
  intros p. unfold insertEntryHooks. destruct En; [|done].
  pose proof (getFirstInsertionPt_le (insts BB)) as Hle. fold p in Hle.
  set (h1 := hookCall BBHook _).
  assert (Hp1 : getFirstInsertionPt (insertBefore p h1 (insts BB)) = p)
    by (by apply getFirstInsertionPt_insertBefore).
  assert (Ht1 : take p (insertBefore p h1 (insts BB)) = take p (insts BB))
    by (by apply take_insertBefore).
  destruct (getLoopFor (loopInfo F) (bkey BB)) as [L|]; [|exact Ht1].
  case_bool_decide; [|exact Ht1].
  fold p. rewrite Hp1. rewrite take_insertBefore; [exact Ht1|].
  unfold insertBefore. rewrite length_app, length_take_le by lia. simpl. lia.
Qed.

Lemma visitInstruction_inert En DL F fid ids bb st x :
  isPHIOrEHPad x = true ->
  (visitInstruction En DL F fid ids bb st x).1 = (st, []).
Proof.
  unfold isPHIOrEHPad, isPHI, isEHPad, visitInstruction.
  by destruct (opcode x).
Qed.

Lemma visitInstructions_inert_prefix En DL F fid ids bb st a b :
  Forall (fun x => isPHIOrEHPad x = true) a ->
  (visitInstructions En DL F fid ids bb st (a ++ b)).1.2 =
  a ++ (visitInstructions En DL F fid ids bb st b).1.2.
Proof.
  induction 1 as [|x a Hx _ IH]; [done|].
  simpl. pose proof (visitInstruction_inert En DL F fid ids bb st x Hx) as E.
  destruct (visitInstruction En DL F fid ids bb st x) as [[s1 ins] info].
  simpl in E. inversion E. subst.
  destruct (visitInstructions En DL F fid ids bb st (a ++ b)) as [[s2 o] infos].
  destruct (visitInstructions En DL F fid ids bb st b) as [[s3 o3] infos3].
  simpl in *. by rewrite IH.
Qed.

(** X6.  The pass inserts nothing in front of the first insertion point
    of a block: the PHI nodes at the head of the block (and a landing pad
    right after them) are still the head of the rewritten block. *)
Theorem nothing_inserted_before_first_insertion_point (En : bool)
    (DL : DataLayout) (F : Function) (fid : Z) (j : nat) (BB : BasicBlock) :
  blocks F !! j = Some BB ->
  let p := getFirstInsertionPt (insts BB) in
  exists BB',
    blocks (instrumentFunction En DL F fid).1.1 !! j = Some BB'
    /\ take p (insts BB') = take p (insts BB)
    /\ Forall (fun x => isPHIOrEHPad x = true) (take p (insts BB)).
Proof.
  intros Hj p. unfold instrumentFunction.
  set (ids := assignBlockIds (blocks F) 0 ∅).
  set (loops := if En then _ else _).
  destruct (instrumentBlocks_lookup En DL F fid ids loops (mkCounters 0 0 0 [])
              (blocks F) j BB Hj) as (st' & Ha & _).
  destruct (instrumentBlocks En DL F fid ids loops _ _) as [[x y] z].
  simpl in *. rewrite Ha. eexists. split; [done|].
  split; [|apply getFirstInsertionPt_take].
  unfold instrumentBlock.
  set (bb := lookupId ids (bkey BB)).
  set (addr := if isEntryBlock F BB then _ else _).
  pose proof (take_insertEntryHooks En F fid loops BB bb addr) as Ht.
  cbv zeta in Ht. fold p in Ht.
  pose proof (sublist_insertEntryHooks En F fid loops BB bb addr) as Hs.
  set (l0 := insertEntryHooks En F fid loops BB bb addr) in *.
  pose proof (visitInstructions_inert_prefix En DL F fid ids bb st'
                (take p l0) (drop p l0)) as Hv.
  rewrite take_drop in Hv.
  destruct (visitInstructions En DL F fid ids bb st' l0) as [[s1 o1] i1].
  simpl in *. rewrite Hv by (rewrite Ht; apply getFirstInsertionPt_take).
  apply sublist_length in Hs.
  pose proof (getFirstInsertionPt_le (insts BB)) as Hle. fold p in Hle.
  rewrite take_app_le by (rewrite length_take; lia).
  rewrite take_take, Nat.min_id. exact Ht.
Qed.

Lemma nothing_inserted_before_first_insertion_point_witness :
  exists BB',
    blocks (instrumentFunction true Samples.DL64 MoreSamples.fLoop 0).1.1
      !! 1%nat = Some BB'
    /\ take 1 (insts BB') = [MoreSamples.phi].
Proof.
  destruct (nothing_inserted_before_first_insertion_point true Samples.DL64
              MoreSamples.fLoop 0 1
              (mkBlock 51 "H" [MoreSamples.phi; Samples.load 1;
                               mkInst (OpBr 52) (fixedText "br label %G")])
              eq_refl)
    as (BB' & H1 & H2 & _).
  exists BB'. split; [exact H1|exact H2].
Defined.

Lemma last_insertBefore n (h : Instruction) l :
  (n < length l)%nat -> last (insertBefore n h l) = last l.
Proof.
  intros Hn. unfold insertBefore.
  rewrite <- (take_drop n l) at 3.
  destruct (drop n l) as [|y d] eqn:E.
  - apply (f_equal length) in E. rewrite length_drop in E. simpl in E. lia.
  - by rewrite last_app_cons, (last_app_cons (take n l)).
Qed.

Lemma last_visitInstructions En DL F fid ids bb st l :
  last (visitInstructions En DL F fid ids bb st l).1.2 = last l.
Proof.
  revert st. induction l as [|x l IH]; intros st; [done|].
  simpl.
  destruct (visitInstruction En DL F fid ids bb st x) as [[s1 ins] info].
  specialize (IH s1).
  destruct (visitInstructions En DL F fid ids bb s1 l) as [[s2 o] infos].
  simpl in *. rewrite last_app_cons.
  destruct l as [|y l].
  - simpl in IH. apply last_None in IH. by subst o.
  - destruct o as [|z o]; [|exact IH].
    symmetry in IH. apply last_None in IH. discriminate.
Qed.

Lemma last_insertEntryHooks En F fid loops BB bb addr :
  (En = false
   \/ (getFirstInsertionPt (insts BB) < length (insts BB))%nat) ->
  last (insertEntryHooks En F fid loops BB bb addr) = last (insts BB).
Proof.
  intros H. unfold insertEntryHooks. destruct En; [|done].
  destruct H as [?|Hlt]; [done|].
  set (p := getFirstInsertionPt (insts BB)) in *.
  set (h1 := hookCall BBHook _).
  assert (H1 : last (insertBefore p h1 (insts BB)) = last (insts BB))
    by (by apply last_insertBefore).
  destruct (getLoopFor (loopInfo F) (bkey BB)) as [L|]; [|exact H1].
  case_bool_decide; [|exact H1].
  rewrite last_insertBefore; [exact H1|].
  unfold p. rewrite getFirstInsertionPt_insertBefore by done. fold p.
  unfold insertBefore. rewrite length_app, length_take_le by lia. simpl. lia.
Qed.

(** X7.  When a block has an instruction at its first insertion point
    (it does not consist of PHI nodes and a pad alone), or when no hooks
    are inserted, the last instruction of the block is still the last
    instruction of the rewritten block: nothing is put behind the
    terminator. *)
Theorem terminator_stays_last (En : bool) (DL : DataLayout) (F : Function)
    (fid : Z) (j : nat) (BB : BasicBlock) :
  blocks F !! j = Some BB ->
  (En = false
   \/ (getFirstInsertionPt (insts BB) < length (insts BB))%nat) ->
  exists BB',
    blocks (instrumentFunction En DL F fid).1.1 !! j = Some BB'
    /\ last (insts BB') = last (insts BB).
Proof.
  intros Hj Hp. unfold instrumentFunction.
  set (ids := assignBlockIds (blocks F) 0 ∅).
  set (loops := if En then _ else _).
  destruct (instrumentBlocks_lookup En DL F fid ids loops (mkCounters 0 0 0 [])
              (blocks F) j BB Hj) as (st' & Ha & _).
  destruct (instrumentBlocks En DL F fid ids loops _ _) as [[x y] z].
  simpl in *. rewrite Ha. eexists. split; [done|].
  unfold instrumentBlock.
  set (bb := lookupId ids (bkey BB)).
  set (addr := if isEntryBlock F BB then _ else _).
  pose proof (last_insertEntryHooks En F fid loops BB bb addr Hp) as Hl.
  pose proof (last_visitInstructions En DL F fid ids bb st'
                (insertEntryHooks En F fid loops BB bb addr)) as Hv.
  destruct (visitInstructions En DL F fid ids bb st' _) as [[s1 o1] i1].
  simpl in *. by rewrite Hv.
Qed.

Lemma terminator_stays_last_witness :
  exists BB',
    blocks (instrumentFunction true Samples.DL64 MoreSamples.fLoop 0).1.1
      !! 1%nat = Some BB'
    /\ last (insts BB') = Some (mkInst (OpBr 52) (fixedText "br label %G")).
Proof.
  destruct (terminator_stays_last true Samples.DL64 MoreSamples.fLoop 0 1
              (mkBlock 51 "H" [MoreSamples.phi; Samples.load 1;
                               mkInst (OpBr 52) (fixedText "br label %G")])
              eq_refl)
    as (BB' & H1 & H2).
  - right. vm_compute. lia.
  - exists BB'. split; [exact H1|exact H2].
Defined.

(** ** Hooks sit right in front of what they describe *)

Lemma visitInstructions_around En DL F fid ids bb st l Ins :
  Ins ∈ l ->
  exists st0 pre post,
    (visitInstructions En DL F fid ids bb st l).1.2 =
    pre ++ (visitInstruction En DL F fid ids bb st0 Ins).1.2 ++ Ins :: post.
Proof.
  intros Hin. apply list_elem_of_split in Hin as (l1 & l2 & ->).
  rewrite visitInstructions_app.
  destruct (visitInstructions En DL F fid ids bb st l1) as [[s1 o1] i1].
  simpl. exists s1.
  destruct (visitInstruction En DL F fid ids bb s1 Ins) as [[s2 ins] info].
  destruct (visitInstructions En DL F fid ids bb s2 l2) as [[s3 o2] i2].
  simpl. by exists o1, o2.
Qed.

Lemma CreatePointerCast_inserts_same V :
  typeOf V = PointerTy 0 -> CreatePointerCast_inserts V = [].
Proof.
  intros H. unfold CreatePointerCast_inserts.
  by rewrite bool_decide_eq_true_2.
Qed.

Lemma CreatePointerCast_inserts_cast V :
  typeOf V <> PointerTy 0 -> isConstantValue V = false ->
  CreatePointerCast_inserts V = [built (PointerCast V)].
Proof.
  intros H Hc. unfold CreatePointerCast_inserts.
  by rewrite bool_decide_eq_false_2, Hc.
Qed.

(** X8.  Whatever the pass inserts for an instruction of a block stands
    immediately in front of that instruction in the rewritten block.  For
    a load or a store this is the [.bbtrace_inst] record, then (with
    instrumentation) the cast of the address the builder makes, if it
    makes one, and the call of the memory hook with the address operand,
    the store size of the accessed type and the store flag, then the
    instruction itself.  The builder makes no cast for an address that is
    a pointer of address space 0, so that the hook call directly follows
    the record; for an address of another type that is not a constant it
    makes one cast, which stands between the record and the hook call. *)
Theorem memory_hook_directly_precedes_access (En : bool) (DL : DataLayout)
    (F : Function) (fid : Z) (j : nat) (BB : BasicBlock) (Ins : Instruction) :
  blocks F !! j = Some BB ->
  Ins ∈ insts BB ->
  let ids := assignBlockIds (blocks F) 0 ∅ in
  let bb := lookupId ids (bkey BB) in
  exists BB' st pre post,
    blocks (instrumentFunction En DL F fid).1.1 !! j = Some BB'
    /\ insts BB' =
       pre ++ (visitInstruction En DL F fid ids bb st Ins).1.2 ++ Ins :: post
    /\ match opcode Ins with
       | OpLoad ty ptr =>
           (visitInstruction En DL F fid ids bb st Ins).1.2 =
           emitInstPcRecord fid bb (NextMemInstId st)
           :: (if En then
                 CreatePointerCast_inserts ptr
                 ++ [hookCall MemHook
                       [constI32 fid; constI32 bb;
                        constI32 (NextMemInstId st);
                        PointerCast ptr; constI64 (getTypeStoreSize DL ty);
                        ConstInt 1 0]]
               else [])
           /\ (typeOf ptr = PointerTy 0 ->
               CreatePointerCast_inserts ptr = [])
           /\ (typeOf ptr <> PointerTy 0 -> isConstantValue ptr = false ->
               CreatePointerCast_inserts ptr = [built (PointerCast ptr)])
       | OpStore val ptr =>
           (visitInstruction En DL F fid ids bb st Ins).1.2 =
           emitInstPcRecord fid bb (NextMemInstId st)
           :: (if En then
                 CreatePointerCast_inserts ptr
                 ++ [hookCall MemHook
                       [constI32 fid; constI32 bb;
                        constI32 (NextMemInstId st);
                        PointerCast ptr;
                        constI64 (getTypeStoreSize DL (typeOf val));
                        ConstInt 1 1]]
               else [])
           /\ (typeOf ptr = PointerTy 0 ->
               CreatePointerCast_inserts ptr = [])
           /\ (typeOf ptr <> PointerTy 0 -> isConstantValue ptr = false ->
               CreatePointerCast_inserts ptr = [built (PointerCast ptr)])
       | _ => True
       end.
Proof.
  intros Hj Hin ids bb. unfold instrumentFunction. fold ids.
  set (loops := if En then _ else _).
  destruct (instrumentBlocks_lookup En DL F fid ids loops (mkCounters 0 0 0 [])
              (blocks F) j BB Hj) as (st' & Ha & _).
  destruct (instrumentBlocks En DL F fid ids loops _ _) as [[x y] z].
  simpl in *. rewrite Ha. clear Ha.
  unfold instrumentBlock. fold bb.
  set (addr := if isEntryBlock F BB then _ else _).
  destruct (visitInstructions_around En DL F fid ids bb st'
              (insertEntryHooks En F fid loops BB bb addr) Ins
              (elem_of_insertEntryHooks _ _ _ _ _ _ _ _ Hin))
    as (st0 & pre & post & Hs).
  destruct (visitInstructions En DL F fid ids bb st' _) as [[s1 o1] i1].
  simpl in *. exists (mkBlock (bkey BB) (bname BB) o1), st0, pre, post.
  split; [done|]. split; [exact Hs|].
  unfold visitInstruction.
  destruct (opcode Ins) as [| |ty ptr|val ptr| | | | |]; try done.
  - split; [by destruct En|].
    split; [apply CreatePointerCast_inserts_same
           |apply CreatePointerCast_inserts_cast].
  - split; [by destruct En|].
    split; [apply CreatePointerCast_inserts_same
           |apply CreatePointerCast_inserts_cast].
Qed.

Lemma memory_hook_directly_precedes_access_witness :
  exists BB' st pre post,
    blocks (instrumentFunction true Samples.DL64 Samples.fStraight 0).1.1
      !! 0%nat = Some BB'
    /\ insts BB' =
       pre ++ [emitInstPcRecord 0 0 (NextMemInstId st);
               hookCall MemHook
                 [constI32 0; constI32 0; constI32 (NextMemInstId st);
                  PointerCast (Samples.ptr 3); constI64 4; ConstInt 1 1]]
           ++ Samples.store 3 :: post.
Proof.
  destruct (memory_hook_directly_precedes_access true Samples.DL64
              Samples.fStraight 0 0
              (mkBlock 10 "entry"
                 [Samples.load 1; Samples.load 2; Samples.store 3; Samples.ret])
              (Samples.store 3) eq_refl)
    as (BB' & st & pre & post & H1 & H2 & H3).
  - apply list_elem_of_In. simpl. tauto.
  - exists BB', st, pre, post. split; [exact H1|].
    cbv zeta in H2. simpl opcode in H3. cbv iota beta in H3.
    destruct H3 as (H3 & H4 & _).
    rewrite (H4 eq_refl) in H3. rewrite H3 in H2. exact H2.
Defined.

(** ** A census of the hooks *)

Section HookCensus.

Variables P Q : Instruction -> bool.
Variable e : Function -> BasicBlock -> nat.

Hypothesis Hvisit : forall DL F fid ids bb st Ins,
  countb P (visitInstruction true DL F fid ids bb st Ins).1.2 =
  if Q Ins then 1%nat else 0%nat.

Hypothesis Hentry : forall F fid loops BB bb addr,
  countb P (insertEntryHooks true F fid loops BB bb addr) =
    (countb P (insts BB) + e F BB)%nat
  /\ countb Q (insertEntryHooks true F fid loops BB bb addr) =
    countb Q (insts BB).

Lemma census_block DL F fid ids loops st BB :
  countb P (insts (instrumentBlock true DL F fid ids loops st BB).1.1.2) =
  (countb P (insts BB) + countb Q (insts BB) + e F BB)%nat.
Proof.
  unfold instrumentBlock.
  set (bb := lookupId ids (bkey BB)).
  set (addr := if isEntryBlock F BB then _ else _).
  pose proof (count_visitInstructions P Q true Hvisit DL F fid ids bb st
                (insertEntryHooks true F fid loops BB bb addr)) as H.
  destruct (Hentry F fid loops BB bb addr) as [Hp Hq].
  destruct (visitInstructions true DL F fid ids bb st _) as [[s1 o1] i1].
  simpl in *. rewrite H, Hp, Hq. lia.
Qed.

Lemma census_blocks DL F fid ids loops st bbs :
  countb P
    (concat (map insts (instrumentBlocks true DL F fid ids loops st bbs).1.1)) =
  (countb P (concat (map insts bbs)) + countb Q (concat (map insts bbs))
   + list_sum (map (e F) bbs))%nat.
Proof.
  revert st. induction bbs as [|BB bbs IH]; intros st; [done|].
  simpl.
  pose proof (census_block DL F fid ids loops st BB) as Hb.
  destruct (instrumentBlock true DL F fid ids loops st BB)
    as [[[s1 b1] i1] p1].
  specialize (IH s1).
  destruct (instrumentBlocks true DL F fid ids loops s1 bbs) as [[x y] z].
  simpl in *. rewrite !countb_app, Hb, IH. lia.
Qed.

Lemma census_function DL F fid :
  countb P (functionInsts (instrumentFunction true DL F fid).1.1) =
  (countb P (functionInsts F) + countb Q (functionInsts F)
   + list_sum (map (e F) (blocks F)))%nat.
Proof.
  unfold instrumentFunction, functionInsts.
  set (ids := assignBlockIds (blocks F) 0 ∅).
  pose proof (census_blocks DL F fid ids (assignLoopIds (loopInfo F))
                (mkCounters 0 0 0 []) (blocks F)) as H.
  by destruct (instrumentBlocks true DL F fid ids _ _ _) as [[x y] z].
Qed.

End HookCensus.

Lemma list_sum_ones {A : Type} (l : list A) :
  list_sum (map (fun _ => 1%nat) l) = length l.
Proof. induction l; simpl; congruence. Qed.

Lemma list_sum_zeros {A : Type} (l : list A) :
  list_sum (map (fun _ => 0%nat) l) = 0%nat.
Proof. induction l; simpl; congruence. Qed.

Lemma list_sum_indicator {A : Type} (P : A -> bool) (l : list A) :
  list_sum (map (fun x => if P x then 1%nat else 0%nat) l) = countb P l.
Proof.
  induction l as [|x l IH]; [done|].
  rewrite countb_cons. simpl. by rewrite IH.
Qed.

Lemma countb_false {A : Type} (l : list A) :
  countb (fun _ => false) l = 0%nat.
Proof. unfold countb. by induction l. Qed.

Lemma builderMade_not_hook name I :
  isBuilderMade I = true -> isCallTo name I = false.
Proof.
  unfold isBuilderMade, isCallTo.
  by destruct (opcode I) as [| | | | | |[] ?| |].
Qed.

(** The instructions the loop inserts for one instruction, by hook. *)
Lemma visitInstruction_hooks DL F fid ids bb st Ins :
  let ins := (visitInstruction true DL F fid ids bb st Ins).1.2 in
  countb (isCallTo BBHook) ins = 0%nat
  /\ countb (isCallTo LoopHook) ins = 0%nat
  /\ countb (isCallTo MemHook) ins = (if isMemInst Ins then 1 else 0)%nat
  /\ countb (isCallTo BranchHook) ins =
     (if isBranchInst Ins then 1 else 0)%nat
  /\ countb (isCallTo CallHook) ins =
     (if isInstrumentedCall Ins then 1 else 0)%nat.
Proof.
  intros ins. subst ins.
  destruct (visitInstruction_shape true DL F fid ids bb st Ins)
    as (made & args & -> & Hm & _).
  assert (Hz : forall name, countb (isCallTo name) made = 0%nat).
  { intros name. unfold countb. rewrite (filter_builderMade _ _ Hm); [done|].
    intros I. apply builderMade_not_hook. }
  rewrite !countb_app, !Hz.
  unfold isMemInst, isLoadInst, isStoreInst, isBranchInst, isInstrumentedCall.
  destruct (opcode Ins) as [| | | | | |callee args'| |]; simpl; try done.
  by destruct (negb (isIntrinsicInst callee) && negb (isInlineAsmCall callee)
               && negb (isBbtraceRuntimeCall callee)).
Qed.

Lemma insertEntryHooks_census (P : Instruction -> bool) F fid loops BB bb addr :
  countb P (insertEntryHooks true F fid loops BB bb addr) =
  (countb P (insts BB)
   + (if P (hookCall BBHook
              [constI32 fid; constI32 bb;
               constI32 (match getLoopFor (loopInfo F) (bkey BB) with
                         | Some L => lookupId loops (loopKey L)
                         | None => kInvalidLoopId
                         end);
               PointerCast addr]) then 1 else 0)
   + match getLoopFor (loopInfo F) (bkey BB) with
     | Some L =>
         if bool_decide (getHeader L = bkey BB) then
           if P (hookCall LoopHook
                   [constI32 fid; constI32 (lookupId loops (loopKey L))])
           then 1 else 0
         else 0
     | None => 0
     end)%nat.
Proof.
  unfold insertEntryHooks.
  destruct (getLoopFor (loopInfo F) (bkey BB)) as [L|].
  - case_bool_decide; rewrite ?countb_insertBefore; lia.
  - rewrite countb_insertBefore. lia.
Qed.

Ltac entry_hooks_census :=
  rewrite insertEntryHooks_census; unfold isLoopHeaderBlock;
  match goal with
  | |- context [getLoopFor ?li ?k] =>
      destruct (getLoopFor li k); [case_bool_decide|]
  end; simpl; lia.

(** X9.  Take a function whose every block has an instruction at its
    first insertion point (none consists of PHI nodes and a pad alone).
    With instrumentation, rewriting it adds exactly one call of the block
    hook per block, one call of the loop hook per block that heads its
    innermost loop, one call of the memory hook per load or store, one
    call of the branch hook per branch and one call of the call hook per
    call that is neither an intrinsic, nor inline assembly, nor a call of
    the runtime. *)
Theorem hook_census (DL : DataLayout) (F : Function) (fid : Z) :
  Forall (fun BB => (getFirstInsertionPt (insts BB) < length (insts BB))%nat)
    (blocks F) ->
  let before := functionInsts F in
  let after := functionInsts (instrumentFunction true DL F fid).1.1 in
  countb (isCallTo BBHook) after =
    (countb (isCallTo BBHook) before + length (blocks F))%nat
  /\ countb (isCallTo LoopHook) after =
    (countb (isCallTo LoopHook) before
     + countb (isLoopHeaderBlock F) (blocks F))%nat
  /\ countb (isCallTo MemHook) after =
    (countb (isCallTo MemHook) before + countb isMemInst before)%nat
  /\ countb (isCallTo BranchHook) after =
    (countb (isCallTo BranchHook) before + countb isBranchInst before)%nat
  /\ countb (isCallTo CallHook) after =
    (countb (isCallTo CallHook) before + countb isInstrumentedCall before)%nat.
Proof.
  intros _ before after. subst before after.
  repeat split.
  - rewrite (census_function (isCallTo BBHook) (fun _ => false)
               (fun _ _ => 1%nat)).
    + rewrite countb_false, list_sum_ones. lia.
    + intros. apply visitInstruction_hooks.
    + intros. split.
      * entry_hooks_census.
      * by rewrite !countb_false.
  - rewrite (census_function (isCallTo LoopHook) (fun _ => false)
               (fun F B => if isLoopHeaderBlock F B then 1%nat else 0%nat)).
    + rewrite countb_false, list_sum_indicator. lia.
    + intros. apply visitInstruction_hooks.
    + intros. split.
      * rewrite insertEntryHooks_census. unfold isLoopHeaderBlock. simpl.
        destruct (getLoopFor (loopInfo F0) (bkey BB)); [case_bool_decide|];
          simpl; lia.
      * by rewrite !countb_false.
  - rewrite (census_function (isCallTo MemHook) isMemInst
               (fun _ _ => 0%nat)).
    + rewrite list_sum_zeros. lia.
    + intros. apply visitInstruction_hooks.
    + intros. split.
      * entry_hooks_census.
      * entry_hooks_census.
  - rewrite (census_function (isCallTo BranchHook) isBranchInst
               (fun _ _ => 0%nat)).
    + rewrite list_sum_zeros. lia.
    + intros. apply visitInstruction_hooks.
    + intros. split.
      * entry_hooks_census.
      * entry_hooks_census.
  - rewrite (census_function (isCallTo CallHook) isInstrumentedCall
               (fun _ _ => 0%nat)).
    + rewrite list_sum_zeros. lia.
    + intros. apply visitInstruction_hooks.
    + intros. split.
      * entry_hooks_census.
      * entry_hooks_census.
Qed.

Lemma hook_census_witness :
  Forall (fun BB => (getFirstInsertionPt (insts BB) < length (insts BB))%nat)
    (blocks MoreSamples.fLoop)
  /\ countb (isCallTo BBHook)
       (functionInsts
          (instrumentFunction true Samples.DL64 MoreSamples.fLoop 0).1.1) =
     (countb (isCallTo BBHook) (functionInsts MoreSamples.fLoop)
      + length (blocks MoreSamples.fLoop))%nat.
Proof.
  assert (Hp : Forall (fun BB => (getFirstInsertionPt (insts BB)
                                  < length (insts BB))%nat)
                 (blocks MoreSamples.fLoop))
    by (repeat constructor; vm_compute; lia).
  split; [exact Hp|].
  exact (proj1 (hook_census Samples.DL64 MoreSamples.fLoop 0 Hp)).
Defined.

(** ** The operands of the call hook *)

Lemma instrumentFunction_around En DL F fid j BB Ins :
  blocks F !! j = Some BB ->
  Ins ∈ insts BB ->
  let ids := assignBlockIds (blocks F) 0 ∅ in
  let bb := lookupId ids (bkey BB) in
  exists BB' st pre post,
    blocks (instrumentFunction En DL F fid).1.1 !! j = Some BB'
    /\ insts BB' =
       pre ++ (visitInstruction En DL F fid ids bb st Ins).1.2 ++ Ins :: post.
Proof.
  intros Hj Hin ids bb. unfold instrumentFunction. fold ids.
  set (loops := if En then _ else _).
  destruct (instrumentBlocks_lookup En DL F fid ids loops (mkCounters 0 0 0 [])
              (blocks F) j BB Hj) as (st' & Ha & _).
  destruct (instrumentBlocks En DL F fid ids loops _ _) as [[x y] z].
  simpl in *. rewrite Ha. clear Ha.
  unfold instrumentBlock. fold bb.
  set (addr := if isEntryBlock F BB then _ else _).
  destruct (visitInstructions_around En DL F fid ids bb st'
              (insertEntryHooks En F fid loops BB bb addr) Ins
              (elem_of_insertEntryHooks _ _ _ _ _ _ _ _ Hin))
    as (st0 & pre & post & Hs).
  destruct (visitInstructions En DL F fid ids bb st' _) as [[s1 o1] i1].
  simpl in *. eexists _, st0, pre, post. split; [reflexivity|]. exact Hs.
Qed.

Lemma materializeCallArg_type DL Arg :
  typeOf (materializeCallArg DL Arg).2 = IntegerTy 64.
Proof.
  unfold materializeCallArg. cbv zeta.
  destruct (typeOf Arg) as [a|b|k|t] eqn:HT;
    cbn [isPointerTy isIntegerTy isFloatingPointTy getPointerAddressSpace
         getIntegerBitWidth]; [| | |done].
  - set (bw := if getPointerSizeInBits DL a =? 0 then _ else _).
    destruct (bw <? 64) eqn:H1; [done|].
    destruct (64 <? bw) eqn:H2; [done|].
    apply Z.ltb_ge in H1, H2. simpl. f_equal. lia.
  - destruct (b <? 64) eqn:H1; [done|].
    destruct (64 <? b) eqn:H2; [done|].
    case_bool_decide as Hd; simpl; first [done | congruence].
  - set (bw := if getScalarSizeInBits (FloatingTy k) =? 0 then _ else _).
    destruct (bw <? 64) eqn:H1; [done|].
    destruct (64 <? bw) eqn:H2; [done|].
    case_bool_decide as Hd; simpl; first [done | congruence].
Qed.

Lemma marshalArgs_types DL args :
  map typeOf (marshalArgs DL args) =
  concat (replicate (length args) callHookTripleTypes).
Proof.
  induction args as [|a args IH]; [done|].
  simpl. pose proof (materializeCallArg_type DL a) as Ht.
  destruct (materializeCallArg DL a) as [[k bw] v].
  simpl in *. by rewrite Ht, IH.
Qed.

Lemma marshalArgs_lookup DL args (i : nat) a :
  args !! i = Some a ->
  marshalArgs DL args !! (3 * i)%nat =
    Some (constI32 (callArgKindCode (materializeCallArg DL a).1.1))
  /\ marshalArgs DL args !! (3 * i + 1)%nat =
    Some (constI32 (materializeCallArg DL a).1.2)
  /\ marshalArgs DL args !! (3 * i + 2)%nat =
    Some (materializeCallArg DL a).2.
Proof.
  revert i. induction args as [|b args IH]; intros i Hi; [done|].
  destruct i as [|i]; simpl in Hi.
  - injection Hi as ->. simpl.
    by destruct (materializeCallArg DL a) as [[k bw] v].
  - destruct (IH i Hi) as (H1 & H2 & H3).
    replace (3 * S i)%nat with (S (S (S (3 * i)))) by lia.
    simpl marshalArgs.
    destruct (materializeCallArg DL b) as [[k bw] v].
    simpl. rewrite <- !plus_n_O in *.
    replace (i + (i + i))%nat with (3 * i)%nat in * by lia.
    replace (3 * i + 1)%nat with (S (3 * i)) in H2 by lia.
    replace (3 * i + 2)%nat with (S (S (3 * i))) in H3 by lia.
    replace (3 * i + 1)%nat with (S (3 * i)) by lia.
    replace (3 * i + 2)%nat with (S (S (3 * i))) by lia.
    auto.
Qed.

Lemma callArgKindCode_range k : 0 <= callArgKindCode k <= 3.
Proof. destruct k; simpl; lia. Qed.

(** X10.  With instrumentation, a call that is neither an intrinsic, nor
    inline assembly, nor a call of the runtime gets the call hook
    immediately in front of it.  The hook's operands are the six fixed
    ones (three 32-bit ids, two pointers, the 32-bit argument count) and
    then, for the argument at position [i], three operands at positions
    [6+3i], [7+3i], [8+3i]: a 32-bit kind code between 0 and 3, the 32-bit
    width and a 64-bit integer value.  This is the sequence the variadic
    reader of the runtime consumes ([uint32_t], [uint32_t], [uint64_t] per
    argument). *)
Theorem call_hook_operands (DL : DataLayout) (F : Function) (fid : Z)
    (j : nat) (BB : BasicBlock) (Ins : Instruction)
    (callee : Callee) (args : list Value) :
  blocks F !! j = Some BB ->
  Ins ∈ insts BB ->
  opcode Ins = OpCall callee args ->
  isInstrumentedCall Ins = true ->
  exists BB' ops pre post,
    blocks (instrumentFunction true DL F fid).1.1 !! j = Some BB'
    /\ insts BB' = pre ++ hookCall CallHook ops :: Ins :: post
    /\ length ops = (6 + 3 * length args)%nat
    /\ map typeOf ops =
       callHookFixedTypes ++ concat (replicate (length args) callHookTripleTypes)
    /\ ops !! 5%nat = Some (constI32 (wrap32 (Z.of_nat (length args))))
    /\ forall (i : nat) a, args !! i = Some a ->
         let '(kind, bw, v) := materializeCallArg DL a in
         ops !! (6 + 3 * i)%nat = Some (constI32 (callArgKindCode kind))
         /\ 0 <= callArgKindCode kind <= 3
         /\ ops !! (7 + 3 * i)%nat = Some (constI32 bw)
         /\ ops !! (8 + 3 * i)%nat = Some v
         /\ typeOf v = IntegerTy 64.
Proof.
  intros Hj Hin Hop Hcall.
  destruct (instrumentFunction_around true DL F fid j BB Ins Hj Hin)
    as (BB' & st & pre & post & H1 & H2).
  cbv zeta in H2. revert H2.
  unfold visitInstruction. unfold isInstrumentedCall in Hcall.
  rewrite Hop in *.
  destruct (isBbtraceRuntimeCall callee) eqn:Hrt;
    [by rewrite andb_false_r in Hcall|].
  rewrite Hcall. cbv zeta. cbn [fst snd app].
  intros H2.
  match type of H2 with
  | _ = pre ++ (?m ++ [hookCall CallHook ?o]) ++ _ =>
      exists BB', o, (pre ++ m), post; split; [exact H1|];
      split; [rewrite H2; generalize m; intros mm; by rewrite <- !app_assoc|]
  end.
  set (target := if isPointerTy _ then _ else _).
  split; [|split; [|split]].
  - cbn [length app]. f_equal.
    pose proof (f_equal (@length Ty) (marshalArgs_types DL args)) as Hl.
    rewrite length_map in Hl. rewrite Hl.
    clear. induction (length args) as [|n IH]; [done|].
    simpl. rewrite IH. lia.
  - cbn [map app]. rewrite marshalArgs_types.
    unfold callHookFixedTypes. simpl. repeat f_equal.
    subst target. by destruct (isPointerTy _).
  - done.
  - intros i a Hi.
    destruct (marshalArgs_lookup DL args i a Hi) as (Ha & Hb & Hc).
    pose proof (materializeCallArg_type DL a) as Ht.
    destruct (materializeCallArg DL a) as [[kind bw] v]. simpl in *.
    split; [exact Ha|]. split; [apply callArgKindCode_range|].
    split; [|split; [|exact Ht]].
    + replace (i + (i + (i + 0)) + 1)%nat with (S (i + (i + (i + 0))))
        in Hb by lia. exact Hb.
    + replace (i + (i + (i + 0)) + 2)%nat with (S (S (i + (i + (i + 0)))))
        in Hc by lia. exact Hc.
Qed.

Lemma call_hook_operands_witness :
  exists BB' ops pre post,
    blocks (instrumentFunction true Samples.DL64 MoreSamples.fLoop 0).1.1
      !! 4%nat = Some BB'
    /\ insts BB' =
       pre ++ hookCall CallHook ops
           :: Samples.callTo "h" [Samples.i32 3; Samples.ptr 4] :: post
    /\ length ops = 12%nat.
Proof.
  destruct (call_hook_operands Samples.DL64 MoreSamples.fLoop 0 4
              (mkBlock 54 "X" [Samples.callTo "h" [Samples.i32 3; Samples.ptr 4];
                               Samples.ret])
              (Samples.callTo "h" [Samples.i32 3; Samples.ptr 4])
              (CalleeFunction "h") [Samples.i32 3; Samples.ptr 4]
              eq_refl)
    as (BB' & ops & pre & post & H1 & H2 & H3 & _).
  - apply list_elem_of_In. simpl. tauto.
  - reflexivity.
  - reflexivity.
  - exists BB', ops, pre, post. auto.
Defined.

(** ** The functions of the module after the pass *)

Lemma instrumentFunction_identity En DL F fid :
  fkey (instrumentFunction En DL F fid).1.1 = fkey F
  /\ fname (instrumentFunction En DL F fid).1.1 = fname F.
Proof.
  unfold instrumentFunction.
  by destruct (instrumentBlocks _ _ _ _ _ _ _ _) as [[? ?] ?].
Qed.

Lemma instrumentFunctions_pointwise En DL fs fid :
  Forall2 (fun F F' => fkey F' = fkey F /\ fname F' = fname F
                       /\ (isEligible F = false -> F' = F))
          fs (instrumentFunctions En DL fs fid).1.1.1.
Proof.
  revert fid. induction fs as [|F fs IH]; intros fid; [constructor|].
  simpl.
  destruct (isDeclaration F) eqn:HD; simpl.
  { specialize (IH fid).
    destruct (instrumentFunctions En DL fs fid) as [[[? ?] ?] ?].
    by constructor. }
  destruct (starts_with (fname F) runtimePrefix) eqn:HP; simpl.
  { specialize (IH fid).
    destruct (instrumentFunctions En DL fs fid) as [[[? ?] ?] ?].
    by constructor. }
  destruct (instrumentFunction_identity En DL F fid) as [Hk Hn].
  destruct (instrumentFunction En DL F fid) as [[F' i1] p1].
  specialize (IH (wrap32 (fid + 1))).
  destruct (instrumentFunctions En DL fs _) as [[[? ?] ?] ?].
  simpl in *. constructor; [|exact IH].
  split; [exact Hk|]. split; [exact Hn|].
  unfold isEligible. rewrite HD, HP. intros; discriminate.
Qed.

(** X11.  After the pass the module's functions are the ones it had, in
    their order, followed by the functions the pass added.  A declaration
    or a function whose name starts with [__bbtrace_] comes out exactly as
    it went in; every other function keeps its identity and its name.
    What the pass adds (hook declarations, the constructor and the
    destructor) is itself never eligible for instrumentation, and in
    static-only mode nothing is added. *)
Theorem module_functions_after_pass (env : Env) (M : IRModule) :
  exists rewritten added,
    functions (outModule (run env M)) = rewritten ++ added
    /\ Forall2 (fun F F' => fkey F' = fkey F /\ fname F' = fname F
                            /\ (isEligible F = false -> F' = F))
               (functions M) rewritten
    /\ Forall (fun F => isEligible F = false) added
    /\ (isStaticOnlyMode env = true -> added = []).
Proof.
  unfold run.
  destruct (instrumentModule_functions env M)
    as (extra & hooks & Hf & Hh & _ & Hmode).
  cbv zeta in Hf, Hmode.
  eexists _, (extra ++ hooks). split; [exact Hf|].
  split; [apply instrumentFunctions_pointwise|].
  destruct (isStaticOnlyMode env); simpl in Hmode.
  - destruct Hmode as (-> & -> & _). split; [constructor|done].
  - destruct Hmode as (decls & ck & dk & -> & Hd & _).
    split; [|done].
    repeat rewrite Forall_app. repeat split.
    + eapply Forall_impl; [exact Hd|]. apply declaration_ineligible.
    + by repeat constructor.
    + eapply Forall_impl; [exact Hh|]. apply declaration_ineligible.
Qed.

(** ** The entries of the descriptor *)

Section EntryInvariant.

Variable P : InstructionStaticInfo -> Prop.

Hypothesis Hvisit : forall En DL F fid ids bb st Ins e,
  (visitInstruction En DL F fid ids bb st Ins).2 = Some e -> P e.

Lemma entries_visitInstructions En DL F fid ids bb st l :
  Forall P (visitInstructions En DL F fid ids bb st l).2.
Proof.
  revert st. induction l as [|x l IH]; intros st; [constructor|].
  simpl. pose proof (Hvisit En DL F fid ids bb st x) as Hx.
  destruct (visitInstruction En DL F fid ids bb st x) as [[s1 ins] info].
  specialize (IH s1).
  destruct (visitInstructions En DL F fid ids bb s1 l) as [[s2 o] infos].
  simpl in *. apply Forall_app. split; [|exact IH].
  destruct info as [e|]; simpl; [|constructor].
  constructor; [by apply Hx|constructor].
Qed.

Lemma entries_instrumentBlocks En DL F fid ids loops st bbs :
  Forall (fun Entry => Forall P (Instructions Entry))
    (instrumentBlocks En DL F fid ids loops st bbs).1.2.
Proof.
  revert st. induction bbs as [|BB bbs IH]; intros st; [constructor|].
  simpl.
  assert (Hb : Forall P
    (Instructions (instrumentBlock En DL F fid ids loops st BB).1.2)).
  { unfold instrumentBlock.
    set (bb := lookupId ids (bkey BB)).
    set (addr := if isEntryBlock F BB then _ else _).
    pose proof (entries_visitInstructions En DL F fid ids bb st
                  (insertEntryHooks En F fid loops BB bb addr)) as H.
    by destruct (visitInstructions En DL F fid ids bb st _) as [[s1 o1] i1]. }
  destruct (instrumentBlock En DL F fid ids loops st BB) as [[[s1 b1] i1] p1].
  specialize (IH s1).
  destruct (instrumentBlocks En DL F fid ids loops s1 bbs) as [[x y] z].
  simpl in *. by constructor.
Qed.

Lemma entries_instrumentFunctions En DL fs fid :
  Forall (fun Entry => Forall P (Instructions Entry))
    (instrumentFunctions En DL fs fid).1.1.2.
Proof.
  rewrite instrumentFunctions_infos.
  apply Forall_concat, Forall_map, Forall_forall.
  intros [F k] _. simpl. unfold instrumentFunction.
  set (ids := assignBlockIds (blocks F) 0 ∅).
  set (loops := if En then _ else _).
  pose proof (entries_instrumentBlocks En DL F k ids loops (mkCounters 0 0 0 [])
                (blocks F)) as H.
  by destruct (instrumentBlocks En DL F k ids loops _ _) as [[x y] z].
Qed.

Lemma entries_run env M :
  Forall (fun Entry => Forall P (Instructions Entry)) (StaticInfos (run env M)).
Proof.
  unfold run. destruct (instrumentModule_infos env M) as (-> & _).
  apply entries_instrumentFunctions.
Qed.

End EntryInvariant.

(** X12.  In every record of the descriptor, an instruction entry has the
    keys [text] and [kind], then [inst_id] unless its kind is generic, then
    [targets] exactly when its kind is branch; a branch entry lists one or
    two targets, and a generic entry carries the id 0 (which is not
    written). *)
Theorem descriptor_entry_fields (env : Env) (M : IRModule) :
  Forall (fun Entry =>
    Forall (fun Inst =>
      jsonKeys (instObj Inst) =
        ["text"; "kind"]
        ++ (if bool_decide (Kind Inst = Generic) then [] else ["inst_id"])
        ++ (if bool_decide (Kind Inst = Branch) then ["targets"] else [])
      /\ (Kind Inst = Branch ->
          (1 <= length (BranchTargets Inst) <= 2)%nat)
      /\ (Kind Inst = Generic -> InstId Inst = 0))
      (Instructions Entry))
    (StaticInfos (run env M)).
Proof.
  apply entries_run.
  intros En DL F fid ids bb st Ins e. unfold visitInstruction.
  destruct (opcode Ins) as [| | | | | |callee args| |]; simpl;
    try (intros [= <-]; unfold instObj; simpl; repeat split; (done || lia)).
  destruct (isBbtraceRuntimeCall callee); simpl; [done|].
  rewrite andb_true_r.
  destruct (negb (isIntrinsicInst callee) && negb (isInlineAsmCall callee));
    intros [= <-]; unfold instObj; simpl; repeat split; (done || lia).
Qed.

(** ** A descriptor file that cannot be opened *)

(** X13.  When the descriptor file cannot be opened for writing, the pass
    goes on as if nothing had happened: the module it returns, the records
    it collected and the PC map are those of a run in which the file opens,
    and it still reports the module as changed.  Of the file system it has
    only asked for the output directory (and not even that when there is
    no record); nothing is written. *)
Theorem unwritable_descriptor_is_silent (env : Env) (M : IRModule) :
  let r := run (withOpens env (fun _ => false)) M in
  let r0 := run env M in
  outModule r = outModule r0
  /\ StaticInfos r = StaticInfos r0
  /\ PcInfos r = PcInfos r0
  /\ modified r = true
  /\ fileEffects r =
     match StaticInfos r0 with
     | [] => []
     | _ => [CreateDirectories (descriptorPath env M).1]
     end.
Proof.
  intros r r0.
  destruct (instrumentModule_infos (withOpens env (fun _ => false)) M)
    as (Hs & Hp & He).
  destruct (instrumentModule_infos env M) as (Hs0 & Hp0 & _).
  fold (run (withOpens env (fun _ => false)) M) in Hs, Hp, He.
  fold (run env M) in Hs0, Hp0. fold r in Hs, Hp, He. fold r0 in Hs0, Hp0.
  assert (Hm : outModule r = outModule r0 /\ modified r = true).
  { subst r r0. unfold run. by rewrite !instrumentModule_unfold. }
  destruct Hm as [Hm Hmod].
  assert (Hsame : StaticInfos r = StaticInfos r0)
    by (rewrite Hs, Hs0; reflexivity).
  repeat split; [exact Hm|exact Hsame|congruence|exact Hmod|].
  rewrite He, Hsame.
  unfold dumpBasicBlockInfo. by destruct (StaticInfos r0).
Qed.

(** ** The hooks at the head of a block *)

Lemma insertEntryHooks_shape F fid loops BB bb addr :
  let p := getFirstInsertionPt (insts BB) in
  let hint :=
    match getLoopFor (loopInfo F) (bkey BB) with
    | Some L => lookupId loops (loopKey L)
    | None => kInvalidLoopId
    end in
  insertEntryHooks true F fid loops BB bb addr =
  take p (insts BB)
  ++ (if isLoopHeaderBlock F BB
      then [hookCall LoopHook [constI32 fid; constI32 hint]] else [])
  ++ hookCall BBHook
       [constI32 fid; constI32 bb; constI32 hint; PointerCast addr]
     :: drop p (insts BB).
Proof.
  intros p hint. unfold insertEntryHooks, isLoopHeaderBlock. subst hint.
  fold p.
  pose proof (getFirstInsertionPt_le (insts BB)) as Hle. fold p in Hle.
  destruct (getLoopFor (loopInfo F) (bkey BB)) as [L|]; [|done].
  case_bool_decide; [|done].
  set (h1 := hookCall BBHook _).
  assert (Hp1 : getFirstInsertionPt (insertBefore p h1 (insts BB)) = p)
    by (by apply getFirstInsertionPt_insertBefore).
  rewrite Hp1. unfold insertBefore at 1.
  rewrite take_insertBefore by done. simpl. do 2 f_equal.
  unfold insertBefore.
  rewrite drop_app_length'; [done|]. rewrite length_take_le; lia.
Qed.

(** X14.  Take a block that has an instruction at its first insertion
    point.  With instrumentation, the rewritten block consists of the PHI
    nodes (and landing pad) it started with, then the call of the loop
    hook if the block heads its innermost loop, then the call of the
    block hook, then the rest of the block.  The loop hook, although
    inserted second, comes first, and both come before anything inserted
    for the block's instructions.  The loop id given to the loop hook is
    the loop hint given to the block hook. *)
Theorem entry_hooks_lead_the_block (DL : DataLayout) (F : Function) (fid : Z)
    (j : nat) (BB : BasicBlock) :
  blocks F !! j = Some BB ->
  (getFirstInsertionPt (insts BB) < length (insts BB))%nat ->
  let bb := lookupId (assignBlockIds (blocks F) 0 ∅) (bkey BB) in
  let p := getFirstInsertionPt (insts BB) in
  let addr :=
    if isEntryBlock F BB then PointerCast (FunctionPtr (fkey F))
    else BlockAddress (fkey F) (bkey BB) in
  let hint :=
    match getLoopFor (loopInfo F) (bkey BB) with
    | Some L => lookupId (assignLoopIds (loopInfo F)) (loopKey L)
    | None => kInvalidLoopId
    end in
  exists BB' rest,
    blocks (instrumentFunction true DL F fid).1.1 !! j = Some BB'
    /\ insts BB' =
       take p (insts BB)
       ++ (if isLoopHeaderBlock F BB
           then [hookCall LoopHook [constI32 fid; constI32 hint]] else [])
       ++ hookCall BBHook
            [constI32 fid; constI32 bb; constI32 hint; PointerCast addr]
          :: rest
    /\ drop p (insts BB) `sublist_of` rest.
Proof.
  intros Hj _ bb p addr hint. unfold instrumentFunction.
  set (ids := assignBlockIds (blocks F) 0 ∅) in *.
  destruct (instrumentBlocks_lookup true DL F fid ids
              (assignLoopIds (loopInfo F)) (mkCounters 0 0 0 [])
              (blocks F) j BB Hj) as (st' & Ha & _).
  destruct (instrumentBlocks true DL F fid ids _ _ _) as [[x y] z].
  simpl in *. rewrite Ha. clear Ha.
  unfold instrumentBlock. fold bb. fold addr.
  rewrite insertEntryHooks_shape. fold p. fold hint.
  set (h1 := hookCall BBHook _).
  set (hs := if isLoopHeaderBlock F BB then _ else _).
  pose proof (visitInstructions_inert_prefix true DL F fid ids bb st'
                (take p (insts BB)) (hs ++ h1 :: drop p (insts BB))
                (getFirstInsertionPt_take (insts BB))) as H1.
  assert (H2 : (visitInstructions true DL F fid ids bb st'
                  (hs ++ h1 :: drop p (insts BB))).1.2 =
               hs ++ h1 ::
               (visitInstructions true DL F fid ids bb st'
                  (drop p (insts BB))).1.2).
  { subst hs. destruct (isLoopHeaderBlock F BB); cbn [app visitInstructions].
    - rewrite (visitInstruction_runtime true DL F fid ids bb st'
                 (hookCall LoopHook [constI32 fid; constI32 hint]) eq_refl).
      rewrite (visitInstruction_runtime true DL F fid ids bb st' h1 eq_refl).
      cbn [app].
      by destruct (visitInstructions true DL F fid ids bb st'
                     (drop p (insts BB))) as [[s o] i].
    - rewrite (visitInstruction_runtime true DL F fid ids bb st' h1 eq_refl).
      cbn [app].
      by destruct (visitInstructions true DL F fid ids bb st'
                     (drop p (insts BB))) as [[s o] i]. }
  rewrite H2 in H1. clear H2.
  pose proof (visitInstructions_sublist true DL F fid ids bb st'
                (drop p (insts BB))) as H3.
  destruct (visitInstructions true DL F fid ids bb st'
              (take p (insts BB) ++ hs ++ h1 :: drop p (insts BB)))
    as [[s1 o1] i1].
  simpl in H1. subst o1.
  eexists _, _. split; [reflexivity|]. split; [reflexivity|]. exact H3.
Qed.

Lemma entry_hooks_lead_the_block_witness :
  exists BB' rest,
    blocks (instrumentFunction true Samples.DL64 MoreSamples.fLoop 0).1.1
      !! 1%nat = Some BB'
    /\ insts BB' =
       [MoreSamples.phi;
        hookCall LoopHook [constI32 0; constI32 1];
        hookCall BBHook
          [constI32 0; constI32 1; constI32 1; PointerCast (BlockAddress 7 51)]]
       ++ rest.
Proof.
  destruct (entry_hooks_lead_the_block Samples.DL64 MoreSamples.fLoop 0 1
              (mkBlock 51 "H"
                 [MoreSamples.phi; Samples.load 1;
                  mkInst (OpBr 52) (fixedText "br label %G")])
              eq_refl)
    as (BB' & rest & H1 & H2 & _).
  - vm_compute. lia.
  - exists BB', rest. split; [exact H1|]. exact H2.
Defined.

(** ** Numbering the loops *)

Lemma last_removelast (Q : list Loop) L :
  last Q = Some L -> Q = removelast Q ++ [L].
Proof.
  intros H. apply last_Some in H as [Q' ->].
  by rewrite removelast_last.
Qed.

Lemma forestLoops_snoc Q L :
  forestLoops (Q ++ [L]) ≡ₚ L :: forestLoops (Q ++ getSubLoops L).
Proof.
  unfold forestLoops. rewrite !map_app, !concat_app. simpl.
  rewrite app_nil_r. destruct L as [k h subs]. simpl.
  fold (forestLoops subs). by rewrite <- Permutation_middle.
Qed.

Lemma loopCount_snoc Q L :
  list_sum (map loopCount (Q ++ [L])) =
  S (list_sum (map loopCount (Q ++ getSubLoops L))).
Proof.
  rewrite !map_app, !list_sum_app. destruct L as [k h subs]. simpl. lia.
Qed.

Lemma popOrder_perm fuel Q :
  (list_sum (map loopCount Q) < fuel)%nat ->
  popOrder fuel Q ≡ₚ forestLoops Q.
Proof.
  revert Q. induction fuel as [|fuel IH]; intros Q Hf; [lia|].
  simpl. destruct (last Q) as [L|] eqn:E.
  - pose proof (last_removelast Q L E) as HQ.
    set (Q' := removelast Q) in *. clearbody Q'. subst Q.
    rewrite forestLoops_snoc. constructor. apply IH.
    rewrite loopCount_snoc in Hf. lia.
  - apply last_None in E. by subst.
Qed.

Lemma loopsOf_self L : L ∈ loopsOf L.
Proof. destruct L. simpl. apply list_elem_of_here. Qed.

Lemma popOrder_sub fuel Q L S (i : nat) :
  (list_sum (map loopCount Q) < fuel)%nat ->
  popOrder fuel Q !! i = Some L ->
  S ∈ getSubLoops L ->
  exists j : nat, (i < j)%nat /\ popOrder fuel Q !! j = Some S.
Proof.
  revert Q i. induction fuel as [|fuel IH]; intros Q i Hf Hi HS; [lia|].
  simpl in *. destruct (last Q) as [L0|] eqn:E; [|done].
  pose proof (last_removelast Q L0 E) as HQ.
  set (Q' := removelast Q) in *.
  assert (Hf' : (list_sum (map loopCount (Q' ++ getSubLoops L0)) < fuel)%nat).
  { clearbody Q'. subst Q. rewrite loopCount_snoc in Hf. lia. }
  destruct i as [|i]; simpl in Hi.
  - injection Hi as ->.
    assert (Hin : S ∈ popOrder fuel (Q' ++ getSubLoops L)).
    { rewrite (popOrder_perm _ _ Hf'). unfold forestLoops.
      apply list_elem_of_In, in_concat. exists (loopsOf S). split.
      - apply in_map, in_or_app. right. by apply list_elem_of_In.
      - apply list_elem_of_In, loopsOf_self. }
    apply list_elem_of_lookup in Hin as [j Hj].
    exists (Datatypes.S j). split; [lia|done].
  - destruct (IH _ _ Hf' Hi HS) as (j & Hlt & Hj).
    exists (Datatypes.S j). split; [lia|done].
Qed.

Lemma numberLoops_other fuel Q n m k :
  k ∉ map loopKey (popOrder fuel Q) ->
  numberLoops fuel Q n m !! k = m !! k.
Proof.
  revert Q n m. induction fuel as [|fuel IH]; intros Q n m Hk; [done|].
  simpl in *. destruct (last Q) as [L|]; [|done].
  simpl in Hk. apply not_elem_of_cons in Hk as [Hne Hk].
  rewrite IH by done. by rewrite lookup_insert_ne.
Qed.

Lemma numberLoops_lookup fuel Q n m (i : nat) L :
  NoDup (map loopKey (popOrder fuel Q)) ->
  popOrder fuel Q !! i = Some L ->
  0 <= n ->
  n + Z.of_nat (length (popOrder fuel Q)) <= 2 ^ 32 ->
  numberLoops fuel Q n m !! loopKey L = Some (n + Z.of_nat i).
Proof.
  revert Q n m i. induction fuel as [|fuel IH]; intros Q n m i Hnd Hi Hn Hb;
    [done|].
  simpl in *. destruct (last Q) as [L0|]; [|done].
  simpl in Hnd, Hb. apply NoDup_cons in Hnd as [Hnot Hnd].
  destruct i as [|i]; simpl in Hi.
  - injection Hi as ->. rewrite numberLoops_other by done.
    rewrite lookup_insert_eq. f_equal. lia.
  - pose proof (lookup_lt_Some _ _ _ Hi) as Hlt.
    assert (Hw : wrap32 (n + 1) = n + 1).
    { unfold wrap32. apply Z.mod_small. lia. }
    rewrite Hw, (IH _ _ _ i Hnd Hi) by lia. f_equal. lia.
Qed.

(** X15.  When the loops of a function are distinct and fewer than
    [2^32], the worklist gives every loop of the loop forest, at whatever
    depth, an id of its own: the ids are the numbers from 0 up to the
    number of loops, no two loops share one, a loop has a smaller id than
    each of its sub-loops, and the last top-level loop has id 0. *)
Theorem loop_ids_dense_parent_first (LI : LoopInfo) :
  let all := forestLoops (topLevelLoops LI) in
  let ids := assignLoopIds LI in
  NoDup (map loopKey all) ->
  Z.of_nat (length all) <= 2 ^ 32 ->
  (forall L, L ∈ all ->
     is_Some (ids !! loopKey L)
     /\ 0 <= lookupId ids (loopKey L) < Z.of_nat (length all))
  /\ (forall L1 L2, L1 ∈ all -> L2 ∈ all ->
        lookupId ids (loopKey L1) = lookupId ids (loopKey L2) -> L1 = L2)
  /\ (forall L S, L ∈ all -> S ∈ getSubLoops L ->
        lookupId ids (loopKey L) < lookupId ids (loopKey S))
  /\ (forall L, last (topLevelLoops LI) = Some L ->
        lookupId ids (loopKey L) = 0).
Proof.
  intros all ids Hnd Hb.
  set (fuel := Datatypes.S (list_sum (map loopCount (topLevelLoops LI)))).
  set (order := popOrder fuel (topLevelLoops LI)).
  assert (Hperm : order ≡ₚ all) by (apply popOrder_perm; subst fuel; lia).
  assert (Hnd' : NoDup (map loopKey order)) by (by rewrite Hperm).
  assert (Hlen : length order = length all) by (by rewrite Hperm).
  assert (Hid : forall (i : nat) L, order !! i = Some L ->
            ids !! loopKey L = Some (Z.of_nat i)).
  { intros i L Hi. subst ids. unfold assignLoopIds. fold fuel.
    rewrite (numberLoops_lookup fuel (topLevelLoops LI) 0 ∅ i L Hnd' Hi);
      [f_equal; lia|lia|].
    fold order. lia. }
  assert (Hidx : forall L, L ∈ all -> exists i : nat, order !! i = Some L).
  { intros L HL. rewrite <- Hperm in HL.
    by apply list_elem_of_lookup in HL. }
  repeat split.
  - destruct (Hidx L H) as [i Hi]. rewrite (Hid i L Hi). by eexists.
  - destruct (Hidx L H) as [i Hi]. unfold lookupId.
    rewrite (Hid i L Hi). simpl. lia.
  - destruct (Hidx L H) as [i Hi]. unfold lookupId.
    rewrite (Hid i L Hi). simpl.
    pose proof (lookup_lt_Some _ _ _ Hi). lia.
  - intros L1 L2 H1 H2 Heq.
    destruct (Hidx L1 H1) as [i Hi]. destruct (Hidx L2 H2) as [j Hj].
    unfold lookupId in Heq. rewrite (Hid i L1 Hi), (Hid j L2 Hj) in Heq.
    simpl in Heq. assert (i = j) by lia. subst. congruence.
  - intros L S HL HS.
    destruct (Hidx L HL) as [i Hi].
    destruct (popOrder_sub fuel (topLevelLoops LI) L S i
                ltac:(subst fuel; lia) Hi HS) as (j & Hlt & Hj).
    unfold lookupId. rewrite (Hid i L Hi), (Hid j S Hj). simpl. lia.
  - intros L HL. unfold lookupId.
    rewrite (Hid 0%nat L); [done|].
    subst order fuel. simpl. by rewrite HL.
Qed.

Lemma loop_ids_dense_parent_first_witness :
  lookupId (assignLoopIds MoreSamples.loops) (loopKey MoreSamples.L1)
  < lookupId (assignLoopIds MoreSamples.loops) (loopKey MoreSamples.L2).
Proof.
  destruct (loop_ids_dense_parent_first MoreSamples.loops) as (_ & _ & H & _).
  - apply (bool_decide_unpack _). vm_compute. exact I.
  - vm_compute. discriminate.
  - apply (H MoreSamples.L1 MoreSamples.L2).
    + apply list_elem_of_In. simpl. tauto.
    + apply list_elem_of_In. simpl. tauto.
Defined.

(** * Properties of the runtime *)

(** ** Sanitising names *)

Lemma cstr_no_NUL s i : String.get i (Runtime.cstr s) <> Some Runtime.NUL.
Proof.
  revert i. induction s as [|c s IH]; intros i; simpl; [by destruct i|].
  destruct (Ascii.eqb_spec c Runtime.NUL) as [->|Hne]; [by destruct i|].
  destruct i as [|i]; simpl; [congruence|apply IH].
Qed.

Lemma cstr_fixed s :
  (forall i, String.get i s <> Some Runtime.NUL) -> Runtime.cstr s = s.
Proof.
  induction s as [|c s IH]; intros H; simpl; [done|].
  destruct (Ascii.eqb_spec c Runtime.NUL) as [->|Hne].
  - by destruct (H 0%nat).
  - f_equal. apply IH. intros i. apply (H (S i)).
Qed.

Lemma replaceQuotes_get s i :
  String.get i (Runtime.replaceQuotes s) =
  match String.get i s with
  | Some c =>
      Some (if (c =? Runtime.doubleQuote)%char then Runtime.apostrophe else c)
  | None => None
  end.
Proof.
  revert i. induction s as [|c s IH]; intros i; simpl; [by destruct i|].
  destruct i as [|i]; simpl; [done|apply IH].
Qed.

Lemma replaceQuotes_length s :
  String.length (Runtime.replaceQuotes s) = String.length s.
Proof. induction s as [|c s IH]; simpl; congruence. Qed.

Lemma replaceQuotes_clean s :
  (forall i, String.get i s <> Some Runtime.doubleQuote) ->
  Runtime.replaceQuotes s = s.
Proof.
  induction s as [|c s IH]; intros H; simpl; [done|].
  destruct (Ascii.eqb_spec c Runtime.doubleQuote) as [->|Hne].
  - by destruct (H 0%nat).
  - f_equal. apply IH. intros i. apply (H (S i)).
Qed.

Lemma sanitize_get name i :
  String.get i (Runtime.sanitize name) <> Some Runtime.doubleQuote
  /\ String.get i (Runtime.sanitize name) <> Some Runtime.NUL.
Proof.
  destruct name as [n|]; simpl.
  - rewrite replaceQuotes_get.
    destruct (String.get i (Runtime.cstr n)) as [c|] eqn:E; [|done].
    destruct (Ascii.eqb_spec c Runtime.doubleQuote) as [->|Hne].
    + split; intros [=].
    + split; [congruence|]. intros [= ->]. by apply (cstr_no_NUL n i).
  - do 5 (destruct i as [|i]; [split; intros [=]|]). done.
Qed.

(** X16.  The name [sanitize] returns never contains a double quote.  A
    null pointer gives [null]; otherwise the result has the length of the
    C string it was given, with an apostrophe wherever that had a double
    quote and the same character everywhere else.  Sanitising a sanitised
    name changes nothing. *)
Theorem sanitize_replaces_every_quote (name : option string) :
  (forall i, String.get i (Runtime.sanitize name) <> Some Runtime.doubleQuote)
  /\ (forall n, name = Some n ->
        String.length (Runtime.sanitize name) = String.length (Runtime.cstr n)
        /\ forall i c, String.get i (Runtime.cstr n) = Some c ->
             String.get i (Runtime.sanitize name) =
             Some (if (c =? Runtime.doubleQuote)%char
                   then Runtime.apostrophe else c))
  /\ (name = None -> Runtime.sanitize name = "null")
  /\ Runtime.sanitize (Some (Runtime.sanitize name)) = Runtime.sanitize name.
Proof.
  split; [intros i; apply sanitize_get|].
  split; [|split].
  - intros n ->. simpl. split; [apply replaceQuotes_length|].
    intros i c Hc. by rewrite replaceQuotes_get, Hc.
  - by intros ->.
  - unfold Runtime.sanitize at 1.
    rewrite cstr_fixed by (intros i; apply sanitize_get).
    apply replaceQuotes_clean. intros i. apply sanitize_get.
Qed.

Lemma substring_0_cons k c s :
  String.substring 0 (S k) (String c s) = String c (String.substring 0 k s).
Proof. done. Qed.

Lemma substring_0_length k s :
  (String.length (String.substring 0 k s) <= k)%nat.
Proof.
  revert s. induction k as [|k IH]; intros s.
  - destruct s; simpl; lia.
  - destruct s as [|c s]; simpl; [lia|]. specialize (IH s). lia.
Qed.

Lemma substring_0_get k s i c :
  String.get i (String.substring 0 k s) = Some c -> String.get i s = Some c.
Proof.
  revert s i. induction k as [|k IH]; intros s i.
  - destruct s; simpl; by destruct i.
  - destruct s as [|d s]; simpl; [by destruct i|].
    destruct i as [|i]; simpl; [done|apply IH].
Qed.

Lemma sanitizeLoop_substring s n cap :
  Runtime.sanitizeLoop s n cap =
  String.substring 0 (cap - 1 - n) (Runtime.replaceQuotes (Runtime.cstr s)).
Proof.
  revert n. induction s as [|c s IH]; intros n; simpl.
  - by destruct (cap - 1 - n)%nat.
  - destruct (Ascii.eqb_spec c Runtime.NUL) as [->|Hne].
    + by destruct (cap - 1 - n)%nat.
    + destruct (Nat.ltb_spec (n + 1) cap) as [Hlt|Hge].
      * replace (cap - 1 - n)%nat with (S (cap - 1 - S n)) by lia.
        simpl. by rewrite IH.
      * replace (cap - 1 - n)%nat with 0%nat by lia. done.
Qed.

(** X17.  What [TraceLogger::sanitize] leaves in a buffer of [cap] bytes
    is the sanitised name cut to [cap - 1] characters, for a null pointer
    as for a string.  The module name [set_module] stores therefore has
    at most 127 characters (it fits its 128 bytes with the terminator) and
    no double quote. *)
Theorem stored_name_is_truncated_sanitize (cap : nat) (src : option string) :
  Runtime.sanitizeInto cap src =
    String.substring 0 (cap - 1) (Runtime.sanitize src)
  /\ (String.length (Runtime.sanitizeInto cap src) <= cap - 1)%nat
  /\ (String.length (Runtime.set_module src) <= 127)%nat
  /\ forall i,
       String.get i (Runtime.set_module src) <> Some Runtime.doubleQuote.
Proof.
  assert (H : forall cap, Runtime.sanitizeInto cap src =
            String.substring 0 (cap - 1) (Runtime.sanitize src)).
  { intros k. destruct src as [s|]; simpl.
    - rewrite sanitizeLoop_substring. by rewrite Nat.sub_0_r.
    - done. }
  split; [apply H|]. split; [rewrite H; apply substring_0_length|].
  unfold Runtime.set_module. rewrite H.
  split; [apply (substring_0_length 127)|].
  intros i Hi. apply substring_0_get in Hi.
  destruct (sanitize_get src i) as [Hq _]. by apply Hq.
Qed.

(** ** Counting loop iterations *)

Lemma loopKey64_split f l :
  0 <= f < 2 ^ 32 -> 0 <= l < 2 ^ 32 ->
  Z.shiftr (Runtime.loopKey64 f l) 32 = f
  /\ Z.land (Runtime.loopKey64 f l) (Z.ones 32) = l.
Proof.
  intros Hf Hl. unfold Runtime.loopKey64.
  assert (Hs : Z.shiftl f 32 mod 2 ^ 64 = Z.shiftl f 32).
  { rewrite Z.shiftl_mul_pow2 by lia. apply Z.mod_small. lia. }
  rewrite Hs. split.
  - rewrite Z.shiftr_lor, Z.shiftr_shiftl_l by lia.
    rewrite Z.sub_diag, Z.shiftl_0_r.
    rewrite (Z.shiftr_div_pow2 l) by lia.
    rewrite Z.div_small by lia. apply Z.lor_0_r.
  - rewrite Z.land_lor_distr_l.
    rewrite !Z.land_ones by lia.
    rewrite Z.shiftl_mul_pow2 by lia.
    rewrite Z.mod_mul by lia. rewrite Z.mod_small by lia. apply Z.lor_0_l.
Qed.

Lemma loopKey64_inj f l f' l' :
  0 <= f < 2 ^ 32 -> 0 <= l < 2 ^ 32 ->
  0 <= f' < 2 ^ 32 -> 0 <= l' < 2 ^ 32 ->
  Runtime.loopKey64 f l = Runtime.loopKey64 f' l' -> f = f' /\ l = l'.
Proof.
  intros Hf Hl Hf' Hl' E.
  destruct (loopKey64_split f l Hf Hl) as [A B].
  destruct (loopKey64_split f' l' Hf' Hl') as [A' B'].
  rewrite E in A, B. split; congruence.
Qed.

Lemma loopEvents_app m a b :
  Runtime.loopEvents m (a ++ b) =
  let '(i1, m1) := Runtime.loopEvents m a in
  let '(i2, m2) := Runtime.loopEvents m1 b in
  (i1 ++ i2, m2).
Proof.
  revert m. induction a as [|[f l] a IH]; intros m; simpl.
  - by destruct (Runtime.loopEvents m b).
  - rewrite IH.
    destruct (Runtime.loopEvents _ a) as [i1 m1].
    by destruct (Runtime.loopEvents m1 b) as [i2 m2].
Qed.

Lemma loopEvents_length m a :
  length (Runtime.loopEvents m a).1 = length a.
Proof.
  revert m. induction a as [|[f l] a IH]; intros m; simpl; [done|].
  specialize (IH (<[Runtime.loopKey64 f l :=
                     (default 0 (m !! Runtime.loopKey64 f l) + 1) mod 2 ^ 64]> m)).
  destruct (Runtime.loopEvents _ a) as [i1 m1]. simpl in *. by rewrite IH.
Qed.

(** The table after a run of events: for a loop, the number of its events
    so far (on top of what the table held), modulo [2^64]. *)
Lemma loopEvents_table m a f l :
  0 <= f < 2 ^ 32 -> 0 <= l < 2 ^ 32 ->
  Forall (fun e => 0 <= e.1 < 2 ^ 32 /\ 0 <= e.2 < 2 ^ 32) a ->
  0 <= default 0 (m !! Runtime.loopKey64 f l) < 2 ^ 64 ->
  default 0 ((Runtime.loopEvents m a).2 !! Runtime.loopKey64 f l) =
  (default 0 (m !! Runtime.loopKey64 f l)
   + Z.of_nat (countb (fun e => bool_decide (e = (f, l))) a)) mod 2 ^ 64.
Proof.
  intros Hf Hl Ha. revert m.
  induction Ha as [|[f' l'] a [Hf' Hl'] _ IH]; intros m Hm.
  - simpl. change (countb _ []) with 0%nat.
    rewrite Z.add_0_r, Z.mod_small; by try lia.
  - simpl in Hf', Hl'. simpl.
    set (k' := Runtime.loopKey64 f' l').
    set (m' := <[k' := (default 0 (m !! k') + 1) mod 2 ^ 64]> m).
    specialize (IH m').
    destruct (Runtime.loopEvents m' a) as [i1 m1]. cbn [fst snd] in *.
    rewrite countb_cons.
    case_bool_decide as Heq.
    + injection Heq as -> ->. fold k' in Hm, IH |- *.
      rewrite IH.
      * subst m'. rewrite lookup_insert_eq. simpl.
        rewrite Zplus_mod_idemp_l. f_equal. lia.
      * subst m'. rewrite lookup_insert_eq. simpl.
        apply Z.mod_pos_bound. lia.
    + assert (Hk : k' <> Runtime.loopKey64 f l).
      { intros E. apply loopKey64_inj in E; [|done..].
        destruct E; congruence. }
      rewrite IH.
      * subst m'. by rewrite lookup_insert_ne by done.
      * subst m'. by rewrite lookup_insert_ne.
Qed.

(** X18.  On a thread that starts with an empty table, the event of a
    loop reports as its iteration index the number of earlier events of
    the same function and loop, modulo [2^64], whatever events of other
    loops lie in between: two loops never share a counter. *)
Theorem loop_iteration_counts_earlier_events
    (pre post : list (Z * Z)) (f l : Z) :
  Forall (fun e => 0 <= e.1 < 2 ^ 32 /\ 0 <= e.2 < 2 ^ 32) pre ->
  0 <= f < 2 ^ 32 -> 0 <= l < 2 ^ 32 ->
  (Runtime.loopEvents ∅ (pre ++ (f, l) :: post)).1 !! length pre =
  Some (Z.of_nat (countb (fun e => bool_decide (e = (f, l))) pre) mod 2 ^ 64).
Proof.
  intros Hpre Hf Hl.
  rewrite loopEvents_app.
  pose proof (loopEvents_length ∅ pre) as Hlen.
  pose proof (loopEvents_table ∅ pre f l Hf Hl Hpre) as Ht.
  destruct (Runtime.loopEvents ∅ pre) as [i1 m1]. simpl in *.
  destruct (Runtime.loopEvents _ post) as [i2 m2]. simpl.
  rewrite lookup_app_r by lia. rewrite Hlen, Nat.sub_diag. simpl.
  f_equal. rewrite Ht; [done|]. rewrite lookup_empty. simpl. lia.
Qed.

Lemma loop_iteration_counts_earlier_events_witness :
  (Runtime.loopEvents ∅ ([(0, 1); (0, 2); (0, 1)] ++ (0, 1) :: [])).1
    !! length [(0, 1); (0, 2); (0, 1)] =
  Some (Z.of_nat (countb (fun e => bool_decide (e = (0, 1)))
                    [(0, 1); (0, 2); (0, 1)]) mod 2 ^ 64).
Proof.
  apply (loop_iteration_counts_earlier_events [(0, 1); (0, 2); (0, 1)] []
           0 1).
  - repeat constructor; simpl; lia.
  - lia.
  - lia.
Defined.

(** ** Kinds of call arguments, from the pass to the trace *)

Lemma materializeCallArg_kind DL Arg :
  (materializeCallArg DL Arg).1.1 =
  match typeOf Arg with
  | PointerTy _ => Pointer
  | IntegerTy _ => Integer
  | FloatingTy _ => Floating
  | OtherTy _ => Unknown
  end.
Proof.
  unfold materializeCallArg. cbv zeta.
  by destruct (typeOf Arg).
Qed.

(** X19.  The kind code the pass hands to the call hook and the name the
    runtime prints for a code agree: an argument of pointer type is
    traced as [ptr], one of integer type as [int], one of floating-point
    type as [float] and anything else as [unknown].  The four kinds have
    four different names, and a code no kind has is printed as
    [unknown]. *)
Theorem call_arg_kind_names (DL : DataLayout) (Arg : Value) :
  Runtime.call_arg_kind_to_string
    (callArgKindCode (materializeCallArg DL Arg).1.1) =
    match typeOf Arg with
    | PointerTy _ => "ptr"
    | IntegerTy _ => "int"
    | FloatingTy _ => "float"
    | OtherTy _ => "unknown"
    end
  /\ (forall k1 k2 : CallArgKind,
        Runtime.call_arg_kind_to_string (callArgKindCode k1) =
        Runtime.call_arg_kind_to_string (callArgKindCode k2) -> k1 = k2)
  /\ (forall code : Z,
        (forall k, callArgKindCode k <> code) ->
        Runtime.call_arg_kind_to_string code = "unknown").
Proof.
  split; [|split].
  - rewrite materializeCallArg_kind. by destruct (typeOf Arg).
  - by intros [] [].
  - intros code H. unfold Runtime.call_arg_kind_to_string.
    destruct (Z.eqb_spec code 1) as [->|_]; [by destruct (H Integer)|].
    destruct (Z.eqb_spec code 2) as [->|_]; [by destruct (H Pointer)|].
    destruct (Z.eqb_spec code 3) as [->|_]; [by destruct (H Floating)|].
    done.
Qed.

(** ** The two buffers of [pointer_to_json] *)

(** X20.  [pointer_to_json] writes its two buffers in turn.  After two
    calls in a row both results are intact, each buffer holding the text
    of its own address, so one format call can use two pointers; a third
    call returns the buffer of the first and overwrites its text. *)
Theorem pointer_to_json_keeps_two_results (b : Runtime.PtrBuffers)
    (a1 a2 a3 : Z) :
  let '(b1, r1) := Runtime.pointer_to_json b a1 in
  let '(b2, r2) := Runtime.pointer_to_json b1 a2 in
  let '(b3, r3) := Runtime.pointer_to_json b2 a3 in
  r1 <> r2
  /\ Runtime.readBuffer b2 r1 = Runtime.snprintf_s 32 (Runtime.pointerText a1)
  /\ Runtime.readBuffer b2 r2 = Runtime.snprintf_s 32 (Runtime.pointerText a2)
  /\ r3 = r1
  /\ Runtime.readBuffer b3 r1 = Runtime.snprintf_s 32 (Runtime.pointerText a3)
  /\ Runtime.readBuffer b3 r2 = Runtime.snprintf_s 32 (Runtime.pointerText a2).
Proof.
  unfold Runtime.pointer_to_json, Runtime.readBuffer.
  destruct b as [b0 b1 []]; cbn [Runtime.index negb Runtime.buffer0
    Runtime.buffer1]; repeat split; done.
Qed.

(** ** The directories [mkdir_p] asks for *)

Lemma append_cons x (a b : string) : String x a +:+ b = String x (a +:+ b).
Proof. reflexivity. Qed.

Lemma append_assoc (a b c : string) : (a +:+ b) +:+ c = a +:+ (b +:+ c).
Proof.
  induction a as [|x a IH]; [done|]. rewrite !append_cons. by rewrite IH.
Qed.

Lemma append_empty_r (a : string) : a +:+ "" = a.
Proof. induction a as [|x a IH]; [done|]. rewrite append_cons. by rewrite IH. Qed.

Lemma get_append_length (a : string) c b :
  String.get (String.length a) (a +:+ String c b) = Some c.
Proof. induction a as [|x a IH]; [done|exact IH]. Qed.

Lemma append_nonempty (a b : string) : a <> "" -> a +:+ b <> "".
Proof. by destruct a. Qed.

Lemma mkdirPrefixes_spec dn rest :
  Forall (fun c => exists r1 r2,
            rest = r1 +:+ String Runtime.slash r2 /\ c = dn +:+ r1)
         (Runtime.mkdirPrefixes dn rest).
Proof.
  revert dn. induction rest as [|c r IH]; intros dn; simpl;
    [constructor|].
  apply Forall_app. split.
  - destruct (Ascii.eqb_spec c Runtime.slash) as [->|_]; [|constructor].
    constructor; [|constructor].
    exists "", r. split; [done|]. by rewrite append_empty_r.
  - eapply Forall_impl; [apply IH|]. simpl.
    intros x (r1 & r2 & -> & ->). exists (String c r1), r2.
    split; [done|]. by rewrite append_assoc.
Qed.

Lemma mkdirPrefixes_length dn rest :
  length (Runtime.mkdirPrefixes dn rest) =
  length (List.filter (fun c => (c =? Runtime.slash)%char)
            (String.list_ascii_of_string rest)).
Proof.
  revert dn. induction rest as [|c r IH]; intros dn; simpl; [done|].
  rewrite length_app, IH.
  by destruct (c =? Runtime.slash)%char.
Qed.

(** X21.  [mkdir_p] refuses the empty path and a path of 1024 characters
    or more, without a call of [mkdir], and returns -1.  Otherwise it
    calls [mkdir] once for every slash of the path but a leading one, and
    a last time: each call but the last names the non-empty part of the
    path in front of a slash, and the last call names the whole path. *)
Theorem mkdir_p_walks_the_prefixes (path : string) :
  let p := Runtime.cstr path in
  match Runtime.mkdir_p_calls path with
  | None =>
      (p = "" \/ (1024 <= String.length p)%nat)
      /\ forall r, Runtime.mkdir_p_result path r = -1
  | Some calls =>
      (0 < String.length p < 1024)%nat
      /\ last calls = Some p
      /\ Forall (fun c => c <> "" /\ String.prefix c p = true) calls
      /\ (forall (i : nat) c, calls !! i = Some c ->
            (S i < length calls)%nat ->
            String.get (String.length c) p = Some Runtime.slash)
      /\ exists c0 rest,
           p = String c0 rest
           /\ length calls =
              S (length (List.filter (fun c => (c =? Runtime.slash)%char)
                           (String.list_ascii_of_string rest)))
  end.
Proof.
  intros p. unfold Runtime.mkdir_p_result, Runtime.mkdir_p_calls. fold p.
  destruct p as [|c0 rest] eqn:Ep; [by split; [left|]|].
  rewrite <- Ep.
  destruct (Nat.leb_spec Runtime.kPathBufSize (String.length p)) as [Hle|Hlt].
  { split; [by right|done]. }
  pose proof (mkdirPrefixes_spec (String c0 "") rest) as Hs.
  split; [rewrite Ep in *; unfold Runtime.kPathBufSize in Hlt; simpl in *; lia|].
  split; [by rewrite last_snoc|].
  split; [|split].
  - apply Forall_app. split.
    + eapply Forall_impl; [exact Hs|]. simpl.
      intros c (r1 & r2 & Hr & ->). split; [done|].
      rewrite Ep, Hr. simpl.
      destruct (Ascii.ascii_dec c0 c0) as [_|Hne]; [|by destruct Hne].
      apply prefix_append.
    + constructor; [|constructor]. split; [by rewrite Ep|].
      rewrite <- (prefix_append p ""). by rewrite append_empty_r.
  - intros i c Hc Hi. rewrite length_app in Hi. simpl in Hi.
    rewrite lookup_app_l in Hc by lia.
    rewrite Forall_forall in Hs.
    destruct (Hs c) as (r1 & r2 & Hr & ->).
    { apply list_elem_of_lookup. by exists i. }
    rewrite Ep, Hr. simpl. apply get_append_length.
  - exists c0, rest. split; [exact Ep|].
    rewrite length_app, mkdirPrefixes_length. simpl. lia.
Qed.

(** * Taking the insertions out again *)

Lemma filter_insertBefore (P : Instruction -> bool) n h l :
  P h = false -> List.filter P (insertBefore n h l) = List.filter P l.
Proof.
  intros Hh. unfold insertBefore.
  rewrite List.filter_app. simpl. rewrite Hh, <- List.filter_app.
  by rewrite take_drop.
Qed.

Lemma filter_insertEntryHooks (P : Instruction -> bool) En F fid loops BB bb
    addr :
  (forall n a, starts_with n runtimePrefix = true -> P (hookCall n a) = false) ->
  List.filter P (insertEntryHooks En F fid loops BB bb addr) =
  List.filter P (insts BB).
Proof.
  intros HP. unfold insertEntryHooks. destruct En; [|done].
  destruct (getLoopFor (loopInfo F) (bkey BB)) as [L|].
  - case_bool_decide; rewrite ?filter_insertBefore; try done;
      by apply HP.
  - rewrite filter_insertBefore; [done|]. by apply HP.
Qed.

Lemma filter_visitInstructions (P : Instruction -> bool) En DL F fid ids bb st
    l :
  (forall st Ins,
     List.filter P (visitInstruction En DL F fid ids bb st Ins).1.2 = []) ->
  List.filter P (visitInstructions En DL F fid ids bb st l).1.2 =
  List.filter P l.
Proof.
  intros HP. revert st. induction l as [|x l IH]; intros st; [done|].
  simpl. specialize (HP st x).
  destruct (visitInstruction En DL F fid ids bb st x) as [[s1 ins] info].
  specialize (IH s1).
  destruct (visitInstructions En DL F fid ids bb s1 l) as [[s2 o] infos].
  simpl in *. rewrite List.filter_app, HP. simpl. by rewrite IH.
Qed.

Lemma visitInstruction_inserts_own En DL F fid ids bb st Ins :
  List.filter
    (fun I => negb (isRuntimeCallInst I || isInstPcRecord I
                    || isBuilderMade I))
    (visitInstruction En DL F fid ids bb st Ins).1.2 = [].
Proof.
  destruct (visitInstruction_shape En DL F fid ids bb st Ins)
    as (made & args & -> & Hm & _).
  rewrite !List.filter_app.
  rewrite (filter_builderMade _ made Hm)
    by (intros I ->; by rewrite orb_true_r).
  by destruct (isMemInst Ins), En, (isBranchInst Ins),
       (isInstrumentedCall Ins).
Qed.

Lemma filter_instrumentBlocks En DL F fid ids loops st bbs :
  Forall2 (fun B B' =>
             List.filter
               (fun I => negb (isRuntimeCallInst I || isInstPcRecord I
                               || isBuilderMade I))
               (insts B') =
             List.filter
               (fun I => negb (isRuntimeCallInst I || isInstPcRecord I
                               || isBuilderMade I))
               (insts B))
          bbs (instrumentBlocks En DL F fid ids loops st bbs).1.1.
Proof.
  set (own := fun I => negb (isRuntimeCallInst I || isInstPcRecord I
                             || isBuilderMade I)).
  revert st. induction bbs as [|BB bbs IH]; intros st; [constructor|].
  simpl.
  assert (Hb : List.filter own
                 (insts (instrumentBlock En DL F fid ids loops st BB).1.1.2) =
               List.filter own (insts BB)).
  { unfold instrumentBlock.
    set (bb := lookupId ids (bkey BB)).
    set (addr := if isEntryBlock F BB then _ else _).
    pose proof (filter_visitInstructions own En DL F fid ids bb st
                  (insertEntryHooks En F fid loops BB bb addr)
                  (fun st Ins =>
                     visitInstruction_inserts_own En DL F fid ids bb st Ins))
      as H.
    destruct (visitInstructions En DL F fid ids bb st _) as [[s1 o1] i1].
    simpl in *. rewrite H. apply filter_insertEntryHooks.
    intros n a Hn. subst own. simpl. unfold isRuntimeCallInst. simpl.
    unfold isBbtraceRuntimeCall. simpl. by rewrite Hn. }
  destruct (instrumentBlock En DL F fid ids loops st BB) as [[[s1 b1] i1] p1].
  specialize (IH s1).
  destruct (instrumentBlocks En DL F fid ids loops s1 bbs) as [[x y] z].
  simpl in *. by constructor.
Qed.

(** X22.  Take a function whose every block has an instruction at its
    first insertion point, or a run without instrumentation.  Everything
    the pass inserts into a block is a call of the runtime, a
    [.bbtrace_inst] record, or an instruction the builder made for the
    operands of a hook (a cast, a select, the call of
    [llvm.returnaddress]): with those taken out, the rewritten block is
    the block as it was, with those taken out.  No other instruction is
    added, dropped, changed or moved. *)
Theorem stripping_insertions_restores_blocks (En : bool) (DL : DataLayout)
    (F : Function) (fid : Z) :
  (En = false
   \/ Forall (fun BB =>
                (getFirstInsertionPt (insts BB) < length (insts BB))%nat)
             (blocks F)) ->
  let own := fun I => negb (isRuntimeCallInst I || isInstPcRecord I
                            || isBuilderMade I) in
  Forall2 (fun B B' => List.filter own (insts B') = List.filter own (insts B))
          (blocks F) (blocks (instrumentFunction En DL F fid).1.1).
Proof.
  intros _ own. unfold instrumentFunction.
  set (ids := assignBlockIds (blocks F) 0 ∅).
  set (loops := if En then _ else _).
  pose proof (filter_instrumentBlocks En DL F fid ids loops (mkCounters 0 0 0 [])
                (blocks F)) as H.
  by destruct (instrumentBlocks En DL F fid ids loops _ _) as [[x y] z].
Qed.

Lemma stripping_insertions_restores_blocks_witness :
  Forall (fun BB => (getFirstInsertionPt (insts BB) < length (insts BB))%nat)
    (blocks MoreSamples.fLoop)
  /\ Forall2
       (fun B B' =>
          List.filter
            (fun I => negb (isRuntimeCallInst I || isInstPcRecord I
                            || isBuilderMade I)) (insts B') =
          List.filter
            (fun I => negb (isRuntimeCallInst I || isInstPcRecord I
                            || isBuilderMade I)) (insts B))
       (blocks MoreSamples.fLoop)
       (blocks (instrumentFunction true Samples.DL64 MoreSamples.fLoop 0).1.1).
Proof.
  assert (Hp : Forall (fun BB => (getFirstInsertionPt (insts BB)
                                  < length (insts BB))%nat)
                 (blocks MoreSamples.fLoop))
    by (repeat constructor; vm_compute; lia).
  split; [exact Hp|].
  exact (stripping_insertions_restores_blocks true Samples.DL64
           MoreSamples.fLoop 0 (or_intror Hp)).
Defined.

(** * Registration of the module *)

(** X23.  Without the static-only flag, whatever the module holds, the
    pass enters exactly one constructor and one destructor, both at
    priority 0, behind the entries the module had; they are functions of
    the returned module whose single block calls
    [__bbtrace_register_module] on the module-name global, respectively
    [__bbtrace_finalize], and returns.  The module-name global holds the
    module identifier with its terminating NUL.  (Names are the ones the
    pass asks for.) *)
Theorem instrumented_module_registers_itself (env : Env) (M : IRModule) :
  isStaticOnlyMode env = false ->
  let out := outModule (run env M) in
  exists ck dk,
    globalCtors out = globalCtors M ++ [(ck, 0)]
    /\ globalDtors out = globalDtors M ++ [(dk, 0)]
    /\ ctorFunction ck ∈ functions out
    /\ dtorFunction dk ∈ functions out
    /\ blocks (ctorFunction ck) =
       [mkBlock 0%N "entry"
          [hookCall RegisterFn [PointerCast (GlobalPtr moduleNameGlobal)];
           retVoid]]
    /\ blocks (dtorFunction dk) =
       [mkBlock 0%N "entry" [hookCall FinalizeFn []; retVoid]]
    /\ mkGlobal moduleNameGlobal true true true
         (InitString (getModuleIdentifier M) true) "" 1 ∈ globals out.
Proof.
  intros Hs out. subst out. unfold run.
  destruct (instrumentModule_functions env M)
    as (extra & hooks & Hf & _ & _ & Hmode).
  destruct (instrumentModule_module env M) as (_ & _ & _ & _ & _ & Hg & _).
  cbv zeta in Hf, Hmode, Hg. rewrite Hs in Hmode, Hg. cbn [negb] in Hmode, Hg.
  destruct Hmode as (decls & ck & dk & -> & _ & Hc & Hd).
  destruct (ensureCtorDtor_spec M) as (_ & _ & _ & _ & _ & HgM & _).
  exists ck, dk. rewrite Hf, Hg, HgM.
  repeat split; try done.
  - rewrite !elem_of_app. right. left. right.
    apply list_elem_of_In. simpl. tauto.
  - rewrite !elem_of_app. right. left. right.
    apply list_elem_of_In. simpl. tauto.
  - rewrite !elem_of_app. left. right. apply list_elem_of_here.
Qed.

Lemma instrumented_module_registers_itself_witness :
  exists ck dk,
    globalCtors (outModule (run Samples.envInstrumented Samples.straightLine))
      = globalCtors Samples.straightLine ++ [(ck, 0)]
    /\ globalDtors (outModule (run Samples.envInstrumented Samples.straightLine))
      = globalDtors Samples.straightLine ++ [(dk, 0)].
Proof.
  destruct (instrumented_module_registers_itself Samples.envInstrumented
              Samples.straightLine eq_refl)
    as (ck & dk & H1 & H2 & _).
  by exists ck, dk.
Defined.
